(** * The Halide runtime thread pool (src/runtime/thread_pool_common.h)

    A shallow embedding of the cooperative work-stealing pool: the counting
    semaphores, the [work] record (a Job), the global [work_queue], the
    enqueue protocol, the dispatch loop shared by workers and owners, and the
    public entry points [halide_default_do_par_for],
    [halide_default_do_parallel_tasks] and [halide_set_num_threads].

    Conventions of the embedding.
    - A C [int] is a [Z]. Arithmetic on the values that come from the
      callers (the [min], [extent] and [min_threads] of a task, and the sums
      the enqueue protocol makes of them) is written with its wrap-around
      ([wrap], two's complement, as the machine computes it), and so are the
      [__sync] builtins used by the semaphores. The counters of the queue
      and of a Job, which count threads and activations, are written
      exactly.
    - A pointer to a Job is an index into [memory], the Jobs that live in the
      frames of the submitting calls; the singly linked job stack (the
      [next_job] links starting at [work_queue.jobs]) is the list of those
      pointers, top first.
    - The queue mutex makes each stretch of code between acquiring and giving
      up the mutex one atomic step of the thread that runs it. *)

From Stdlib Require Import ZArith List Bool Lia String.
From stdpp Require Import base tactics option list list_numbers functions.

Local Open Scope Z_scope.

(** ** Machine integers *)

Definition INT_MIN : Z := - 2 ^ 31.
Definition INT_MAX : Z := 2 ^ 31 - 1.

Definition is_int (x : Z) : Prop := INT_MIN <= x <= INT_MAX.

(** Two's-complement reduction of a mathematical integer to a 32-bit
    signed one. *)
Definition wrap (x : Z) : Z := (x + 2 ^ 31) mod 2 ^ 32 - 2 ^ 31.

(** ** Data model *)

(** Addresses. A Job pointer indexes [memory]; a semaphore pointer names a
    cell of [semaphore_values]; a group token is the address of the local
    [parent_id] of one call of the enqueue protocol. *)
Abbreviation ptr := nat (only parsing).

(** Modelled from the spec: [halide_semaphore_acquire_t] of HalideRuntime.h,
    one (semaphore, count) precondition of a task. *)
Record halide_semaphore_acquire_t := {
  semaphore : ptr;
  count : Z
}.

(** Modelled from the spec: [halide_parallel_task_t] of HalideRuntime.h, the
    task descriptor of section 3. The array [semaphores] and its length
    [num_semaphores] are one list; function and closure pointers are opaque
    addresses, [None] being NULL. *)
Record halide_parallel_task_t := {
  fn : option nat;
  closure : nat;
  name : option string;
  semaphores : list halide_semaphore_acquire_t;
  min : Z;
  extent : Z;
  min_threads : Z;
  serial : bool;
  may_block : bool
}.

Definition num_semaphores (t : halide_parallel_task_t) : Z :=
  Z.of_nat (length (semaphores t)).

(** [struct work]. The link [next_job] is the tail of the job stack. The
    field [parent] is written by the enqueue protocol before anything reads
    it; [None] is the indeterminate value it has until then. *)
Record work := {
  task : halide_parallel_task_t;
  task_fn : option nat;
  parent : option ptr;
  user_context : nat;
  active_workers : Z;
  exit_status : Z;
  next_semaphore : Z;
  owner_is_sleeping : bool
}.

Definition set_min_extent (m e : Z) (t : halide_parallel_task_t) :=
  {| fn := fn t; closure := closure t; name := name t;
     semaphores := semaphores t; min := m; extent := e;
     min_threads := min_threads t; serial := serial t;
     may_block := may_block t |}.

Definition set_task (t : halide_parallel_task_t) (w : work) :=
  {| task := t; task_fn := task_fn w; parent := parent w;
     user_context := user_context w; active_workers := active_workers w;
     exit_status := exit_status w; next_semaphore := next_semaphore w;
     owner_is_sleeping := owner_is_sleeping w |}.

Definition set_parent (p : option ptr) (w : work) :=
  {| task := task w; task_fn := task_fn w; parent := p;
     user_context := user_context w; active_workers := active_workers w;
     exit_status := exit_status w; next_semaphore := next_semaphore w;
     owner_is_sleeping := owner_is_sleeping w |}.

Definition set_active_workers (a : Z) (w : work) :=
  {| task := task w; task_fn := task_fn w; parent := parent w;
     user_context := user_context w; active_workers := a;
     exit_status := exit_status w; next_semaphore := next_semaphore w;
     owner_is_sleeping := owner_is_sleeping w |}.

Definition set_exit_status (e : Z) (w : work) :=
  {| task := task w; task_fn := task_fn w; parent := parent w;
     user_context := user_context w; active_workers := active_workers w;
     exit_status := e; next_semaphore := next_semaphore w;
     owner_is_sleeping := owner_is_sleeping w |}.

Definition set_next_semaphore (n : Z) (w : work) :=
  {| task := task w; task_fn := task_fn w; parent := parent w;
     user_context := user_context w; active_workers := active_workers w;
     exit_status := exit_status w; next_semaphore := n;
     owner_is_sleeping := owner_is_sleeping w |}.

Definition set_owner_is_sleeping (b : bool) (w : work) :=
  {| task := task w; task_fn := task_fn w; parent := parent w;
     user_context := user_context w; active_workers := active_workers w;
     exit_status := exit_status w; next_semaphore := next_semaphore w;
     owner_is_sleeping := b |}.

(** [work::running]. *)
Definition running (w : work) : bool :=
  negb (extent (task w) =? 0) || negb (active_workers w =? 0).

Definition MAX_THREADS : Z := 256.

(** ** Semaphores *)

(** [__sync_add_and_fetch] on an [int] cell holding [v]: the new value, which
    is both stored and returned. *)
Definition sync_add_and_fetch (v n : Z) : Z := wrap (v + n).

(** [halide_default_semaphore_init]: the value stored (and returned). *)
Definition halide_default_semaphore_init (n : Z) : Z := n.

(** [halide_default_semaphore_try_acquire] on a cell holding [v]: the value
    left in the cell and the result. *)
Definition halide_default_semaphore_try_acquire (v n : Z) : Z * bool :=
  let new_val := sync_add_and_fetch v (wrap (- n)) in
  if new_val <? 0
  then (sync_add_and_fetch new_val n, false)
  else (new_val, true).

(** [halide_default_semaphore_release] on a cell holding [v]: the value left
    in the cell (also the result) and whether the A team and the owners are
    woken. *)
Definition halide_default_semaphore_release (v n : Z) : Z * bool :=
  let new_val := sync_add_and_fetch v n in
  (new_val, new_val =? n).

(** The semaphores of the program: the value at each address. *)
Abbreviation semaphore_store := (nat -> Z) (only parsing).

Definition try_acquire_at (σ : semaphore_store) (a : halide_semaphore_acquire_t)
  : semaphore_store * bool :=
  let r := halide_default_semaphore_try_acquire (σ (semaphore a)) (count a) in
  (<[semaphore a := fst r]> σ, snd r).

(** The loop of [work::make_runnable] over the preconditions that are still
    to be acquired, [next] being the index of the first of them. *)
Fixpoint make_runnable_from (todo : list halide_semaphore_acquire_t)
    (next : Z) (σ : semaphore_store) : semaphore_store * Z * bool :=
  match todo with
  | [] => (σ, 0, true)
  | a :: todo' =>
      let r := try_acquire_at σ a in
      if snd r
      then make_runnable_from todo' (next + 1) (fst r)
      else (fst r, next, false)
  end.

(** [work::make_runnable]. *)
Definition make_runnable (σ : semaphore_store) (w : work)
  : semaphore_store * work * bool :=
  let r := make_runnable_from
             (drop (Z.to_nat (next_semaphore w)) (semaphores (task w)))
             (next_semaphore w) σ in
  (fst (fst r), set_next_semaphore (snd (fst r)) w, snd r).

(** ** Thread counts *)

Definition clamp_num_threads (threads : Z) : Z :=
  if threads >? MAX_THREADS then MAX_THREADS
  else if threads <? 1 then 1
  else threads.

(** What [default_desired_num_threads] reads from its environment: the
    [atoi] of each variable that is set, and the host's CPU count. *)
Record environment := {
  HL_NUM_THREADS : option Z;
  HL_NUMTHREADS : option Z;
  halide_host_cpu_count : Z
}.

Definition default_desired_num_threads (env : environment) : Z :=
  let threads_str :=
    match HL_NUM_THREADS env with
    | Some s => Some s
    | None => HL_NUMTHREADS env
    end in
  match threads_str with
  | Some s => s
  | None => halide_host_cpu_count env
  end.

(** ** The work queue *)

(** The three condition variables of [work_queue_t]. *)
Inductive cond := wake_a_team | wake_b_team | wake_owners.

(** [struct work_queue_t]. The mutex is implicit (see the conventions); the
    condition variables carry no data. [threads] is the array
    [halide_thread *threads[MAX_THREADS]]; a thread handle is the number of
    the thread. *)
Record work_queue_t := {
  jobs : list ptr;
  threads_created : Z;
  desired_threads_working : Z;
  a_team_size : Z;
  target_a_team_size : Z;
  workers_sleeping : Z;
  owners_sleeping : Z;
  threads : list (option nat);
  shutdown : bool;
  initialized : bool
}.

Definition set_jobs (js : list ptr) (q : work_queue_t) :=
  {| jobs := js; threads_created := threads_created q;
     desired_threads_working := desired_threads_working q;
     a_team_size := a_team_size q;
     target_a_team_size := target_a_team_size q;
     workers_sleeping := workers_sleeping q;
     owners_sleeping := owners_sleeping q; threads := threads q;
     shutdown := shutdown q; initialized := initialized q |}.

Definition set_desired_threads_working (d : Z) (q : work_queue_t) :=
  {| jobs := jobs q; threads_created := threads_created q;
     desired_threads_working := d;
     a_team_size := a_team_size q;
     target_a_team_size := target_a_team_size q;
     workers_sleeping := workers_sleeping q;
     owners_sleeping := owners_sleeping q; threads := threads q;
     shutdown := shutdown q; initialized := initialized q |}.

Definition set_a_team_size (a : Z) (q : work_queue_t) :=
  {| jobs := jobs q; threads_created := threads_created q;
     desired_threads_working := desired_threads_working q;
     a_team_size := a;
     target_a_team_size := target_a_team_size q;
     workers_sleeping := workers_sleeping q;
     owners_sleeping := owners_sleeping q; threads := threads q;
     shutdown := shutdown q; initialized := initialized q |}.

Definition set_target_a_team_size (a : Z) (q : work_queue_t) :=
  {| jobs := jobs q; threads_created := threads_created q;
     desired_threads_working := desired_threads_working q;
     a_team_size := a_team_size q;
     target_a_team_size := a;
     workers_sleeping := workers_sleeping q;
     owners_sleeping := owners_sleeping q; threads := threads q;
     shutdown := shutdown q; initialized := initialized q |}.

Definition set_workers_sleeping (n : Z) (q : work_queue_t) :=
  {| jobs := jobs q; threads_created := threads_created q;
     desired_threads_working := desired_threads_working q;
     a_team_size := a_team_size q;
     target_a_team_size := target_a_team_size q;
     workers_sleeping := n;
     owners_sleeping := owners_sleeping q; threads := threads q;
     shutdown := shutdown q; initialized := initialized q |}.

Definition set_owners_sleeping (n : Z) (q : work_queue_t) :=
  {| jobs := jobs q; threads_created := threads_created q;
     desired_threads_working := desired_threads_working q;
     a_team_size := a_team_size q;
     target_a_team_size := target_a_team_size q;
     workers_sleeping := workers_sleeping q;
     owners_sleeping := n; threads := threads q;
     shutdown := shutdown q; initialized := initialized q |}.

Definition set_shutdown (b : bool) (q : work_queue_t) :=
  {| jobs := jobs q; threads_created := threads_created q;
     desired_threads_working := desired_threads_working q;
     a_team_size := a_team_size q;
     target_a_team_size := target_a_team_size q;
     workers_sleeping := workers_sleeping q;
     owners_sleeping := owners_sleeping q; threads := threads q;
     shutdown := b; initialized := initialized q |}.

Definition set_initialized (b : bool) (q : work_queue_t) :=
  {| jobs := jobs q; threads_created := threads_created q;
     desired_threads_working := desired_threads_working q;
     a_team_size := a_team_size q;
     target_a_team_size := target_a_team_size q;
     workers_sleeping := workers_sleeping q;
     owners_sleeping := owners_sleeping q; threads := threads q;
     shutdown := shutdown q; initialized := b |}.

(** The shared state of the pool: the global [work_queue], the Jobs in the
    frames of the submitting calls, the semaphores, and (as a record of what
    was signalled) the broadcasts made so far, oldest first. *)
Record pool := {
  work_queue : work_queue_t;
  memory : list work;
  semaphore_values : semaphore_store;
  broadcasts : list cond
}.

Definition set_work_queue (q : work_queue_t) (p : pool) :=
  {| work_queue := q; memory := memory p;
     semaphore_values := semaphore_values p; broadcasts := broadcasts p |}.

Definition set_memory (m : list work) (p : pool) :=
  {| work_queue := work_queue p; memory := m;
     semaphore_values := semaphore_values p; broadcasts := broadcasts p |}.

Definition set_semaphore_values (σ : semaphore_store) (p : pool) :=
  {| work_queue := work_queue p; memory := memory p;
     semaphore_values := σ; broadcasts := broadcasts p |}.

Definition halide_cond_broadcast (c : cond) (p : pool) :=
  {| work_queue := work_queue p; memory := memory p;
     semaphore_values := semaphore_values p;
     broadcasts := broadcasts p ++ [c] |}.

(** The zero-initialised global [work_queue] at program start. *)
Definition work_queue_zero : work_queue_t :=
  {| jobs := []; threads_created := 0; desired_threads_working := 0;
     a_team_size := 0; target_a_team_size := 0;
     workers_sleeping := 0; owners_sleeping := 0;
     threads := replicate (Z.to_nat MAX_THREADS) None;
     shutdown := false; initialized := false |}.

(** ** The dispatch loop: finding a job (lines 120-143) *)

Definition threads_that_could_assist (q : work_queue_t) (job : work) : Z :=
  let t := 1 + workers_sleeping q in
  if negb (may_block (task job)) then t + owners_sleeping q
  else if owner_is_sleeping job then t + 1
  else t.

Definition enough_threads (q : work_queue_t) (job : work) : bool :=
  min_threads (task job) <=? threads_that_could_assist q job.

(** [!owned_job || job->parent == owned_job->parent || !job->task.may_block] *)
Definition owner_may_assist (owned : option ptr) (mem : list work)
    (job : work) : bool :=
  match owned with
  | None => true
  | Some o =>
      match mem !! o with
      | Some owned_job => bool_decide (parent job = parent owned_job)
      | None => false
      end
      || negb (may_block (task job))
  end.

Definition may_try (owned : option ptr) (mem : list work) (job : work)
  : bool :=
  owner_may_assist owned mem job
  && (negb (serial (task job)) || (active_workers job =? 0)).

(** The inner [while (job)] loop. [stack] is what is left of the job stack,
    [pos] the distance of its head from the top (it stands for [prev_ptr]).
    The result is the memory and the semaphores as the calls of
    [make_runnable] left them, and the job the loop broke at, if any. *)
Fixpoint find_job (owned : option ptr) (q : work_queue_t)
    (stack : list ptr) (pos : nat) (mem : list work) (σ : semaphore_store)
  : list work * semaphore_store * option (nat * ptr) :=
  match stack with
  | [] => (mem, σ, None)
  | j :: rest =>
      match mem !! j with
      | None => (mem, σ, None)
      | Some job =>
          if may_try owned mem job && enough_threads q job then
            let r := make_runnable σ job in
            let mem' := <[j := snd (fst r)]> mem in
            if snd r then (mem', fst (fst r), Some (pos, j))
            else find_job owned q rest (S pos) mem' (fst (fst r))
          else find_job owned q rest (S pos) mem σ
      end
  end.

(** ** The dispatch loop: one pass (lines 117-247) *)

(** Where a thread that runs the dispatch loop is when it does not hold the
    mutex. *)
Inductive activity :=
| Starting                              (* spawned, before the lock of line 251 *)
| Wait (c : cond)                       (* inside halide_cond_wait *)
| Do_task (job : ptr) (myjob : work)    (* lines 222-230: one iteration *)
| Serial_claim (job : ptr) (iters : Z)  (* line 189: claiming iterations *)
| Serial_body (job : ptr) (iters : Z)   (* line 195: inside the loop task *)
| Serial_done (job : ptr) (result : Z)  (* line 201: left the serial loop *)
| Exited.                               (* worker_thread has returned *)

(** [owned_job ? owned_job->running() : !work_queue.shutdown] *)
Definition loop_condition (owned : option ptr) (p : pool) : bool :=
  match owned with
  | Some o =>
      match memory p !! o with
      | Some owned_job => running owned_job
      | None => false
      end
  | None => negb (shutdown (work_queue p))
  end.

(** No runnable job: go to sleep (lines 145-169, up to the wait). *)
Definition go_to_sleep (owned : option ptr) (p : pool) : pool * activity :=
  let q := work_queue p in
  match owned with
  | Some o =>
      (set_memory (alter (set_owner_is_sleeping true) o (memory p))
         (set_work_queue (set_owners_sleeping (owners_sleeping q + 1) q) p),
       Wait wake_owners)
  | None =>
      let q1 := set_workers_sleeping (workers_sleeping q + 1) q in
      if a_team_size q1 >? target_a_team_size q1
      then (set_work_queue (set_a_team_size (a_team_size q1 - 1) q1) p,
            Wait wake_b_team)
      else (set_work_queue q1 p, Wait wake_a_team)
  end.

(** Back from the wait (lines 152-153, 161, 166), then [continue]. *)
Definition after_wait (owned : option ptr) (c : cond) (p : pool) : pool :=
  let q := work_queue p in
  match owned with
  | Some o =>
      set_work_queue (set_owners_sleeping (owners_sleeping q - 1) q)
        (set_memory (alter (set_owner_is_sleeping false) o (memory p)) p)
  | None =>
      let q1 :=
        match c with
        | wake_b_team => set_a_team_size (a_team_size q + 1) q
        | _ => q
        end in
      set_work_queue (set_workers_sleeping (workers_sleeping q1 - 1) q1) p
  end.

(** A job was found at [pos] (lines 176-222, up to giving up the mutex). *)
Definition claim (pos : nat) (j : ptr) (job : work) (p : pool)
  : pool * activity :=
  let q := work_queue p in
  let job1 := set_active_workers (active_workers job + 1) job in
  if serial (task job1) then
    (set_memory (<[j := job1]> (memory p))
       (set_work_queue (set_jobs (delete pos (jobs q)) q) p),
     Serial_claim j 1)
  else
    let myjob := job1 in
    let t := task job1 in
    let job2 := set_task (set_min_extent (wrap (min t + 1))
                            (wrap (extent t - 1)) t) job1 in
    let q' := if extent (task job2) =? 0
              then set_jobs (delete pos (jobs q)) q else q in
    (set_memory (<[j := job2]> (memory p)) (set_work_queue q' p),
     Do_task j myjob).

(** One pass of [worker_thread_already_locked], entered at the top of its
    [while] with the mutex held: [None] when the loop condition is false
    (the function returns, mutex still held), else where the thread is when
    it gives up the mutex. *)
Definition worker_thread_already_locked (owned : option ptr) (p : pool)
  : pool * option activity :=
  if loop_condition owned p then
    let q := work_queue p in
    let r := find_job owned q (jobs q) 0 (memory p) (semaphore_values p) in
    let p1 := set_semaphore_values (snd (fst r)) (set_memory (fst (fst r)) p) in
    match snd r with
    | None => let s := go_to_sleep owned p1 in (fst s, Some (snd s))
    | Some (pos, j) =>
        match memory p1 !! j with
        | Some job => let c := claim pos j job p1 in (fst c, Some (snd c))
        | None => (p1, None)
        end
    end
  else (p, None).

(** Lines 233-246, with the mutex held again: record the status, leave the
    job, wake its owner if it is done. *)
Definition finish_task (j : ptr) (result : Z) (p : pool) : pool :=
  match memory p !! j with
  | None => p
  | Some job =>
      let job1 := if negb (result =? 0) then set_exit_status result job
                  else job in
      let job2 := set_active_workers (active_workers job1 - 1) job1 in
      let p1 := set_memory (<[j := job2]> (memory p)) p in
      if negb (running job2) && owner_is_sleeping job2
      then halide_cond_broadcast wake_owners p1
      else p1
  end.

(** The serial path outside the mutex (lines 186-200). One evaluation of the
    condition of the inner [while] of line 189, and what follows when it is
    false. *)
Definition serial_claim_step (j : ptr) (iters : Z) (p : pool)
  : pool * activity :=
  match memory p !! j with
  | None => (p, Serial_done j 0)
  | Some job =>
      let leave (p' : pool) :=
        if iters =? 0 then (p', Serial_done j 0)
        else (p', Serial_body j iters) in
      if extent (task job) >? iters then
        let r := make_runnable (semaphore_values p) job in
        let p1 := set_semaphore_values (fst (fst r))
                    (set_memory (<[j := snd (fst r)]> (memory p)) p) in
        if snd r then (p1, Serial_claim j (iters + 1)) else leave p1
      else leave p
  end.

(** The loop task returned [result] (lines 197-199 and the test of 187). *)
Definition serial_body_return (j : ptr) (iters result : Z) (p : pool)
  : pool * activity :=
  match memory p !! j with
  | None => (p, Serial_done j result)
  | Some job =>
      let t := task job in
      let job1 := set_task (set_min_extent (wrap (min t + iters))
                              (wrap (extent t - iters)) t) job in
      (set_memory (<[j := job1]> (memory p)) p,
       if result =? 0 then Serial_claim j 0 else Serial_done j result)
  end.

(** Lines 201-207: with the mutex held again, put the job back. *)
Definition serial_put_back (j : ptr) (p : pool) : pool :=
  match memory p !! j with
  | None => p
  | Some job =>
      if extent (task job) >? 0
      then set_work_queue (set_jobs (j :: jobs (work_queue p)) (work_queue p)) p
      else p
  end.

(** ** Undefined behaviour *)

(** The two ways in which the code modelled here leaves defined behaviour:
    a write past the end of [work_queue.threads], and a read of a Job of the
    scratch array of [halide_default_do_parallel_tasks] that was never
    written. *)
Inductive undefined :=
| Threads_overflow (index : Z)
| Uninitialised_job (index : nat).

Inductive res (A : Type) :=
| Ok (a : A)
| Undefined (u : undefined).
Arguments Ok {A} a.
Arguments Undefined {A} u.

(** ** The enqueue protocol (lines 256-358) *)

(** Lines 257-277. *)
Definition lazy_initialize (env : environment) (q : work_queue_t)
  : work_queue_t :=
  if initialized q then q
  else
    let d := if desired_threads_working q =? 0
             then default_desired_num_threads env
             else desired_threads_working q in
    {| jobs := []; threads_created := 0;
       desired_threads_working := clamp_num_threads d;
       a_team_size := 0; target_a_team_size := 0;
       workers_sleeping := 0; owners_sleeping := 0;
       threads := threads q;
       shutdown := false; initialized := true |}.

(** The locals [min_threads], [workers_to_wake] and [stealable_jobs] of
    lines 283-291. *)
Record batch := {
  batch_min_threads : Z;
  workers_to_wake : Z;
  stealable_jobs : bool
}.

(** The body of the loop of lines 293-305. *)
Definition gather_job (b : batch) (job : work) : batch :=
  {| stealable_jobs :=
       if negb (may_block (task job)) then true else stealable_jobs b;
     batch_min_threads :=
       if negb (may_block (task job)) then batch_min_threads b
       else wrap (batch_min_threads b + min_threads (task job));
     workers_to_wake :=
       if serial (task job) then wrap (workers_to_wake b + 1)
       else wrap (workers_to_wake b + extent (task job)) |}.

Definition gather (js : list work) : batch :=
  fold_left gather_job js
    {| batch_min_threads := 0; workers_to_wake := -1;
       stealable_jobs := false |}.

(** The body of the loop of lines 308-315: [threads[threads_created++]] is
    written, which is defined only inside the array. *)
Definition spawn_thread (handle : nat) (q : work_queue_t)
  : res work_queue_t :=
  let i := threads_created q in
  if (0 <=? i) && (i <? MAX_THREADS) then
    Ok {| jobs := jobs q; threads_created := i + 1;
          desired_threads_working := desired_threads_working q;
          a_team_size := a_team_size q + 1;
          target_a_team_size := target_a_team_size q;
          workers_sleeping := workers_sleeping q;
          owners_sleeping := owners_sleeping q;
          threads := <[Z.to_nat i := Some handle]> (threads q);
          shutdown := shutdown q; initialized := initialized q |}
  else Undefined (Threads_overflow i).

Definition spawn_more (min_threads : Z) (q : work_queue_t) : bool :=
  (threads_created q <? desired_threads_working q - 1)
  || (threads_created q <? min_threads - 1).

(** The loop of lines 308-315. [next_thread] is the handle that
    [halide_spawn_thread] returns next. The result is the queue and the
    number of threads spawned. *)
Fixpoint spawn_threads (fuel : nat) (min_threads : Z) (next_thread : nat)
    (q : work_queue_t) : res (work_queue_t * nat) :=
  if spawn_more min_threads q then
    match fuel with
    | O => Ok (q, O)
    | S fuel' =>
        match spawn_thread next_thread q with
        | Undefined u => Undefined u
        | Ok q' =>
            match spawn_threads fuel' min_threads (S next_thread) q' with
            | Undefined u => Undefined u
            | Ok (q'', n) => Ok (q'', S n)
            end
        end
    end
  else Ok (q, O).

(** The number of passes after which the condition of that loop is false. *)
Definition spawn_fuel (min_threads : Z) (q : work_queue_t) : nat :=
  Z.to_nat (Z.max (desired_threads_working q - 1) (min_threads - 1)
            - threads_created q).

(** The loop of lines 327-333, [i] counting down from [num_jobs - 1]:
    [count] is [i + 1]. *)
Fixpoint push_jobs (jobs_ : ptr) (parent_id : ptr) (count : nat)
    (stack : list ptr) (mem : list work) : list ptr * list work :=
  match count with
  | O => (stack, mem)
  | S i =>
      push_jobs jobs_ parent_id i
        ((jobs_ + i)%nat :: stack)
        (alter (set_parent (Some parent_id)) (jobs_ + i)%nat mem)
  end.

(** Lines 335-357. *)
Definition wake_up_threads (b : batch) (p : pool) : pool :=
  let q := work_queue p in
  let nested_parallelism :=
    negb (owners_sleeping q =? 0)
    || (workers_sleeping q <? threads_created q) in
  let q' :=
    if nested_parallelism || (workers_to_wake b >? workers_sleeping q)
    then set_target_a_team_size (threads_created q) q
    else set_target_a_team_size (workers_to_wake b) q in
  let p1 := halide_cond_broadcast wake_a_team (set_work_queue q' p) in
  if target_a_team_size q' >? a_team_size q' then
    let p2 := halide_cond_broadcast wake_b_team p1 in
    if stealable_jobs b then halide_cond_broadcast wake_owners p2 else p2
  else p1.

(** [enqueue_work_already_locked (num_jobs, jobs)]. The Jobs are
    [memory[jobs_ .. jobs_ + num_jobs)]; [parent_id] is the address of the
    local of that name. The result is the pool and the number of worker
    threads spawned. *)
Definition enqueue_work_already_locked (env : environment)
    (next_thread : nat) (parent_id : ptr) (num_jobs : nat) (jobs_ : ptr)
    (p : pool) : res (pool * nat) :=
  let q0 := lazy_initialize env (work_queue p) in
  let b := gather (take num_jobs (drop jobs_ (memory p))) in
  match spawn_threads (spawn_fuel (batch_min_threads b) q0)
          (batch_min_threads b) next_thread q0 with
  | Undefined u => Undefined u
  | Ok (q1, spawned) =>
      let pushed := push_jobs jobs_ parent_id num_jobs (jobs q1) (memory p) in
      let p1 := set_memory (snd pushed)
                  (set_work_queue (set_jobs (fst pushed) q1) p) in
      Ok (wake_up_threads b p1, spawned)
  end.

(** ** Calls into the pool *)

(** The function that called [worker_thread_already_locked], with the locals
    it needs when that returns. *)
Inductive caller :=
| Worker_thread
| Par_for (job : ptr)
| Parallel_tasks (jobs_ : ptr) (num_tasks : nat) (i : nat) (exit_status_ : Z).

(** One activation of the dispatch loop on the stack of a thread. *)
Record frame := {
  who : caller;
  doing : activity
}.

(** The argument [owned_job] that the caller passed. *)
Definition owned_job (c : caller) : option ptr :=
  match c with
  | Worker_thread => None
  | Par_for job => Some job
  | Parallel_tasks jobs_ _ i _ => Some (jobs_ + i)%nat
  end.

Definition exit_status_at (j : ptr) (p : pool) : Z :=
  match memory p !! j with
  | Some job => exit_status job
  | None => 0
  end.

(** The join loop of lines 432-440, entered at the top of the dispatch loop
    for [jobs[i]]; [todo] is [num_tasks - i]. It runs until the thread gives
    up the mutex ([inl]) or the loop is over ([inr exit_status]). *)
Fixpoint join_tasks (jobs_ : ptr) (num_tasks : nat) (todo : nat) (i : nat)
    (exit_status_ : Z) (p : pool) : pool * (frame + Z) :=
  match todo with
  | O => (p, inr exit_status_)
  | S todo' =>
      let r := worker_thread_already_locked (Some (jobs_ + i)%nat) p in
      match snd r with
      | Some a =>
          (fst r,
           inl {| who := Parallel_tasks jobs_ num_tasks i exit_status_;
                  doing := a |})
      | None =>
          let e := exit_status_at (jobs_ + i)%nat (fst r) in
          join_tasks jobs_ num_tasks todo' (S i)
            (if negb (e =? 0) then e else exit_status_) (fst r)
      end
  end.

(** A thread holds the mutex at the top of the dispatch loop that [c]
    called: run on until the thread gives up the mutex ([inl], the frame it
    is then in) or [c] returns ([inr], its result). A worker thread that
    returns has [Exited]. *)
Definition resume (c : caller) (p : pool) : pool * (frame + Z) :=
  match c with
  | Worker_thread =>
      let r := worker_thread_already_locked None p in
      (fst r,
       inl {| who := Worker_thread;
              doing := match snd r with Some a => a | None => Exited end |})
  | Par_for job =>
      let r := worker_thread_already_locked (Some job) p in
      match snd r with
      | Some a => (fst r, inl {| who := Par_for job; doing := a |})
      | None => (fst r, inr (exit_status_at job (fst r)))
      end
  | Parallel_tasks jobs_ num_tasks i exit_status_ =>
      join_tasks jobs_ num_tasks (num_tasks - i) i exit_status_ p
  end.

(** How far a call of an entry point gets before the calling thread first
    gives up the mutex: it returned without submitting anything, or it
    submitted the Jobs [js] (as it built them) and then, as the caller [c]
    of the dispatch loop, either gave up the mutex inside that loop ([inl],
    the frame it is in) or returned ([inr], its result). *)
Inductive outcome :=
| Nothing_to_do (v : Z)
| Submitted (c : caller) (js : list work) (r : frame + Z).

(** The Job that [halide_default_do_par_for] builds (lines 382-398). *)
Definition par_for_job (user_context_ : nat) (f : option nat)
    (min_ size : Z) (closure_ : nat) : work :=
  {| task := {| fn := None; min := min_; extent := size;
                may_block := false; serial := false; semaphores := [];
                closure := closure_; min_threads := 1; name := None |};
     task_fn := f; parent := None; user_context := user_context_;
     exit_status := 0; active_workers := 0; next_semaphore := 0;
     owner_is_sleeping := false |}.

(** [halide_default_do_par_for], up to the point where the calling thread
    first gives up the mutex or to its return. The Job is placed at the next
    free address, and that address also stands for the address of the local
    [parent_id] of this call of the enqueue protocol. The result also counts
    the worker threads spawned. *)
Definition halide_default_do_par_for (env : environment) (next_thread : nat)
    (user_context_ : nat) (f : option nat) (min_ size : Z) (closure_ : nat)
    (p : pool) : res (pool * nat * outcome) :=
  if size <=? 0 then Ok (p, O, Nothing_to_do 0)
  else
    let job := length (memory p) in
    let js := [par_for_job user_context_ f min_ size closure_] in
    let p1 := set_memory (memory p ++ js) p in
    match enqueue_work_already_locked env next_thread job 1 job p1 with
    | Undefined u => Undefined u
    | Ok (p2, spawned) =>
        let r := resume (Par_for job) p2 in
        Ok (fst r, spawned, Submitted (Par_for job) js (snd r))
    end.

(** What the loop of lines 410-423 writes into [jobs[i]]. *)
Definition new_job (user_context_ : nat) (t : halide_parallel_task_t)
  : work :=
  {| task := t; task_fn := None; parent := None;
     user_context := user_context_; exit_status := 0; active_workers := 0;
     next_semaphore := 0; owner_is_sleeping := false |}.

(** The loop of lines 410-423. [tasks] is the cursor of that name (what is
    left of the array from where it points); [jobs_] is the scratch array, a
    slot being [None] until it is written. On a skipped task the loop
    decrements [num_tasks] and continues, which increments [i] and leaves
    the cursor where it is. *)
Fixpoint copy_tasks (fuel : nat) (user_context_ : nat) (i num_tasks : Z)
    (tasks : list halide_parallel_task_t) (jobs_ : list (option work))
  : Z * list (option work) :=
  if i <? num_tasks then
    match fuel, tasks with
    | S fuel', t :: rest =>
        if extent t <=? 0
        then copy_tasks fuel' user_context_ (i + 1) (num_tasks - 1) tasks jobs_
        else copy_tasks fuel' user_context_ (i + 1) num_tasks rest
               (<[Z.to_nat i := Some (new_job user_context_ t)]> jobs_)
    | _, _ => (num_tasks, jobs_)
    end
  else (num_tasks, jobs_).

(** Reading [jobs[i .. i + length slots)], as the enqueue protocol does. *)
Fixpoint read_jobs (i : nat) (slots : list (option work)) : res (list work) :=
  match slots with
  | [] => Ok []
  | None :: _ => Undefined (Uninitialised_job i)
  | Some job :: rest =>
      match read_jobs (S i) rest with
      | Ok js => Ok (job :: js)
      | Undefined u => Undefined u
      end
  end.

(** [halide_default_do_parallel_tasks], up to the point where the calling
    thread first gives up the mutex or to its return. The Jobs that are
    submitted are placed at the next free addresses. *)
Definition halide_default_do_parallel_tasks (env : environment)
    (next_thread : nat) (user_context_ : nat)
    (tasks : list halide_parallel_task_t) (p : pool)
  : res (pool * nat * outcome) :=
  let n := length tasks in
  let copied := copy_tasks n user_context_ 0 (Z.of_nat n) tasks
                  (replicate n None) in
  let num_tasks := fst copied in
  if num_tasks =? 0 then Ok (p, O, Nothing_to_do 0)
  else
    match read_jobs 0 (take (Z.to_nat num_tasks) (snd copied)) with
    | Undefined u => Undefined u
    | Ok js =>
        let jobs_ := length (memory p) in
        let p1 := set_memory (memory p ++ js) p in
        match enqueue_work_already_locked env next_thread jobs_ (length js)
                jobs_ p1 with
        | Undefined u => Undefined u
        | Ok (p2, spawned) =>
            let r := join_tasks jobs_ (length js) (length js) 0 0 p2 in
            Ok (fst r, spawned,
                Submitted (Parallel_tasks jobs_ (length js) 0 0) js (snd r))
        end
    end.

(** [halide_set_num_threads]: the pool, the result, and whether
    [halide_error] was called. *)
Definition halide_set_num_threads (env : environment) (n : Z) (p : pool)
  : pool * Z * bool :=
  let n' := if n =? 0 then default_desired_num_threads env else n in
  let old := desired_threads_working (work_queue p) in
  (set_work_queue
     (set_desired_threads_working (clamp_num_threads n') (work_queue p)) p,
   old, n <? 0).

(** [halide_shutdown_thread_pool], lines 466-472: the flag and the three
    broadcasts. *)
Definition shutdown_begin (p : pool) : pool :=
  halide_cond_broadcast wake_owners
    (halide_cond_broadcast wake_b_team
       (halide_cond_broadcast wake_a_team
          (set_work_queue (set_shutdown true (work_queue p)) p))).

(** [halide_shutdown_thread_pool], lines 474-484, once the workers have been
    joined. *)
Definition shutdown_end (p : pool) : pool :=
  set_work_queue (set_initialized false (work_queue p)) p.

(** ** The threads of the program *)

(** What the pool does and is asked to do, in the order in which it
    happens. [Par_for_called job m n]: a call of the parallel for has built
    and submitted [job] for [m, m + n). [Tasks_called jobs_ ts]: a call of
    the parallel tasks has copied the descriptors [ts] into the Jobs at
    [jobs_] and submitted them. [Dispatched job m n]: [halide_do_task] or
    [halide_do_loop_task] is called for the iterations [m, m + n) of [job].
    [Completed job n r]: such a call, for [n] iterations, returned [r]. *)
Inductive event :=
| Par_for_called (job : ptr) (min_ size : Z)
| Tasks_called (jobs_ : ptr) (tasks : list halide_parallel_task_t)
| Dispatched (job : ptr) (min_ iters : Z)
| Completed (job : ptr) (iters result : Z)
| Par_for_returned (job : ptr) (v : Z)
| Tasks_returned (jobs_ : ptr) (num_tasks : nat) (v : Z).

(** The whole system: the pool, the call stack of every thread (the
    activations of the dispatch loop it is inside of, innermost first; the
    code of the application and of the task bodies is not represented), the
    events so far, and the environment. *)
Record state := {
  shared : pool;
  stacks : list (list frame);
  trace : list event;
  environ : environment
}.

(** A thread runs application code: it has not entered the pool, or it is
    inside a task body. *)
Definition in_user_code (stack : list frame) : bool :=
  match stack with
  | [] => true
  | fr :: _ =>
      match doing fr with
      | Do_task _ _ | Serial_body _ _ => true
      | _ => false
      end
  end.

Definition new_worker : list frame :=
  [{| who := Worker_thread; doing := Starting |}].

Definition dispatch_events (fr : frame) : list event :=
  match doing fr with
  | Do_task job myjob => [Dispatched job (min (task myjob)) 1]
  | _ => []
  end.

Definition return_events (c : caller) (v : Z) : list event :=
  match c with
  | Worker_thread => []
  | Par_for job => [Par_for_returned job v]
  | Parallel_tasks jobs_ num_tasks _ _ => [Tasks_returned jobs_ num_tasks v]
  end.

(** The state after thread [t], whose stack below the call [c] is [below],
    has run [c] up to [r]. *)
Definition settle (t : nat) (below : list frame) (c : caller)
    (p : pool) (spawned : nat) (r : frame + Z) (events : list event)
    (s : state) : state :=
  {| shared := p;
     stacks :=
       <[t := match r with inl fr => fr :: below | inr _ => below end]>
         (stacks s)
       ++ replicate spawned new_worker;
     trace :=
       trace s ++ events
       ++ match r with
          | inl fr => dispatch_events fr
          | inr v => return_events c v
          end;
     environ := environ s |}.

Definition all_workers_exited (stacks_ : list (list frame)) : bool :=
  forallb
    (forallb (fun fr =>
       match who fr, doing fr with
       | Worker_thread, Exited => true
       | Worker_thread, _ => false
       | _, _ => true
       end))
    stacks_.

(** The atomic steps of the system. *)
Inductive action :=
| New_thread
| Call_par_for (t : nat) (user_context_ : nat) (f : option nat)
    (min_ size : Z) (closure_ : nat)
| Call_parallel_tasks (t : nat) (user_context_ : nat)
    (tasks : list halide_parallel_task_t)
| Start (t : nat)
| Wake_up (t : nat)
| Task_returns (t : nat) (result : Z)
| Serial_step (t : nat)
| Set_num_threads (n : Z)
| Semaphore_init (s : ptr) (n : Z)
| Semaphore_release (s : ptr) (n : Z)
| Semaphore_try_acquire (s : ptr) (n : Z)
| Shutdown_begin
| Shutdown_join.

Definition with_shared (p : pool) (s : state) : state :=
  {| shared := p; stacks := stacks s; trace := trace s;
     environ := environ s |}.

(** The int fields of a task descriptor hold ints. *)
Definition in_int (x : Z) : bool := (INT_MIN <=? x) && (x <=? INT_MAX).

Definition int_task (t : halide_parallel_task_t) : bool :=
  in_int (min t) && in_int (extent t) && in_int (min_threads t).

(** Thread [t], whose stack is [stack], has called an entry point. The Jobs
    that a call submits are C objects built from the arguments of the call:
    the [min], [extent] and [min_threads] they hold are ints, and a call
    that would store anything else is no call of the program. *)
Definition enter (t : nat) (stack : list frame)
    (called : list work -> list event)
    (r : res (pool * nat * outcome)) (s : state) : option state :=
  match r with
  | Undefined _ => None
  | Ok (p, spawned, Nothing_to_do _) => Some (with_shared p s)
  | Ok (p, spawned, Submitted c js r) =>
      if forallb (fun w => int_task (task w)) js
      then Some (settle t stack c p spawned r (called js) s)
      else None
  end.

(** Thread [t], whose innermost frame is [fr], holds the mutex again at the
    top of its dispatch loop. *)
Definition go_on (t : nat) (fr : frame) (below : list frame) (p : pool)
    (events : list event) (s : state) : state :=
  let r := resume (who fr) p in
  settle t below (who fr) (fst r) O (snd r) events s.

(** Thread [t] stays in its innermost frame, now doing [a]. *)
Definition stay (t : nat) (fr : frame) (below : list frame)
    (r : pool * activity) (events : list event) (s : state) : state :=
  {| shared := fst r;
     stacks := <[t := {| who := who fr; doing := snd r |} :: below]> (stacks s);
     trace := trace s ++ events;
     environ := environ s |}.

Definition min_at (j : ptr) (p : pool) : Z :=
  match memory p !! j with
  | Some job => min (task job)
  | None => 0
  end.

Definition exec (a : action) (s : state) : option state :=
  let p := shared s in
  match a with
  | New_thread =>
      Some {| shared := p; stacks := stacks s ++ [[]]; trace := trace s;
              environ := environ s |}
  | Call_par_for t user_context_ f min_ size closure_ =>
      match stacks s !! t with
      | Some stack =>
          if in_user_code stack then
            enter t stack
              (fun _ => [Par_for_called (length (memory p)) min_ size])
              (halide_default_do_par_for (environ s) (length (stacks s))
                 user_context_ f min_ size closure_ p) s
          else None
      | None => None
      end
  | Call_parallel_tasks t user_context_ tasks =>
      match stacks s !! t with
      | Some stack =>
          if in_user_code stack then
            enter t stack
              (fun js => [Tasks_called (length (memory p)) (task <$> js)])
              (halide_default_do_parallel_tasks (environ s)
                 (length (stacks s)) user_context_ tasks p) s
          else None
      | None => None
      end
  | Start t =>
      match stacks s !! t with
      | Some (fr :: below) =>
          match doing fr with
          | Starting => Some (go_on t fr below p [] s)
          | _ => None
          end
      | _ => None
      end
  | Wake_up t =>
      match stacks s !! t with
      | Some (fr :: below) =>
          match doing fr with
          | Wait c =>
              Some (go_on t fr below (after_wait (owned_job (who fr)) c p)
                      [] s)
          | _ => None
          end
      | _ => None
      end
  | Task_returns t result =>
      match stacks s !! t with
      | Some (fr :: below) =>
          match doing fr with
          | Do_task job myjob =>
              Some (go_on t fr below (finish_task job result p)
                      [Completed job 1 result] s)
          | Serial_body job iters =>
              Some (stay t fr below (serial_body_return job iters result p)
                      [Completed job iters result] s)
          | _ => None
          end
      | _ => None
      end
  | Serial_step t =>
      match stacks s !! t with
      | Some (fr :: below) =>
          match doing fr with
          | Serial_claim job iters =>
              let r := serial_claim_step job iters p in
              Some (stay t fr below r
                      match snd r with
                      | Serial_body _ n => [Dispatched job (min_at job p) n]
                      | _ => []
                      end s)
          | Serial_done job result =>
              Some (go_on t fr below
                      (finish_task job result (serial_put_back job p)) [] s)
          | _ => None
          end
      | _ => None
      end
  | Set_num_threads n =>
      Some (with_shared (fst (fst (halide_set_num_threads (environ s) n p))) s)
  | Semaphore_init sem n =>
      Some (with_shared
              (set_semaphore_values
                 (<[sem := halide_default_semaphore_init n]>
                    (semaphore_values p)) p) s)
  | Semaphore_release sem n =>
      let r := halide_default_semaphore_release (semaphore_values p sem) n in
      let p1 := set_semaphore_values (<[sem := fst r]> (semaphore_values p)) p in
      Some (with_shared
              (if snd r
               then halide_cond_broadcast wake_owners
                      (halide_cond_broadcast wake_a_team p1)
               else p1) s)
  | Semaphore_try_acquire sem n =>
      let r := halide_default_semaphore_try_acquire (semaphore_values p sem) n in
      Some (with_shared
              (set_semaphore_values (<[sem := fst r]> (semaphore_values p)) p)
              s)
  | Shutdown_begin =>
      if initialized (work_queue p)
      then Some (with_shared (shutdown_begin p) s)
      else None
  | Shutdown_join =>
      if initialized (work_queue p) && shutdown (work_queue p)
         && all_workers_exited (stacks s)
      then Some (with_shared (shutdown_end p) s)
      else None
  end.

(** A run of the system. *)
Fixpoint run (acts : list action) (s : state) : option state :=
  match acts with
  | [] => Some s
  | a :: acts' =>
      match exec a s with
      | Some s' => run acts' s'
      | None => None
      end
  end.

(** Program start: the zero-initialised queue, no Job, one thread that has
    not entered the pool. The semaphores hold whatever the memory holds. *)
Definition initial (env : environment) (σ : semaphore_store) : state :=
  {| shared := {| work_queue := work_queue_zero; memory := [];
                  semaphore_values := σ; broadcasts := [] |};
     stacks := [[]];
     trace := [];
     environ := env |}.

Definition reachable (s : state) : Prop :=
  exists env σ acts, run acts (initial env σ) = Some s.

(** * The vocabulary of the properties *)

(** ** Semaphores held by a Job *)

(** Taking [count a] from the semaphore of [a], in int arithmetic. *)
Definition decrease (σ : semaphore_store) (a : halide_semaphore_acquire_t)
  : semaphore_store :=
  <[semaphore a := wrap (σ (semaphore a) - count a)]> σ.

(** The semaphores once the preconditions [l] have been acquired, in order,
    and none given back. *)
Definition held (l : list halide_semaphore_acquire_t) (σ : semaphore_store)
  : semaphore_store :=
  fold_left decrease l σ.

(** The acquisition of [a] would succeed. *)
Definition available (σ : semaphore_store) (a : halide_semaphore_acquire_t)
  : bool :=
  snd (halide_default_semaphore_try_acquire (σ (semaphore a)) (count a)).

Definition all_ints (σ : semaphore_store) : Prop := forall s, is_int (σ s).

(** ** Activities and Jobs *)

(** The job that a thread is executing, if any. *)
Definition on_job (a : activity) : option ptr :=
  match a with
  | Do_task job _ | Serial_claim job _ | Serial_body job _
  | Serial_done job _ => Some job
  | _ => None
  end.

(** A Job with its field [next_semaphore] masked: what [make_runnable]
    leaves alone. *)
Definition but_next_semaphore (w : work) : work := set_next_semaphore 0 w.

(** ** Inputs of the examples *)

(** A parallel task over [0, extent_). *)
Definition example_task (extent_ min_threads_ : Z) (may_block_ : bool)
  : halide_parallel_task_t :=
  {| fn := Some O; closure := O; name := None; semaphores := [];
     min := 0; extent := extent_; min_threads := min_threads_;
     serial := false; may_block := may_block_ |}.

Definition one_thread : environment :=
  {| HL_NUM_THREADS := Some 1; HL_NUMTHREADS := None;
     halide_host_cpu_count := 1 |}.

Definition pool_zero : pool :=
  {| work_queue := work_queue_zero; memory := [];
     semaphore_values := fun _ => 0; broadcasts := [] |}.

(** A serial task over [0, extent_). *)
Definition example_serial_task (extent_ : Z) : halide_parallel_task_t :=
  {| fn := Some O; closure := O; name := None; semaphores := [];
     min := 0; extent := extent_; min_threads := 1;
     serial := true; may_block := false |}.

(** A Job that needs two units of semaphore 0. *)
Definition example_waiting_job : work :=
  new_job O
    {| fn := Some O; closure := O; name := None;
       semaphores := [ {| semaphore := O; count := 1 |};
                       {| semaphore := O; count := 1 |} ];
       min := 0; extent := 1; min_threads := 1;
       serial := false; may_block := false |}.

Definition two_cores : environment :=
  {| HL_NUM_THREADS := None; HL_NUMTHREADS := None;
     halide_host_cpu_count := 2 |}.

(** The state after the steps [acts] from program start, on a machine with
    two cores and every semaphore at 0. *)
Definition after (acts : list action) : state :=
  default (initial two_cores (fun _ => 0))
    (run acts (initial two_cores (fun _ => 0))).

(** A parallel for over [10, 12): the caller takes index 10 and the worker
    that the call spawned takes index 11; the first body returns 0, the
    second one 5; the caller wakes up and returns. *)
Definition par_for_run : list action :=
  [Call_par_for 0 7 (Some O) 10 2 3; Start 1; Task_returns 0 0;
   Task_returns 1 5; Wake_up 0].

(** The pool when the worker of [par_for_run] starts. *)
Definition example_pool : pool :=
  shared (after [Call_par_for 0 7 (Some O) 10 2 3]).

(** The Job of [par_for_run], after the run. *)
Definition example_finished_job : work :=
  default (par_for_job O None 0 0 O)
    (memory (shared (after par_for_run)) !! O).

(** Two parallel tasks, a serial one over [0, 2) and one over [0, 1). *)
Definition example_tasks : list halide_parallel_task_t :=
  [example_serial_task 2; example_task 1 1 false].





(** ** The invariant of the system *)

(** The part of a Job that the invariant is about. *)
Record core := {
  c_min : Z;
  c_extent : Z;
  c_serial : bool;
  c_active : Z;
  c_exit : Z
}.

Definition core_of (w : work) : core :=
  {| c_min := min (task w); c_extent := extent (task w);
     c_serial := serial (task w); c_active := active_workers w;
     c_exit := exit_status w |}.

Definition cores (p : pool) : list core := core_of <$> memory p.

(** A Job is finished when [running] is false. *)
Definition finished (c : core) : Prop := c_extent c = 0 /\ c_active c = 0.

(** [if (result) exit_status = result], and its iteration over the statuses
    of a list of calls, starting from 0. *)
Definition record_status (acc r : Z) : Z := if r =? 0 then acc else r.

Definition last_nonzero (l : list Z) : Z := fold_left record_status l 0.

(** The statuses returned by the task bodies of Job [j], in order. *)
Definition results (j : ptr) (tr : list event) : list Z :=
  flat_map (fun e => match e with
                     | Completed j' _ r => if decide (j' = j) then [r] else []
                     | _ => []
                     end) tr.

(** The iteration indices of Job [j] that were handed to a task body, in
    order. *)
Definition indices (j : ptr) (tr : list event) : list Z :=
  flat_map (fun e => match e with
                     | Dispatched j' m n => if decide (j' = j) then seqZ m n else []
                     | _ => []
                     end) tr.

(** The number of iterations of Job [j] whose task body has returned. *)
Definition completed_iters (j : ptr) (tr : list event) : Z :=
  foldr Z.add 0
    (flat_map (fun e => match e with
                        | Completed j' n _ => if decide (j' = j) then [n] else []
                        | _ => []
                        end) tr).

(** The descriptors the Jobs were built from, in the order of their
    addresses. *)
Definition born (tr : list event) : list halide_parallel_task_t :=
  flat_map (fun e => match e with
                     | Par_for_called _ m n => [task (par_for_job O None m n O)]
                     | Tasks_called _ ts => ts
                     | _ => []
                     end) tr.

(** Every submission is recorded with the address its Jobs were given. *)
Fixpoint numbered (n : nat) (tr : list event) : Prop :=
  match tr with
  | [] => True
  | e :: tr' =>
      match e with
      | Par_for_called j _ _ => j = n
      | Tasks_called j _ => j = n
      | _ => True
      end
      /\ numbered (n + length (born [e])) tr'
  end.

(** The number of activations that are executing Job [j]. *)
Definition cnt (j : ptr) (fs : list frame) : nat :=
  length (filter (fun fr => on_job (doing fr) = Some j) fs).

(** The non-zero statuses of Job [j] that a thread has left the serial loop
    with and not yet recorded. *)
Definition pend (j : ptr) (fs : list frame) : list Z :=
  omap (fun fr => match doing fr with
                  | Serial_done j' r =>
                      if decide (j' = j) then
                        if r =? 0 then None else Some r
                      else None
                  | _ => None
                  end) fs.

Definition job_ok (c : core) (t0 : halide_parallel_task_t) (n : nat)
    (ps rs : list Z) (is_ : list Z) (d : Z) : Prop :=
  c_active c = Z.of_nat n
  /\ c_serial c = serial t0
  /\ (ps = [] -> c_exit c = last_nonzero rs)
  /\ (forall r, r ∈ ps ->
        exists rs', rs = rs' ++ [r] /\ c_exit c = last_nonzero rs')
  /\ (c_serial c = false ->
        0 <= c_extent c <= extent t0
        /\ c_min c = wrap (min t0 + (extent t0 - c_extent c))
        /\ is_ = wrap <$> seqZ (min t0) (extent t0 - c_extent c))
  /\ (c_serial c = true -> (n <= 1)%nat)
  /\ d = extent t0 - c_extent c - (if c_serial c then 0 else c_active c).

Definition queue_ok (cs : list core) (fs : list frame) (j : ptr) : Prop :=
  exists c, cs !! j = Some c /\ 0 < c_extent c
            /\ (c_serial c = true -> cnt j fs = O).

Definition doing_ok (cs : list core) (a : activity) : Prop :=
  match on_job a with
  | Some j =>
      exists c, cs !! j = Some c
                /\ c_serial c = match a with Do_task _ _ => false | _ => true end
  | None => True
  end.

Definition finished_at (cs : list core) (j : ptr) : Prop :=
  exists c, cs !! j = Some c /\ finished c.

Definition exit_at (cs : list core) (j : ptr) : Z :=
  match cs !! j with
  | Some c => c_exit c
  | None => 0
  end.

(** The exit statuses of the Jobs [jobs_[0 .. n)]. *)
Definition exits (cs : list core) (jobs_ : ptr) (n : nat) : list Z :=
  (fun k => exit_at cs (jobs_ + k)%nat) <$> seq 0 n.

Definition caller_ok (cs : list core) (c : caller) : Prop :=
  match c with
  | Worker_thread => True
  | Par_for j => (j < length cs)%nat
  | Parallel_tasks jobs_ n i acc =>
      (i <= n)%nat /\ (jobs_ + n <= length cs)%nat
      /\ (forall k, (k < i)%nat -> finished_at cs (jobs_ + k)%nat)
      /\ acc = last_nonzero (exits cs jobs_ i)
  end.

Definition frame_ok (cs : list core) (fr : frame) : Prop :=
  caller_ok cs (who fr) /\ doing_ok cs (doing fr).

Definition return_ok (cs : list core) (e : event) : Prop :=
  match e with
  | Par_for_returned j v =>
      exists c, cs !! j = Some c /\ finished c /\ c_exit c = v
  | Tasks_returned jobs_ n v =>
      (jobs_ + n <= length cs)%nat
      /\ (forall k, (k < n)%nat -> finished_at cs (jobs_ + k)%nat)
      /\ v = last_nonzero (exits cs jobs_ n)
  | _ => True
  end.

(** The invariant, over the Jobs [cs], the job stack [qs], all activations
    [fs] and the events [tr]. *)
Record PI (cs : list core) (qs : list ptr) (fs : list frame)
    (tr : list event) : Prop := {
  pi_born : length (born tr) = length cs;
  pi_numbered : numbered 0 tr;
  pi_fresh : forall j, (length cs <= j)%nat ->
               results j tr = [] /\ indices j tr = []
               /\ completed_iters j tr = 0;
  pi_jobs : forall j c t0, cs !! j = Some c -> born tr !! j = Some t0 ->
              job_ok c t0 (cnt j fs) (pend j fs) (results j tr)
                (indices j tr) (completed_iters j tr);
  pi_nodup : NoDup qs;
  pi_queue : forall j, j ∈ qs -> queue_ok cs fs j;
  pi_frames : Forall (frame_ok cs) fs;
  pi_returns : Forall (return_ok cs) tr
}.

(** A submission is recorded: the enqueue protocol has run. *)
Definition is_call (e : event) : bool :=
  match e with
  | Par_for_called _ _ _ | Tasks_called _ _ => true
  | _ => false
  end.

Definition enqueued (tr : list event) : bool := existsb is_call tr.

Definition desired_ok (s : state) : Prop :=
  let q := work_queue (shared s) in
  (initialized q = true \/ enqueued (trace s) = true) ->
  1 <= desired_threads_working q <= MAX_THREADS.

(** The [extent] of every Job is an int. *)
Definition extents_ok (cs : list core) : Prop :=
  Forall (fun c => is_int (c_extent c)) cs.

(** The iterations that a thread inside the serial loop of a Job has
    claimed (line 189) are iterations that the Job has. *)
Definition iters_ok (cs : list core) (fr : frame) : Prop :=
  match doing fr with
  | Serial_claim j i | Serial_body j i =>
      exists c, cs !! j = Some c /\ 0 <= i <= c_extent c
  | _ => True
  end.

(** A descriptor as a submitted Job has it: it holds ints and has
    something to do. *)
Definition int_called (t : halide_parallel_task_t) : Prop :=
  int_task t = true /\ 0 < extent t.

(** The [extent] of every Job is an int, the threads inside a serial loop
    have claimed iterations that are there, and the descriptors that the
    Jobs were built from hold ints. With this the decrements of [extent]
    never wrap around. *)
Definition ints_ok (s : state) : Prop :=
  extents_ok (cores (shared s))
  /\ Forall (iters_ok (cores (shared s))) (concat (stacks s))
  /\ Forall int_called (born (trace s)).

(** The invariant of the states of the system. *)
Definition Inv (s : state) : Prop :=
  PI (cores (shared s)) (jobs (work_queue (shared s))) (concat (stacks s))
     (trace s)
  /\ desired_ok s
  /\ ints_ok s.

(** ** The moves of the Jobs *)

(** Whether the activation [fr] is executing Job [j]. *)
Definition cnt1 (j : ptr) (fr : frame) : nat :=
  if decide (on_job (doing fr) = Some j) then 1%nat else O.

(** Jobs are never removed, keep their [serial] flag, and a finished Job
    does not change any more. *)
Definition evolve (cs cs' : list core) : Prop :=
  (length cs <= length cs')%nat
  /\ forall j c, cs !! j = Some c ->
       exists c', cs' !! j = Some c' /\ c_serial c' = c_serial c
                  /\ (finished c -> c' = c).

(** A parallel claim; a thread entering a serial Job; a thread leaving a
    Job with status [r]; a serial Job after a body of [n] iterations. The
    new [min] is the int that the code stores. The new [extent] is written
    without [wrap]: the extents of the Jobs of a run are ints and a claim
    or a batch takes no more than is left ([extents_ok], [iters_ok]), so
    that the int the code stores is the difference itself. *)
Definition claimed (c : core) : core :=
  {| c_min := wrap (c_min c + 1); c_extent := c_extent c - 1;
     c_serial := c_serial c; c_active := c_active c + 1;
     c_exit := c_exit c |}.

Definition entered (c : core) : core :=
  {| c_min := c_min c; c_extent := c_extent c;
     c_serial := c_serial c; c_active := c_active c + 1;
     c_exit := c_exit c |}.

Definition left_ (r : Z) (c : core) : core :=
  {| c_min := c_min c; c_extent := c_extent c;
     c_serial := c_serial c; c_active := c_active c - 1;
     c_exit := record_status (c_exit c) r |}.

Definition advanced (n : Z) (c : core) : core :=
  {| c_min := wrap (c_min c + n); c_extent := c_extent c - n;
     c_serial := c_serial c; c_active := c_active c;
     c_exit := c_exit c |}.

(** New Jobs are built and pushed on the stack (the entry points and lines
    326-333). *)
Definition fresh_job (c : core) (t : halide_parallel_task_t) : Prop :=
  c_active c = 0 /\ c_exit c = 0 /\ c_serial c = serial t
  /\ c_extent c = extent t /\ c_min c = min t /\ 0 < extent t
  /\ is_int (min t).

(** What the dispatch loop never touches in the queue. *)
Definition settings (q : work_queue_t) : Z * bool :=
  (desired_threads_working q, initialized q).

(** A Job as the copy loop writes it. *)
Definition built (uc : nat) (w : work) : Prop :=
  exists t, w = new_job uc t /\ 0 < extent t.

(** The invariant, of a state. *)
Definition PI_state (s : state) : Prop :=
  PI (cores (shared s)) (jobs (work_queue (shared s))) (concat (stacks s))
     (trace s).

(** ** Exit statuses *)

(** The exit statuses of the Jobs, by address. *)
Definition statuses (p : pool) : list Z := exit_status <$> memory p.

(** From [l] to [l'] no Job is lost, and an exit status is kept or replaced
    by a non-zero one. *)
Definition exit_mono (l l' : list Z) : Prop :=
  forall j e, l !! j = Some e ->
    exists e', l' !! j = Some e' /\ (e' = e \/ e' <> 0).

(** ** The desired number of threads *)

Definition in_range (q : work_queue_t) : Prop :=
  1 <= desired_threads_working q <= MAX_THREADS.

(** ** The groups of the parallel tasks *)






(** ** Vocabulary of the further properties *)

(** Job [j] was built from the descriptor [t0]: by a call of the parallel
    for, or as one of the Jobs of a call of the parallel tasks. *)
Definition built_from (tr : list event) (j : ptr)
    (t0 : halide_parallel_task_t) : Prop :=
  (exists m n, Par_for_called j m n ∈ tr
               /\ t0 = task (par_for_job O None m n O))
  \/ (exists jobs_ ts k, Tasks_called jobs_ ts ∈ tr
                         /\ ts !! k = Some t0 /\ j = (jobs_ + k)%nat).




(** The activations of the dispatch loop that [worker_thread] called (with
    no owned Job; every thread of the pool has exactly one, at the bottom
    of its stack), by what they do: blocked in the [halide_cond_wait] of
    line 160 or 164, blocked in that of line 160 (the B team), and not yet
    returned to [worker_thread]. Each is 1 for a frame that counts and 0
    for the others. A thread of the pool that waits as the owner of a Job
    that it submitted from inside a task body is blocked in the
    [halide_cond_wait] of line 151: that is an activation of another
    caller, which counts in [owners_sleeping] and not here. *)
Definition sleeps (fr : frame) : Z :=
  match who fr, doing fr with
  | Worker_thread, Wait _ => 1
  | _, _ => 0
  end.

Definition sleeps_b (fr : frame) : Z :=
  match who fr, doing fr with
  | Worker_thread, Wait wake_b_team => 1
  | _, _ => 0
  end.

Definition lives (fr : frame) : Z :=
  match who fr, doing fr with
  | Worker_thread, Exited => 0
  | Worker_thread, _ => 1
  | _, _ => 0
  end.

Definition total (f : frame -> Z) (fs : list frame) : Z :=
  foldr (fun fr n => f fr + n) 0 fs.

(** The books of the queue about its worker threads [fs]. *)
Record workers_ok (q : work_queue_t) (fs : list frame) : Prop := {
  wo_sleeping : workers_sleeping q = total sleeps fs;
  wo_a_team : a_team_size q + total sleeps_b fs = threads_created q;
  wo_created : 0 <= threads_created q;
  wo_lives : total lives fs <= threads_created q;
  wo_fresh : initialized q = false -> total lives fs = 0
}.

(** What the books are about, in a queue. *)
Definition books (q : work_queue_t) : Z * Z * Z * bool :=
  (workers_sleeping q, a_team_size q, threads_created q, initialized q).

(** The books are right in the state [s]. *)
Definition workers_state (s : state) : Prop :=
  workers_ok (work_queue (shared s)) (concat (stacks s)).

(** From [cs] to [cs'] every finished Job is as it was. *)
Definition kept (cs cs' : list core) : Prop :=
  forall j c, cs !! j = Some c -> finished c -> cs' !! j = Some c.

(** Every Job of the stack [qs] has iterations left. *)
Definition stack_live (cs : list core) (qs : list ptr) : Prop :=
  forall j, j ∈ qs -> exists c, cs !! j = Some c /\ 0 < c_extent c.




(** The number of threads that have an activation on Job [j]. *)
Definition threads_on (j : ptr) (stacks_ : list (list frame)) : nat :=
  length (List.filter (fun st => negb (cnt j st =? 0)%nat) stacks_).

(** The pool with its [shutdown] flag set to [b]. *)
Definition with_shutdown (b : bool) (p : pool) : pool :=
  set_work_queue (set_shutdown b (work_queue p)) p.


(** A run that is under way: the caller and a worker are each in the body
    of one of the two iterations of a parallel for. *)
Definition working_run : list action :=
  [Call_par_for 0 7 (Some O) 10 2 3; Start 1].

(** A run in which a worker has found nothing to do and sleeps: the caller
    is in the body of the only iteration. *)
Definition sleeping_run : list action :=
  [Call_par_for 0 7 (Some O) 10 1 3; Start 1].

(** * Properties *)

(** ** Semaphores *)

Lemma wrap_is_int (x : Z) : is_int (wrap x).
Proof.
  unfold is_int, wrap, INT_MIN, INT_MAX.
  pose proof (Z.mod_pos_bound (x + 2 ^ 31) (2 ^ 32)). lia.
Qed.

Lemma wrap_of_int (x : Z) : is_int x -> wrap x = x.
Proof.
  unfold is_int, wrap, INT_MIN, INT_MAX. intros H.
  rewrite Z.mod_small by lia. lia.
Qed.

Lemma wrap_add_l (x y : Z) : wrap (wrap x + y) = wrap (x + y).
Proof.
  unfold wrap.
  replace ((x + 2 ^ 31) mod 2 ^ 32 - 2 ^ 31 + y + 2 ^ 31)
    with ((x + 2 ^ 31) mod 2 ^ 32 + y) by lia.
  rewrite Zplus_mod_idemp_l. f_equal. f_equal. lia.
Qed.

Lemma wrap_add_r (x y : Z) : wrap (x + wrap y) = wrap (x + y).
Proof. rewrite (Z.add_comm x), wrap_add_l. f_equal. lia. Qed.

Lemma in_int_spec (x : Z) : in_int x = true <-> is_int x.
Proof. unfold in_int, is_int. rewrite andb_true_iff. lia. Qed.

Lemma int_task_spec (t : halide_parallel_task_t) :
  int_task t = true
  <-> is_int (min t) /\ is_int (extent t) /\ is_int (min_threads t).
Proof.
  unfold int_task. rewrite !andb_true_iff, !in_int_spec. tauto.
Qed.

Lemma forallb_Forall {A} (f : A -> bool) (l : list A) :
  forallb f l = true <-> Forall (fun x => f x = true) l.
Proof.
  induction l as [|x l IH]; cbn; [by split; [constructor|]|].
  rewrite andb_true_iff, list.Forall_cons, IH. done.
Qed.

Lemma wrap_inj (x y : Z) :
  wrap x = wrap y -> - 2 ^ 32 < x - y < 2 ^ 32 -> x = y.
Proof.
  unfold wrap. intros H Hd.
  pose proof (Z.div_mod (x + 2 ^ 31) (2 ^ 32) ltac:(lia)) as Hx.
  pose proof (Z.div_mod (y + 2 ^ 31) (2 ^ 32) ltac:(lia)) as Hy.
  lia.
Qed.

(** A range of ints is not changed by the reduction, and the reduction of a
    range of at most 2^32 integers has no duplicates. *)
Lemma fmap_wrap_seqZ (m n : Z) :
  is_int m -> m + n - 1 <= INT_MAX -> wrap <$> seqZ m n = seqZ m n.
Proof.
  intros Hm Hn. rewrite <- (list_fmap_id (seqZ m n)) at 2.
  apply list_fmap_ext. intros i x Hx. apply lookup_seqZ in Hx as [-> Hi].
  apply wrap_of_int. unfold is_int, INT_MIN, INT_MAX, id in *. lia.
Qed.

Lemma NoDup_wrap_seqZ (m n : Z) : n <= 2 ^ 32 -> NoDup (wrap <$> seqZ m n).
Proof.
  intros Hn. apply NoDup_fmap_2_strong; [|apply NoDup_seqZ].
  intros x y Hx Hy Heq. apply elem_of_seqZ in Hx, Hy.
  apply wrap_inj; [done|lia].
Qed.

(** What [halide_default_semaphore_try_acquire] computes, in one equation. *)
Lemma try_acquire_unfold (v n : Z) :
  is_int v ->
  halide_default_semaphore_try_acquire v n =
    if wrap (v - n) <? 0 then (v, false) else (wrap (v - n), true).
Proof.
  intros Hv. unfold halide_default_semaphore_try_acquire, sync_add_and_fetch.
  rewrite wrap_add_r. replace (v + - n) with (v - n) by lia.
  destruct (wrap (v - n) <? 0); [|done].
  rewrite wrap_add_l. replace (v - n + n) with v by lia.
  by rewrite wrap_of_int.
Qed.

(** C3. On a semaphore holding the int [v], [try_acquire n] either returns
    true and leaves [v - n] (the int the subtraction yields; it is the exact
    difference whenever that is representable), which is then not negative,
    or returns false and leaves [v]. *)
Theorem semaphore_try_acquire_spec (v n : Z) :
  is_int v ->
  let r := halide_default_semaphore_try_acquire v n in
  (snd r = true /\ fst r = wrap (v - n) /\ 0 <= fst r
   /\ (is_int (v - n) -> fst r = v - n))
  \/ (snd r = false /\ fst r = v).
Proof.
  intros Hv. cbn zeta. rewrite try_acquire_unfold by done.
  destruct (Z.ltb_spec (wrap (v - n)) 0); [right | left]; cbn; [done|].
  repeat split; [done|]. apply wrap_of_int.
Qed.

Lemma semaphore_try_acquire_spec_witness :
  is_int 3 /\
  ((snd (halide_default_semaphore_try_acquire 3 2) = true
    /\ fst (halide_default_semaphore_try_acquire 3 2) = wrap (3 - 2)
    /\ 0 <= fst (halide_default_semaphore_try_acquire 3 2)
    /\ (is_int (3 - 2) -> fst (halide_default_semaphore_try_acquire 3 2) = 3 - 2))
   \/ (snd (halide_default_semaphore_try_acquire 3 2) = false
       /\ fst (halide_default_semaphore_try_acquire 3 2) = 3)).
Proof.
  assert (H : is_int 3) by (unfold is_int, INT_MIN, INT_MAX; lia).
  split; [exact H | exact (semaphore_try_acquire_spec 3 2 H)].
Defined.

(** ** Job readiness *)

Lemma decrease_ints σ a : all_ints σ -> all_ints (decrease σ a).
Proof.
  intros H s. unfold decrease.
  destruct (decide (semaphore a = s)) as [->|Hne].
  - rewrite fn_lookup_insert. apply wrap_is_int.
  - rewrite fn_lookup_insert_ne by done. apply H.
Qed.

Lemma try_acquire_at_success σ a :
  all_ints σ -> available σ a = true ->
  snd (try_acquire_at σ a) = true
  /\ forall s, fst (try_acquire_at σ a) s = decrease σ a s.
Proof.
  unfold available, try_acquire_at, decrease. intros Hσ.
  rewrite try_acquire_unfold by apply Hσ.
  destruct (wrap (σ (semaphore a) - count a) <? 0); cbn; [done|].
  intros _. split; [done|]. intros s. done.
Qed.

Lemma try_acquire_at_failure σ a :
  all_ints σ -> available σ a = false ->
  snd (try_acquire_at σ a) = false
  /\ forall s, fst (try_acquire_at σ a) s = σ s.
Proof.
  unfold available, try_acquire_at. intros Hσ.
  rewrite try_acquire_unfold by apply Hσ.
  destruct (wrap (σ (semaphore a) - count a) <? 0); cbn; [|done].
  intros _. split; [done|]. intros s.
  destruct (decide (semaphore a = s)) as [->|Hne].
  - by rewrite fn_lookup_insert.
  - by rewrite fn_lookup_insert_ne.
Qed.

(** [make_runnable_from] only looks at the values of the semaphores. *)
Lemma make_runnable_from_ext todo : forall next σ1 σ2,
  (forall s, σ1 s = σ2 s) ->
  snd (make_runnable_from todo next σ1) = snd (make_runnable_from todo next σ2)
  /\ snd (fst (make_runnable_from todo next σ1))
     = snd (fst (make_runnable_from todo next σ2))
  /\ forall s, fst (fst (make_runnable_from todo next σ1)) s
               = fst (fst (make_runnable_from todo next σ2)) s.
Proof.
  induction todo as [|a todo IH]; intros next σ1 σ2 Heq; cbn; [done|].
  unfold try_acquire_at. cbn. rewrite (Heq (semaphore a)).
  set (r := halide_default_semaphore_try_acquire _ _).
  assert (Heq' : forall s, <[semaphore a := fst r]> σ1 s
                           = <[semaphore a := fst r]> σ2 s).
  { intros s. destruct (decide (semaphore a = s)) as [->|Hne].
    - by rewrite !fn_lookup_insert.
    - by rewrite !fn_lookup_insert_ne. }
  destruct (snd r); [by apply IH | done].
Qed.

Lemma make_runnable_from_spec todo : forall next σ,
  all_ints σ ->
  let r := make_runnable_from todo next σ in
  (snd r = true /\ snd (fst r) = 0
   /\ forall s, fst (fst r) s = held todo σ s)
  \/ (snd r = false
      /\ exists (k : nat) a,
           todo !! k = Some a
           /\ snd (fst r) = next + Z.of_nat k
           /\ available (held (take k todo) σ) a = false
           /\ forall s, fst (fst r) s = held (take k todo) σ s).
Proof.
  induction todo as [|a todo IH]; intros next σ Hσ; cbn zeta.
  - left. done.
  - cbn [make_runnable_from].
    destruct (available σ a) eqn:Hav.
    + destruct (try_acquire_at_success σ a Hσ Hav) as [Hok Hst].
      rewrite Hok.
      destruct (make_runnable_from_ext todo (next + 1) _ _ Hst)
        as (E1 & E2 & E3).
      rewrite E1, E2.
      destruct (IH (next + 1) (decrease σ a) (decrease_ints _ _ Hσ))
        as [(H1 & H2 & H3) | (H1 & k & b & Hk & H2 & H3 & H4)].
      * left. repeat split; [done..|]. intros s. by rewrite E3, H3.
      * right. split; [done|]. exists (S k), b. cbn.
        repeat split; [done | lia | done |].
        intros s. by rewrite E3, H4.
    + destruct (try_acquire_at_failure σ a Hσ Hav) as [Hno Hst].
      rewrite Hno. right. split; [done|]. exists O, a. cbn.
      repeat split; [f_equal; lia | done | done].
Qed.

(** Which preconditions were available: all of them when the loop returns
    true, and all before the one it stopped at, and not that one, when it
    returns false. *)
Lemma make_runnable_from_available todo : forall next σ,
  all_ints σ ->
  let r := make_runnable_from todo next σ in
  (snd r = true
   /\ forall k a, todo !! k = Some a ->
        available (held (take k todo) σ) a = true)
  \/ (snd r = false
      /\ exists (k : nat) a,
           todo !! k = Some a
           /\ snd (fst r) = next + Z.of_nat k
           /\ available (held (take k todo) σ) a = false
           /\ forall i b, (i < k)%nat -> todo !! i = Some b ->
                available (held (take i todo) σ) b = true).
Proof.
  induction todo as [|a todo IH]; intros next σ Hσ; cbn zeta.
  - left. split; [done|]. intros k a Hk. by rewrite lookup_nil in Hk.
  - cbn [make_runnable_from].
    destruct (available σ a) eqn:Hav.
    + destruct (try_acquire_at_success σ a Hσ Hav) as [Hok Hst].
      rewrite Hok.
      destruct (make_runnable_from_ext todo (next + 1) _ _ Hst)
        as (E1 & E2 & E3).
      rewrite E1, E2.
      destruct (IH (next + 1) (decrease σ a) (decrease_ints _ _ Hσ))
        as [(H1 & H2) | (H1 & k & b & Hk & H2 & H3 & H4)].
      * left. split; [done|]. intros [|k] c Hk; cbn in *.
        -- by injection Hk as <-.
        -- by apply H2.
      * right. split; [done|]. exists (S k), b. cbn.
        repeat split; [done | lia | done |].
        intros [|i] c Hi Hc; cbn in *.
        -- by injection Hc as <-.
        -- apply H4; [lia|done].
    + destruct (try_acquire_at_failure σ a Hσ Hav) as [Hno Hst].
      rewrite Hno. right. split; [done|]. exists O, a. cbn.
      repeat split; [f_equal; lia | done |]. intros i b Hi. lia.
Qed.

(** C4. [make_runnable] goes through the preconditions of the Job in order,
    from index [next_semaphore] on, each on the semaphores as the
    acquisitions before it left them. It returns true exactly when every
    one of them can be acquired at its turn; [next_semaphore] is then back
    at 0 and all of them are held. If the acquisition of one of them fails
    (the first that is not available at its turn), it returns false with
    [next_semaphore] at that precondition, and the semaphores are as the
    acquisitions before it left them: nothing is given back. Nothing else
    in the Job changes. *)
Theorem make_runnable_spec (σ : semaphore_store) (w : work) :
  all_ints σ ->
  let todo := drop (Z.to_nat (next_semaphore w)) (semaphores (task w)) in
  let r := make_runnable σ w in
  let σ' := fst (fst r) in
  let w' := snd (fst r) in
  (snd r = true
   <-> forall (k : nat) a, todo !! k = Some a ->
         available (held (take k todo) σ) a = true)
  /\ ((snd r = true
       /\ w' = set_next_semaphore 0 w
       /\ forall s, σ' s = held todo σ s)
      \/ (snd r = false
          /\ exists (k : nat) a,
               todo !! k = Some a
               /\ w' = set_next_semaphore (next_semaphore w + Z.of_nat k) w
               /\ available (held (take k todo) σ) a = false
               /\ (forall i b, (i < k)%nat -> todo !! i = Some b ->
                     available (held (take i todo) σ) b = true)
               /\ forall s, σ' s = held (take k todo) σ s)).
Proof.
  intros Hσ. cbn zeta. unfold make_runnable. cbn [fst snd].
  set (todo := drop (Z.to_nat (next_semaphore w)) (semaphores (task w))).
  pose proof (make_runnable_from_available todo (next_semaphore w) σ Hσ)
    as Hav. cbv zeta in Hav.
  pose proof (make_runnable_from_spec todo (next_semaphore w) σ Hσ) as Hsp.
  cbv zeta in Hsp.
  destruct Hav as [(A1 & A2) | (A1 & k & a & Ak & A2 & A3 & A4)].
  - split; [by split|].
    destruct Hsp as [(H1 & H2 & H3) | (H1 & _)]; [|congruence].
    left. rewrite H2. done.
  - split.
    + split; [congruence|]. intros Hall. specialize (Hall k a Ak). congruence.
    + destruct Hsp as [(H1 & _) | (H1 & k' & a' & Hk' & H2 & H3 & H4)];
        [congruence|].
      assert (k' = k) as -> by lia.
      assert (a' = a) as -> by congruence.
      right. split; [done|]. exists k, a. rewrite H2. done.
Qed.

Lemma make_runnable_spec_witness :
  all_ints (fun _ => 1)
  /\ (let w := example_waiting_job in
      let σ : nat -> Z := fun _ => 1 in
      let todo := drop (Z.to_nat (next_semaphore w)) (semaphores (task w)) in
      let r := make_runnable σ w in
      let σ' := fst (fst r) in
      let w' := snd (fst r) in
      (snd r = true
       <-> forall (k : nat) a, todo !! k = Some a ->
             available (held (take k todo) σ) a = true)
      /\ ((snd r = true
           /\ w' = set_next_semaphore 0 w
           /\ forall s, σ' s = held todo σ s)
          \/ (snd r = false
              /\ exists (k : nat) a,
                   todo !! k = Some a
                   /\ w' = set_next_semaphore (next_semaphore w + Z.of_nat k) w
                   /\ available (held (take k todo) σ) a = false
                   /\ (forall i b, (i < k)%nat -> todo !! i = Some b ->
                         available (held (take i todo) σ) b = true)
                   /\ forall s, σ' s = held (take k todo) σ s))).
Proof.
  assert (H : all_ints (fun _ => 1))
    by (intros s; unfold is_int, INT_MIN, INT_MAX; lia).
  split; [exact H | exact (make_runnable_spec (fun _ => 1) example_waiting_job H)].
Defined.

(** ** The gates of the dispatch loop *)

Lemma but_next_semaphore_set n w :
  but_next_semaphore (set_next_semaphore n w) = but_next_semaphore w.
Proof. done. Qed.

Lemma make_runnable_job σ w :
  but_next_semaphore (snd (fst (make_runnable σ w))) = but_next_semaphore w.
Proof. done. Qed.

Lemma fmap_insert_same {A B} (f : A -> B) (l : list A) (j : nat) (x y : A) :
  l !! j = Some x -> f y = f x -> f <$> <[j := y]> l = f <$> l.
Proof.
  intros Hj Hf. rewrite list_fmap_insert, Hf.
  apply list_insert_id. by rewrite list_lookup_fmap, Hj.
Qed.

Lemma fmap_lookup_eq {A B} (f : A -> B) (l l' : list A) (j : nat) (x' : A) :
  f <$> l' = f <$> l -> l' !! j = Some x' ->
  exists x, l !! j = Some x /\ f x' = f x.
Proof.
  intros Heq Hj.
  assert (H : (f <$> l) !! j = Some (f x')).
  { rewrite <- Heq, list_lookup_fmap, Hj. done. }
  rewrite list_lookup_fmap in H.
  destruct (l !! j) as [x|]; [|done]. exists x. split; [done|].
  cbn in H. congruence.
Qed.

Lemma may_try_ext owned mem mem' job job' :
  but_next_semaphore <$> mem' = but_next_semaphore <$> mem ->
  but_next_semaphore job' = but_next_semaphore job ->
  may_try owned mem' job' = may_try owned mem job.
Proof.
  intros Hmem Hjob. unfold may_try, owner_may_assist.
  assert (task job' = task job) as -> by (by injection Hjob).
  assert (active_workers job' = active_workers job) as ->
    by (by injection Hjob).
  assert (parent job' = parent job) as -> by (by injection Hjob).
  destruct owned as [o|]; [|done].
  assert (parent <$> mem' !! o = parent <$> mem !! o) as Hp.
  { assert (H : (but_next_semaphore <$> mem') !! o
                = (but_next_semaphore <$> mem) !! o) by (by rewrite Hmem).
    rewrite !list_lookup_fmap in H.
    destruct (mem' !! o), (mem !! o); cbn in *; try done.
    injection H. congruence. }
  destruct (mem' !! o), (mem !! o); cbn in *; try done.
  by injection Hp as ->.
Qed.

Lemma enough_threads_ext q job job' :
  but_next_semaphore job' = but_next_semaphore job ->
  enough_threads q job' = enough_threads q job.
Proof.
  intros Hjob. unfold enough_threads, threads_that_could_assist.
  assert (task job' = task job) as -> by (by injection Hjob).
  assert (owner_is_sleeping job' = owner_is_sleeping job) as ->
    by (by injection Hjob).
  done.
Qed.

(** The inner loop leaves every Job as it was but for [next_semaphore], and
    the job it breaks at is on the stack and passed the three tests. *)
Lemma find_job_spec owned q stack : forall pos mem σ,
  let r := find_job owned q stack pos mem σ in
  but_next_semaphore <$> fst (fst r) = but_next_semaphore <$> mem
  /\ forall k j, snd r = Some (k, j) ->
       exists (i : nat) job,
         k = (pos + i)%nat /\ stack !! i = Some j
         /\ mem !! j = Some job
         /\ may_try owned mem job = true
         /\ enough_threads q job = true.
Proof.
  induction stack as [|j0 rest IH]; intros pos mem σ; cbn zeta.
  - cbn. done.
  - cbn [find_job]. destruct (mem !! j0) as [job|] eqn:Hj0; [|done].
    destruct (may_try owned mem job && enough_threads q job) eqn:Htest.
    + set (mr := make_runnable σ job).
      assert (Hmem : but_next_semaphore <$> <[j0 := snd (fst mr)]> mem
                     = but_next_semaphore <$> mem).
      { apply (fmap_insert_same _ _ _ job); [done|].
        apply make_runnable_job. }
      destruct (snd mr).
      * cbn. split; [done|]. intros k j [= <- <-].
        apply andb_prop in Htest as [H1 H2].
        exists O, job. rewrite Nat.add_0_r. done.
      * destruct (IH (S pos) (<[j0 := snd (fst mr)]> mem) (fst (fst mr)))
          as [IH1 IH2].
        split; [by rewrite IH1|].
        intros k j Hk. destruct (IH2 k j Hk) as (i & job' & -> & Hi & Hj & Ht & He).
        destruct (fmap_lookup_eq _ _ _ _ _ Hmem Hj) as (job0 & Hj0' & Hsame).
        exists (S i), job0. repeat split; [lia | done | done | |].
        -- by rewrite <- (may_try_ext owned mem _ job0 job' Hmem Hsame).
        -- by rewrite <- (enough_threads_ext q job0 job' Hsame).
    + destruct (IH (S pos) mem σ) as [IH1 IH2]. split; [done|].
      intros k j Hk. destruct (IH2 k j Hk) as (i & job' & -> & Hi & Hrest).
      exists (S i), job'. split; [lia | done].
Qed.

(** C5. When a pass of the dispatch loop selects a Job, that Job is on the
    stack, its [min_threads] is at most 1 + [workers_sleeping], plus
    [owners_sleeping] if it does not block, else plus 1 if its own owner is
    asleep; if the thread is an owner and the Job may block, the Job is in
    the sibling group of the owned one; and if the Job is serial nobody is
    working on it. *)
Theorem dispatch_gates (owned : option ptr) (p p' : pool) (a : activity)
    (j : ptr) :
  worker_thread_already_locked owned p = (p', Some a) ->
  on_job a = Some j ->
  exists job,
    memory p !! j = Some job
    /\ In j (jobs (work_queue p))
    /\ min_threads (task job)
       <= 1 + workers_sleeping (work_queue p)
          + (if may_block (task job)
             then (if owner_is_sleeping job then 1 else 0)
             else owners_sleeping (work_queue p))
    /\ (forall o, owned = Some o -> may_block (task job) = true ->
        exists owned_job,
          memory p !! o = Some owned_job /\ parent job = parent owned_job)
    /\ (serial (task job) = true -> active_workers job = 0).
Proof.
  unfold worker_thread_already_locked.
  destruct (loop_condition owned p); [|done].
  pose proof (find_job_spec owned (work_queue p) (jobs (work_queue p)) O
                (memory p) (semaphore_values p)) as [_ Hfound].
  cbv zeta in *.
  set (r := find_job _ _ _ _ _ _) in *.
  destruct (snd r) as [[k j']|] eqn:Hr.
  - destruct (Hfound k j' eq_refl) as (i & job & _ & Hi & Hj & Ht & He).
    cbn [memory set_semaphore_values set_memory].
    destruct (fst (fst r) !! j') as [job'|]; [|done].
    intros [= <- <-] Hon.
    assert (j' = j) as ->.
    { unfold claim in Hon. destruct (serial _); cbn in Hon; congruence. }
    exists job. split; [done|]. split.
    { apply list_elem_of_In, list_elem_of_lookup. eauto. }
    apply andb_prop in Ht as [Ho Hs]. split; [|split].
    + unfold enough_threads, threads_that_could_assist in He.
      apply Z.leb_le in He.
      destruct (may_block (task job)), (owner_is_sleeping job); cbn in He; lia.
    + intros o -> Hb. unfold owner_may_assist in Ho. rewrite Hb in Ho.
      destruct (memory p !! o) as [oj|]; [|done].
      exists oj. split; [done|]. cbn in Ho. rewrite orb_false_r in Ho.
      by apply bool_decide_eq_true in Ho.
    + intros Hser. rewrite Hser in Hs. cbn in Hs. by apply Z.eqb_eq.
  - intros [= <- <-]. unfold go_to_sleep.
    destruct owned; [done|]. by destruct (_ >? _).
Qed.

Lemma dispatch_gates_witness :
  on_job (default Exited (snd (worker_thread_already_locked None example_pool)))
  = Some O
  /\ exists job,
       memory example_pool !! O = Some job
       /\ In O (jobs (work_queue example_pool))
       /\ min_threads (task job)
          <= 1 + workers_sleeping (work_queue example_pool)
             + (if may_block (task job)
                then (if owner_is_sleeping job then 1 else 0)
                else owners_sleeping (work_queue example_pool))
       /\ (forall o, None = Some o -> may_block (task job) = true ->
           exists owned_job,
             memory example_pool !! o = Some owned_job
             /\ parent job = parent owned_job)
       /\ (serial (task job) = true -> active_workers job = 0).
Proof.
  split; [vm_compute; reflexivity|].
  apply (dispatch_gates None example_pool
           (fst (worker_thread_already_locked None example_pool))
           (default Exited (snd (worker_thread_already_locked None example_pool)))
           O); vm_compute; reflexivity.
Defined.

(** ** Entry points that have nothing to do *)

Lemma with_shared_same (s : state) : with_shared (shared s) s = s.
Proof. by destruct s. Qed.

(** C8. With [size <= 0], [halide_default_do_par_for] returns 0 at once:
    the pool (queue, Jobs, semaphores, broadcasts) is as it was, no thread
    is spawned, and the step of the calling thread changes nothing in the
    system. *)
Theorem par_for_empty (env : environment) (next_thread : nat)
    (user_context_ : nat) (f : option nat) (min_ size : Z) (closure_ : nat)
    (p : pool) :
  size <= 0 ->
  halide_default_do_par_for env next_thread user_context_ f min_ size
    closure_ p = Ok (p, O, Nothing_to_do 0)
  /\ forall s t stack,
       stacks s !! t = Some stack -> in_user_code stack = true ->
       exec (Call_par_for t user_context_ f min_ size closure_) s = Some s.
Proof.
  intros Hsize.
  assert (E : forall env' nt p',
             halide_default_do_par_for env' nt user_context_ f min_ size
               closure_ p' = Ok (p', O, Nothing_to_do 0)).
  { intros. unfold halide_default_do_par_for.
    destruct (Z.leb_spec size 0); [done | lia]. }
  split; [apply E|].
  intros s t stack Ht Hu. unfold exec. rewrite Ht, Hu, E. cbn.
  by rewrite with_shared_same.
Qed.

Lemma par_for_empty_witness :
  0 <= 0
  /\ halide_default_do_par_for two_cores 1 7 (Some O) 10 0 3 pool_zero
     = Ok (pool_zero, O, Nothing_to_do 0)
  /\ forall s t stack,
       stacks s !! t = Some stack -> in_user_code stack = true ->
       exec (Call_par_for t 7 (Some O) 10 0 3) s = Some s.
Proof.
  assert (H : 0 <= 0) by lia.
  split; [exact H|].
  exact (par_for_empty two_cores 1 7 (Some O) 10 0 3 pool_zero H).
Defined.

(** ** The copy loop of [halide_default_do_parallel_tasks] *)

(** When no task is skipped, the loop copies every descriptor. *)
Lemma copy_tasks_all user_context_ tasks : forall (done_ : list (option work))
    (slots : list (option work)) fuel,
  Forall (fun t => 0 < extent t) tasks ->
  length slots = length tasks -> (length tasks <= fuel)%nat ->
  copy_tasks fuel user_context_ (Z.of_nat (length done_))
    (Z.of_nat (length done_ + length tasks)) tasks (done_ ++ slots)
  = (Z.of_nat (length done_ + length tasks),
     done_ ++ (Some <$> (new_job user_context_ <$> tasks))).
Proof.
  induction tasks as [|t tasks IH]; intros done_ slots fuel Hpos Hlen Hfuel.
  - destruct slots; [|done]. cbn.
    destruct fuel; cbn; rewrite Nat.add_0_r, Z.ltb_irrefl; done.
  - destruct slots as [|x slots]; [done|].
    destruct fuel as [|fuel]; [cbn in Hfuel; lia|].
    cbn [copy_tasks].
    destruct (Z.ltb_spec (Z.of_nat (length done_))
                (Z.of_nat (length done_ + length (t :: tasks))));
      [|cbn [length] in *; lia].
    inversion Hpos as [|? ? Ht Hpos']; subst.
    destruct (Z.leb_spec (extent t) 0); [lia|].
    rewrite Nat2Z.id.
    replace (<[length done_ := Some (new_job user_context_ t)]> (done_ ++ x :: slots))
      with ((done_ ++ [Some (new_job user_context_ t)]) ++ slots).
    2:{ rewrite insert_app_r_alt by lia. rewrite Nat.sub_diag. cbn.
        by rewrite <- app_assoc. }
    replace (Z.of_nat (length done_) + 1)
      with (Z.of_nat (length (done_ ++ [Some (new_job user_context_ t)])))
      by (rewrite length_app; cbn; lia).
    replace (length done_ + length (t :: tasks))%nat
      with (length (done_ ++ [Some (new_job user_context_ t)]) + length tasks)%nat
      by (rewrite length_app; cbn; lia).
    rewrite IH; [|done|cbn in Hlen; lia|cbn in Hfuel; lia].
    by rewrite <- app_assoc.
Qed.

(** C1 (defect). On a skipped task the loop of lines 410-423 advances [i]
    but not the cursor [tasks]. With a task of extent 0 followed by one of
    extent 5, the loop ends with [num_tasks = 1] and nothing copied: the
    second task is never looked at and [jobs[0]], which is then enqueued,
    was never written. With two tasks of extent 0 the call does not return
    0 either, it again enqueues the unwritten [jobs[0]]. *)
Theorem parallel_tasks_skip_defect (env : environment) (next_thread : nat)
    (user_context_ : nat) (p : pool) :
  let skipped := example_task 0 1 false in
  let wanted := example_task 5 1 false in
  copy_tasks 2 user_context_ 0 2 [skipped; wanted] [None; None]
    = (1, [None; None])
  /\ halide_default_do_parallel_tasks env next_thread user_context_
       [skipped; wanted] p = Undefined (Uninitialised_job 0)
  /\ halide_default_do_parallel_tasks env next_thread user_context_
       [skipped; skipped] p = Undefined (Uninitialised_job 0).
Proof. done. Qed.

(** ** The spawn loop *)

(** The loop is run to its end: when it does not leave the array, its
    condition is false in the queue it returns. *)
Lemma spawn_threads_runs_out (m : Z) : forall fuel nt q q' k,
  (spawn_fuel m q <= fuel)%nat ->
  spawn_threads fuel m nt q = Ok (q', k) ->
  spawn_more m q' = false.
Proof.
  induction fuel as [|fuel IH]; intros nt q q' k Hfuel; cbn [spawn_threads];
    destruct (spawn_more m q) eqn:Hmore; try (by intros [= <- <-]).
  - unfold spawn_fuel in Hfuel. unfold spawn_more in Hmore.
    apply orb_true_iff in Hmore as [H%Z.ltb_lt | H%Z.ltb_lt]; lia.
  - unfold spawn_thread. destruct (_ && _); [|done].
    set (q1 := Build_work_queue_t _ _ _ _ _ _ _ _ _ _).
    destruct (spawn_threads fuel m (S nt) q1) as [[q2 k2]|] eqn:Hrec; [|done].
    intros [= <- <-]. refine (IH _ _ _ _ _ Hrec).
    unfold spawn_fuel in *. unfold spawn_more in Hmore. cbn.
    apply orb_true_iff in Hmore as [H%Z.ltb_lt | H%Z.ltb_lt]; lia.
Qed.

(** C2 (defect). The spawn loop of lines 308-315 has no bound of its own:
    [desired_threads_working] is clamped, the sum of the [min_threads] of
    the blocking jobs is not. A first submission of two blocking tasks
    that ask for 129 threads each keeps the loop going while
    [threads_created < 257]; after 256 threads it writes [threads[256]],
    past the end of the array. *)
Theorem spawn_loop_overflow :
  let blocking := example_task 1 129 true in
  halide_default_do_parallel_tasks one_thread 1 0 [blocking; blocking]
    pool_zero = Undefined (Threads_overflow 256).
Proof. vm_compute. reflexivity. Qed.

(** ** Statuses *)

Lemma last_nonzero_snoc (l : list Z) (r : Z) :
  last_nonzero (l ++ [r]) = record_status (last_nonzero l) r.
Proof. unfold last_nonzero. by rewrite fold_left_app. Qed.

Lemma last_nonzero_zero (l : list Z) :
  last_nonzero l = 0 <-> Forall (fun r => r = 0) l.
Proof.
  induction l as [|r l IH] using rev_ind; [done|].
  rewrite last_nonzero_snoc, Forall_app, Forall_singleton, <- IH.
  unfold record_status. destruct (Z.eqb_spec r 0); intuition lia.
Qed.

Lemma last_nonzero_elem (l : list Z) :
  last_nonzero l <> 0 -> last_nonzero l ∈ l.
Proof.
  induction l as [|r l IH] using rev_ind; [done|].
  rewrite last_nonzero_snoc. unfold record_status.
  rewrite elem_of_app, list_elem_of_singleton.
  destruct (Z.eqb_spec r 0); intros H; [left; by apply IH | by right].
Qed.

Lemma record_status_nonzero (acc r : Z) :
  acc <> 0 -> record_status acc r <> 0.
Proof. unfold record_status. destruct (Z.eqb_spec r 0); lia. Qed.

(** ** Projections of the trace *)

Lemma results_app j tr tr' : results j (tr ++ tr') = results j tr ++ results j tr'.
Proof. apply flat_map_app. Qed.

Lemma indices_app j tr tr' : indices j (tr ++ tr') = indices j tr ++ indices j tr'.
Proof. apply flat_map_app. Qed.

Lemma born_app tr tr' : born (tr ++ tr') = born tr ++ born tr'.
Proof. apply flat_map_app. Qed.

Lemma foldr_add_app (l l' : list Z) :
  foldr Z.add 0 (l ++ l') = foldr Z.add 0 l + foldr Z.add 0 l'.
Proof. induction l as [|x l IH]; cbn; lia. Qed.

Lemma completed_iters_app j tr tr' :
  completed_iters j (tr ++ tr') = completed_iters j tr + completed_iters j tr'.
Proof. unfold completed_iters. by rewrite flat_map_app, foldr_add_app. Qed.

Lemma numbered_app tr : forall n tr',
  numbered n (tr ++ tr')
  <-> numbered n tr /\ numbered (n + length (born tr)) tr'.
Proof.
  induction tr as [|e tr IH]; intros n tr'.
  - cbn. rewrite Nat.add_0_r. tauto.
  - cbn [app numbered]. rewrite IH.
    change (e :: tr) with ([e] ++ tr). rewrite (born_app [e] tr), length_app.
    rewrite Nat.add_assoc. tauto.
Qed.

Lemma numbered_par_for tr : forall n j m k,
  numbered n tr -> Par_for_called j m k ∈ tr ->
  exists i, j = (n + i)%nat
            /\ born tr !! i = Some (task (par_for_job O None m k O)).
Proof.
  induction tr as [|e tr IH]; intros n j m k Hn Hin; [by apply elem_of_nil in Hin|].
  cbn [numbered] in Hn. destruct Hn as [He Hn].
  change (e :: tr) with ([e] ++ tr). rewrite born_app.
  apply elem_of_cons in Hin as [<-|Hin].
  - cbn in He. exists O. cbn. split; [lia|done].
  - destruct (IH _ j m k Hn Hin) as (i & -> & Hi).
    exists (length (born [e]) + i)%nat. split; [lia|].
    by rewrite lookup_app_r, Nat.add_comm, Nat.add_sub by lia.
Qed.

Lemma numbered_tasks tr : forall n j ts,
  numbered n tr -> Tasks_called j ts ∈ tr ->
  exists i, j = (n + i)%nat
            /\ forall k t, ts !! k = Some t -> born tr !! (i + k)%nat = Some t.
Proof.
  induction tr as [|e tr IH]; intros n j ts Hn Hin; [by apply elem_of_nil in Hin|].
  cbn [numbered] in Hn. destruct Hn as [He Hn].
  change (e :: tr) with ([e] ++ tr). rewrite born_app.
  apply elem_of_cons in Hin as [<-|Hin].
  - cbn in He. exists O. split; [lia|]. intros k t Hk. cbn. rewrite app_nil_r.
    by apply lookup_app_l_Some.
  - destruct (IH _ j ts Hn Hin) as (i & -> & Hi).
    exists (length (born [e]) + i)%nat. split; [lia|].
    intros k t Hk. rewrite lookup_app_r by lia.
    replace (length (born [e]) + i + k - length (born [e]))%nat
      with (i + k)%nat by lia.
    by apply Hi.
Qed.

(** ** Counting activations *)

Lemma cnt_cons j fr fs : cnt j (fr :: fs) = (cnt1 j fr + cnt j fs)%nat.
Proof.
  unfold cnt, cnt1. rewrite filter_cons.
  destruct (decide (on_job (doing fr) = Some j)); done.
Qed.

Lemma cnt_app j fs fs' : cnt j (fs ++ fs') = (cnt j fs + cnt j fs')%nat.
Proof. unfold cnt. by rewrite list.filter_app, length_app. Qed.

Lemma cnt_perm j fs fs' : fs ≡ₚ fs' -> cnt j fs = cnt j fs'.
Proof. intros H. unfold cnt. by rewrite H. Qed.

Lemma pend_cons j fr fs : pend j (fr :: fs) = pend j [fr] ++ pend j fs.
Proof. change (fr :: fs) with ([fr] ++ fs). apply omap_app. Qed.

Lemma pend_app j fs fs' : pend j (fs ++ fs') = pend j fs ++ pend j fs'.
Proof. apply omap_app. Qed.

Lemma pend_perm j fs fs' : fs ≡ₚ fs' -> pend j fs ≡ₚ pend j fs'.
Proof. intros H. unfold pend. by rewrite H. Qed.

Lemma pend_on_job j fr : cnt1 j fr = O -> pend j [fr] = [].
Proof.
  unfold cnt1, pend. cbn. destruct (doing fr) as [| | | | |j' r|]; try done.
  cbn. destruct (decide (Some j' = Some j)) as [[= ->]|Hne]; [done|].
  intros _. destruct (decide (j' = j)); [congruence | done].
Qed.

Lemma cnt_zero_pend j fs : cnt j fs = O -> pend j fs = [].
Proof.
  induction fs as [|fr fs IH]; [done|].
  rewrite cnt_cons, pend_cons. intros H.
  rewrite pend_on_job, IH by lia. done.
Qed.

Lemma cnt1_other j j' fr :
  on_job (doing fr) = Some j' -> j <> j' -> cnt1 j fr = O.
Proof. unfold cnt1. intros ->. destruct (decide _); congruence. Qed.

Lemma cnt1_same j fr : on_job (doing fr) = Some j -> cnt1 j fr = 1%nat.
Proof. unfold cnt1. intros ->. by rewrite decide_True. Qed.

Lemma cnt1_none j fr : on_job (doing fr) = None -> cnt1 j fr = O.
Proof. unfold cnt1. intros ->. done. Qed.

(** ** How the Jobs evolve *)

Lemma evolve_refl cs : evolve cs cs.
Proof. split; [done|]. intros j c Hj. by exists c. Qed.

Lemma evolve_insert cs j c c' :
  cs !! j = Some c -> c_serial c' = c_serial c -> ~ finished c ->
  evolve cs (<[j := c']> cs).
Proof.
  intros Hj Hs Hf. split; [by rewrite length_insert|].
  intros j' c0 Hj'. destruct (decide (j = j')) as [<-|Hne].
  - rewrite list_lookup_insert_eq by (by eapply lookup_lt_Some).
    exists c'. split; [done|]. assert (c0 = c) as -> by congruence. done.
  - rewrite list_lookup_insert_ne by done. by exists c0.
Qed.

Lemma evolve_app cs l : evolve cs (cs ++ l).
Proof.
  split; [rewrite length_app; lia|]. intros j c Hj. exists c.
  split; [by apply lookup_app_l_Some | done].
Qed.

Lemma evolve_finished_at cs cs' j :
  evolve cs cs' -> finished_at cs j -> finished_at cs' j.
Proof.
  intros [_ H] (c & Hj & Hf). destruct (H j c Hj) as (c' & Hj' & _ & Hc).
  assert (c' = c) as -> by auto. by exists c.
Qed.

Lemma evolve_exit_at cs cs' j :
  evolve cs cs' -> finished_at cs j -> exit_at cs' j = exit_at cs j.
Proof.
  intros [_ H] (c & Hj & Hf). destruct (H j c Hj) as (c' & Hj' & _ & Hc).
  assert (c' = c) as -> by auto. unfold exit_at. by rewrite Hj, Hj'.
Qed.

Lemma evolve_exits cs cs' jobs_ n :
  evolve cs cs' ->
  (forall k, (k < n)%nat -> finished_at cs (jobs_ + k)%nat) ->
  exits cs' jobs_ n = exits cs jobs_ n.
Proof.
  intros He Hf. unfold exits. apply list_fmap_ext.
  intros i k Hk. apply lookup_seq in Hk as [-> Hk].
  apply evolve_exit_at; [done|]. by apply Hf.
Qed.

Lemma evolve_caller_ok cs cs' c :
  evolve cs cs' -> caller_ok cs c -> caller_ok cs' c.
Proof.
  intros He. pose proof He as [Hlen _].
  destruct c as [|j|jobs_ n i acc]; cbn; [done|lia|].
  intros (H1 & H2 & H3 & H4). repeat split; [done|lia| |].
  - intros k Hk. eapply evolve_finished_at; eauto.
  - by rewrite (evolve_exits cs cs').
Qed.

Lemma evolve_doing_ok cs cs' a :
  evolve cs cs' -> doing_ok cs a -> doing_ok cs' a.
Proof.
  intros [_ He]. unfold doing_ok. destruct (on_job a) as [j|]; [|done].
  intros (c & Hj & Hs). destruct (He j c Hj) as (c' & Hj' & Hs' & _).
  exists c'. split; [done|congruence].
Qed.

Lemma evolve_frame_ok cs cs' fr :
  evolve cs cs' -> frame_ok cs fr -> frame_ok cs' fr.
Proof.
  intros He [H1 H2]. split; [by eapply evolve_caller_ok | by eapply evolve_doing_ok].
Qed.

Lemma evolve_return_ok cs cs' e :
  evolve cs cs' -> return_ok cs e -> return_ok cs' e.
Proof.
  intros He. pose proof He as [Hlen He'].
  destruct e as [| | | |j v|jobs_ n v]; cbn; try done.
  - intros (c & Hj & Hf & Hv). destruct (He' j c Hj) as (c' & Hj' & _ & Hc).
    assert (c' = c) as -> by auto. by exists c.
  - intros (H1 & H2 & H3). repeat split; [lia| |].
    + intros k Hk. eapply evolve_finished_at; eauto.
    + by rewrite (evolve_exits cs cs').
Qed.

(** ** Preservation of the invariant: general lemmas *)

Lemma job_ok_pend c t0 n ps ps' rs is_ d :
  ps ≡ₚ ps' -> job_ok c t0 n ps rs is_ d -> job_ok c t0 n ps' rs is_ d.
Proof.
  intros Hp (H1 & H2 & H3 & H4 & H5 & H6 & H7).
  refine (conj H1 (conj H2 (conj _ (conj _ (conj H5 (conj H6 H7)))))).
  - intros ->. apply H3. by apply Permutation_nil_r in Hp.
  - intros r Hr. apply H4. by rewrite Hp.
Qed.

(** The activations change, but not what they mean for any Job. *)
Lemma PI_frames cs qs fs fs' tr :
  PI cs qs fs tr ->
  (forall j, cnt j fs' = cnt j fs /\ pend j fs' ≡ₚ pend j fs) ->
  Forall (frame_ok cs) fs' ->
  PI cs qs fs' tr.
Proof.
  intros [] Hsame Hfs. split; try done.
  - intros j c t0 Hj Ht. destruct (Hsame j) as [-> Hp].
    eapply job_ok_pend; [symmetry; exact Hp|]. by apply pi_jobs0.
  - intros j Hj. destruct (pi_queue0 j Hj) as (c & Hc & He & Hs).
    exists c. destruct (Hsame j) as [-> _]. done.
Qed.

Lemma PI_perm cs qs fs fs' tr : fs ≡ₚ fs' -> PI cs qs fs tr -> PI cs qs fs' tr.
Proof.
  intros Hp HPI. apply (PI_frames cs qs fs); [done| |].
  - intros j. split; [by apply cnt_perm | by apply pend_perm].
  - rewrite <- Hp. by destruct HPI.
Qed.

(** Jobs are taken off the stack. *)
Lemma PI_queue cs qs qs' fs tr :
  PI cs qs fs tr -> NoDup qs' -> (forall j, j ∈ qs' -> j ∈ qs) ->
  PI cs qs' fs tr.
Proof. intros [] Hnd Hsub. split; try done. intros j Hj. auto. Qed.

(** One Job changes. *)
Lemma PI_change cs qs fs tr j0 c0 c0' qs' fs' evs :
  PI cs qs fs tr ->
  cs !! j0 = Some c0 ->
  evolve cs (<[j0 := c0']> cs) ->
  born evs = [] -> (forall n, numbered n evs) ->
  (forall j, j <> j0 -> cnt j fs' = cnt j fs /\ pend j fs' ≡ₚ pend j fs) ->
  (forall j, j <> j0 ->
     results j evs = [] /\ indices j evs = [] /\ completed_iters j evs = 0) ->
  (forall t0, born tr !! j0 = Some t0 ->
     job_ok c0 t0 (cnt j0 fs) (pend j0 fs) (results j0 tr) (indices j0 tr)
       (completed_iters j0 tr) ->
     job_ok c0' t0 (cnt j0 fs') (pend j0 fs') (results j0 (tr ++ evs))
       (indices j0 (tr ++ evs)) (completed_iters j0 (tr ++ evs))) ->
  NoDup qs' ->
  (forall j, j ∈ qs' -> j <> j0 -> j ∈ qs) ->
  (j0 ∈ qs' ->
     0 < c_extent c0' /\ (c_serial c0' = true -> cnt j0 fs' = O)) ->
  Forall (frame_ok (<[j0 := c0']> cs)) fs' ->
  Forall (return_ok (<[j0 := c0']> cs)) evs ->
  PI (<[j0 := c0']> cs) qs' fs' (tr ++ evs).
Proof.
  intros [] Hj0 Hev Hborn Hnum Hfs Hevs Hjob Hnd Hqs Hq0 Hfr Hret.
  assert (Hlt : (j0 < length cs)%nat) by (by eapply lookup_lt_Some).
  split.
  - by rewrite born_app, Hborn, app_nil_r, length_insert.
  - apply numbered_app. split; [done | apply Hnum].
  - intros j Hj. rewrite length_insert in Hj.
    destruct (pi_fresh0 j Hj) as (H1 & H2 & H3).
    assert (Hne : j <> j0) by lia.
    destruct (Hevs j Hne) as (E1 & E2 & E3).
    by rewrite results_app, indices_app, completed_iters_app, H1, H2, H3, E1, E2, E3.
  - intros j c t0 Hj Ht. rewrite born_app, Hborn, app_nil_r in Ht.
    destruct (decide (j = j0)) as [->|Hne].
    + rewrite list_lookup_insert_eq in Hj by done.
      assert (c = c0') as -> by congruence. apply Hjob; [done|].
      by apply pi_jobs0.
    + rewrite list_lookup_insert_ne in Hj by done.
      destruct (Hfs j Hne) as [-> Hp]. destruct (Hevs j Hne) as (E1 & E2 & E3).
      rewrite results_app, indices_app, completed_iters_app, E1, E2, E3.
      rewrite !app_nil_r, Z.add_0_r.
      eapply job_ok_pend; [symmetry; exact Hp|]. by apply pi_jobs0.
  - done.
  - intros j Hj. destruct (decide (j = j0)) as [->|Hne].
    + exists c0'. rewrite list_lookup_insert_eq by done.
      destruct (Hq0 Hj). done.
    + destruct (pi_queue0 j (Hqs j Hj Hne)) as (c & Hc & He & Hs).
      exists c. rewrite list_lookup_insert_ne by done.
      destruct (Hfs j Hne) as [-> _]. done.
  - done.
  - apply Forall_app. split; [|done].
    clear -pi_returns0 Hev. induction pi_returns0; constructor; [|done].
    by eapply evolve_return_ok.
Qed.

(** A call returns. *)
Lemma PI_return cs qs fs tr e :
  PI cs qs fs tr -> return_ok cs e ->
  match e with Par_for_returned _ _ | Tasks_returned _ _ _ => True | _ => False end ->
  PI cs qs fs (tr ++ [e]).
Proof.
  intros [] Hret He.
  assert (Hb : born [e] = []) by (by destruct e).
  assert (Hr : forall j, results j [e] = [] /\ indices j [e] = []
                         /\ completed_iters j [e] = 0) by (by destruct e).
  split; try done.
  - by rewrite born_app, Hb, app_nil_r.
  - apply numbered_app. split; [done|]. by destruct e.
  - intros j Hj. destruct (pi_fresh0 j Hj) as (H1 & H2 & H3).
    destruct (Hr j) as (E1 & E2 & E3).
    by rewrite results_app, indices_app, completed_iters_app, H1, H2, H3, E1, E2, E3.
  - intros j c t0 Hj Ht. rewrite born_app, Hb, app_nil_r in Ht.
    destruct (Hr j) as (E1 & E2 & E3).
    rewrite results_app, indices_app, completed_iters_app, E1, E2, E3.
    rewrite !app_nil_r, Z.add_0_r. by apply pi_jobs0.
  - apply Forall_app. split; [done|]. by apply Forall_singleton.
Qed.

(** ** Preservation of the invariant: the moves of the dispatch loop *)

Lemma Forall_frame_ok_evolve cs cs' fs :
  evolve cs cs' -> Forall (frame_ok cs) fs -> Forall (frame_ok cs') fs.
Proof.
  intros He H. induction H; constructor; [|done].
  by eapply evolve_frame_ok.
Qed.

Lemma NoDup_delete_notin (l : list nat) k x :
  NoDup l -> l !! k = Some x -> x ∉ delete k l.
Proof.
  intros Hnd Hk Hin. apply list_elem_of_lookup in Hin as [i Hi].
  destruct (decide (i < k)%nat).
  - rewrite list_lookup_delete_lt in Hi by done.
    apply (NoDup_lookup _ _ _ _ Hnd Hi) in Hk. lia.
  - rewrite list_lookup_delete_ge in Hi by lia.
    apply (NoDup_lookup _ _ _ _ Hnd Hi) in Hk. lia.
Qed.

Lemma NoDup_delete (l : list nat) k : NoDup l -> NoDup (delete k l).
Proof. intros H. eapply sublist_NoDup; [exact H | apply sublist_delete]. Qed.

Lemma born_lookup cs qs fs tr j c :
  PI cs qs fs tr -> cs !! j = Some c -> exists t0, born tr !! j = Some t0.
Proof.
  intros [] Hj. apply lookup_lt_Some in Hj.
  destruct (lookup_lt_is_Some_2 (born tr) j) as [t0 Ht]; [lia|]. eauto.
Qed.

Lemma active_cnt cs qs fs tr j c :
  PI cs qs fs tr -> cs !! j = Some c -> c_active c = Z.of_nat (cnt j fs).
Proof.
  intros HPI Hj. destruct (born_lookup _ _ _ _ _ _ HPI Hj) as [t0 Ht].
  destruct HPI. by destruct (pi_jobs0 j c t0 Hj Ht).
Qed.

Lemma serial_cnt cs qs fs tr j c :
  PI cs qs fs tr -> cs !! j = Some c -> c_serial c = true ->
  (cnt j fs <= 1)%nat.
Proof.
  intros HPI Hj Hs. destruct (born_lookup _ _ _ _ _ _ HPI Hj) as [t0 Ht].
  destruct HPI. destruct (pi_jobs0 j c t0 Hj Ht) as (_ & _ & _ & _ & _ & H & _).
  auto.
Qed.

(** A Job on which somebody works is not finished. *)
Lemma working_not_finished cs qs fs tr j c :
  PI cs qs fs tr -> cs !! j = Some c -> (0 < cnt j fs)%nat -> ~ finished c.
Proof.
  intros HPI Hj Hc [_ Ha]. rewrite (active_cnt _ _ _ _ _ _ HPI Hj) in Ha. lia.
Qed.

(** A serial Job on which somebody works is not on the stack. *)
Lemma working_serial_off_stack cs qs fs tr j c :
  PI cs qs fs tr -> cs !! j = Some c -> c_serial c = true ->
  (0 < cnt j fs)%nat -> j ∉ qs.
Proof.
  intros HPI Hj Hs Hc Hin. destruct HPI.
  destruct (pi_queue0 j Hin) as (c' & Hj' & _ & H).
  assert (c' = c) as -> by congruence. specialize (H Hs). lia.
Qed.

(** Only [Do_task] activations work on a Job that is not serial. *)
Lemma pend_nonserial cs fs j c :
  Forall (frame_ok cs) fs -> cs !! j = Some c -> c_serial c = false ->
  pend j fs = [].
Proof.
  intros Hfs Hj Hs. induction Hfs as [|fr fs [_ Hd] _ IH]; [done|].
  rewrite pend_cons, IH, app_nil_r. unfold pend. cbn.
  destruct (doing fr) as [| | | | |j' r|] eqn:Ha; try done.
  destruct (decide (j' = j)) as [->|]; [|done].
  unfold doing_ok in Hd. cbn in Hd. destruct Hd as (c' & Hc' & Hs').
  congruence.
Qed.

(** No activation works on a Job that does not exist. *)
Lemma cnt_fresh cs fs j :
  Forall (frame_ok cs) fs -> (length cs <= j)%nat -> cnt j fs = O.
Proof.
  intros Hfs Hj. induction Hfs as [|fr fs [_ Hd] _ IH]; [done|].
  rewrite cnt_cons, IH, Nat.add_0_r. unfold cnt1.
  destruct (decide (on_job (doing fr) = Some j)) as [E|]; [|done].
  unfold doing_ok in Hd. rewrite E in Hd. destruct Hd as (c & Hc & _).
  apply lookup_lt_Some in Hc. lia.
Qed.

Lemma pend_other j j' fr :
  on_job (doing fr) = Some j' -> j <> j' -> pend j [fr] = [].
Proof. intros Hon Hne. apply pend_on_job. by apply (cnt1_other j j'). Qed.

Lemma results_completed j n r : results j [Completed j n r] = [r].
Proof. cbn. by rewrite decide_True. Qed.

Lemma completed_iters_completed j n r :
  completed_iters j [Completed j n r] = n.
Proof. unfold completed_iters. cbn. rewrite decide_True by done. cbn. lia. Qed.

Lemma indices_completed j j' n r : indices j [Completed j' n r] = [].
Proof. done. Qed.

Ltac core_simpl :=
  cbn [claimed entered left_ advanced c_min c_extent c_serial c_active
       c_exit] in *.

Ltac other_job :=
  repeat match goal with
  | |- _ /\ _ => split
  | |- context [decide (?a = ?b)] => rewrite (decide_False (P := a = b)) by congruence
  end; try done.

(** A thread claims one iteration of a Job that is not serial
    (lines 211-222). *)
Lemma PI_claim_parallel cs qs fs tr k j c w myjob :
  PI cs qs fs tr -> qs !! k = Some j -> cs !! j = Some c ->
  c_serial c = false -> caller_ok cs w ->
  PI (<[j := claimed c]> cs)
     (if c_extent (claimed c) =? 0 then delete k qs else qs)
     ({| who := w; doing := Do_task j myjob |} :: fs)
     (tr ++ [Dispatched j (c_min c) 1]).
Proof.
  intros HPI Hk Hj Hs Hw.
  assert (Hin : j ∈ qs) by (apply list_elem_of_lookup; eauto).
  pose proof HPI as [].
  destruct (pi_queue0 j Hin) as (c' & Hc' & Hext & _).
  assert (c' = c) as -> by congruence.
  assert (Hev : evolve cs (<[j := claimed c]> cs)).
  { apply (evolve_insert cs j c); [done..|]. intros [? _]. lia. }
  apply (PI_change cs qs fs tr j c); try done.
  - intros j' Hne. rewrite cnt_cons, pend_cons.
    rewrite (cnt1_other j' j) by done. done.
  - intros j' Hne. cbn. other_job.
  - intros t0 Ht (H1 & H2 & H3 & H4 & H5 & H6 & H7).
    rewrite cnt_cons, pend_cons, (cnt1_same j) by done.
    rewrite results_app, indices_app, completed_iters_app. cbn.
    rewrite decide_True by done. rewrite !app_nil_r, Z.add_0_r.
    destruct (H5 Hs) as (Hb & Hm & Hi).
    refine (conj _ (conj H2 (conj H3 (conj H4 (conj _ (conj _ _))))));
      core_simpl.
    + lia.
    + intros _. split; [lia|].
      replace (extent t0 - (c_extent c - 1)) with ((extent t0 - c_extent c) + 1) by lia.
      split.
      * rewrite Hm, wrap_add_l. f_equal. lia.
      * rewrite Hi, Hm, seqZ_app, fmap_app by lia. done.
    + congruence.
    + rewrite Hs in *. lia.
  - destruct (_ =? _); [by apply NoDup_delete | done].
  - intros j' Hj' _. destruct (_ =? _); [by eapply list_elem_of_delete_inv | done].
  - cbn [claimed c_extent c_serial].
    destruct (Z.eqb_spec (c_extent c - 1) 0) as [E|E].
    + intros Hin'. by apply NoDup_delete_notin in Hin'.
    + intros _. split; [lia | congruence].
  - constructor; [|by eapply Forall_frame_ok_evolve].
    split; [by eapply evolve_caller_ok|]. unfold doing_ok. cbn.
    exists (claimed c). split; [|done].
    apply list_lookup_insert_eq. by eapply lookup_lt_Some.
  - by constructor.
Qed.

(** A thread takes a serial Job off the stack (lines 176-185). *)
Lemma PI_claim_serial cs qs fs tr k j c w :
  PI cs qs fs tr -> qs !! k = Some j -> cs !! j = Some c ->
  c_serial c = true -> c_active c = 0 -> caller_ok cs w ->
  PI (<[j := entered c]> cs) (delete k qs)
     ({| who := w; doing := Serial_claim j 1 |} :: fs) tr.
Proof.
  intros HPI Hk Hj Hs Ha Hw.
  assert (Hin : j ∈ qs) by (apply list_elem_of_lookup; eauto).
  pose proof HPI as [].
  destruct (pi_queue0 j Hin) as (c' & Hc' & Hext & _).
  assert (c' = c) as -> by congruence.
  assert (Hev : evolve cs (<[j := entered c]> cs)).
  { apply (evolve_insert cs j c); [done..|]. intros [? _]. lia. }
  rewrite <- (app_nil_r tr).
  apply (PI_change cs qs fs tr j c); try done.
  - intros j' Hne. rewrite cnt_cons, pend_cons.
    rewrite (cnt1_other j' j) by done. done.
  - intros t0 Ht (H1 & H2 & H3 & H4 & H5 & H6 & H7).
    rewrite cnt_cons, pend_cons, (cnt1_same j) by done.
    rewrite app_nil_r. cbn [app].
    refine (conj _ (conj H2 (conj H3 (conj H4 (conj _ (conj _ _))))));
      core_simpl.
    + lia.
    + congruence.
    + intros _. lia.
    + rewrite Hs in *. lia.
  - by apply NoDup_delete.
  - intros j' Hj' _. by eapply list_elem_of_delete_inv.
  - intros Hin'. by apply NoDup_delete_notin in Hin'.
  - constructor; [|by eapply Forall_frame_ok_evolve].
    split; [by eapply evolve_caller_ok|]. unfold doing_ok. cbn.
    exists (entered c). split; [|done].
    apply list_lookup_insert_eq. by eapply lookup_lt_Some.
Qed.

(** A thread is back from an iteration of a Job that is not serial
    (lines 233-246). *)
Lemma PI_finish_parallel cs qs fs tr fr j myjob r :
  PI cs qs (fr :: fs) tr -> doing fr = Do_task j myjob ->
  exists c,
    cs !! j = Some c
    /\ PI (<[j := left_ r c]> cs) qs fs (tr ++ [Completed j 1 r])
    /\ caller_ok (<[j := left_ r c]> cs) (who fr).
Proof.
  intros HPI Ha. pose proof HPI as [].
  pose proof pi_frames0 as Hall.
  apply list.Forall_cons in pi_frames0 as [[Hw Hd] Hfs].
  unfold doing_ok in Hd. rewrite Ha in Hd. cbn in Hd.
  destruct Hd as (c & Hj & Hs). exists c. split; [done|].
  assert (Hon : on_job (doing fr) = Some j) by (by rewrite Ha).
  assert (Hev : evolve cs (<[j := left_ r c]> cs)).
  { apply (evolve_insert cs j c); [done..|].
    eapply working_not_finished; [done..|]. rewrite cnt_cons, (cnt1_same j) by done. lia. }
  split; [|by eapply evolve_caller_ok].
  apply (PI_change cs qs (fr :: fs) tr j c); try done.
  - intros j' Hne. rewrite cnt_cons, pend_cons.
    rewrite (cnt1_other j' j), (pend_other j' j) by done. done.
  - intros j' Hne. cbn. other_job.
  - intros t0 Ht (H1 & H2 & H3 & H4 & H5 & H6 & H7).
    rewrite cnt_cons, (cnt1_same j) in H1 by done.
    rewrite (pend_nonserial cs (fr :: fs) j c) in H3 by done.
    rewrite (pend_nonserial cs fs j c) by done.
    rewrite results_app, indices_app, completed_iters_app.
    unfold completed_iters at 2. cbn.
    rewrite !decide_True by done. cbn. rewrite !app_nil_r.
    refine (conj _ (conj H2 (conj _ (conj _ (conj H5 (conj _ _))))));
      core_simpl.
    + lia.
    + intros _. rewrite last_nonzero_snoc, H3 by done. done.
    + intros r' Hr'. by apply elem_of_nil in Hr'.
    + congruence.
    + rewrite Hs in *. lia.
  - intros Hin. destruct (pi_queue0 j Hin) as (c' & Hc' & Hext & _).
    assert (c' = c) as -> by congruence. cbn. split; [done|congruence].
  - by eapply Forall_frame_ok_evolve.
  - by constructor.
Qed.

(** The loop task of a serial Job returns (lines 195-199). *)
Lemma PI_serial_return cs qs fs tr fr j n r :
  PI cs qs (fr :: fs) tr -> doing fr = Serial_body j n ->
  exists c,
    cs !! j = Some c
    /\ PI (<[j := advanced n c]> cs) qs
         ({| who := who fr;
             doing := if r =? 0 then Serial_claim j 0 else Serial_done j r |}
          :: fs)
         (tr ++ [Completed j n r]).
Proof.
  intros HPI Ha. pose proof HPI as [].
  pose proof pi_frames0 as Hall.
  apply list.Forall_cons in pi_frames0 as [[Hw Hd] Hfs].
  unfold doing_ok in Hd. rewrite Ha in Hd. cbn in Hd.
  destruct Hd as (c & Hj & Hs). exists c. split; [done|].
  assert (Hon : on_job (doing fr) = Some j) by (by rewrite Ha).
  assert (Hcnt : cnt j (fr :: fs) = S (cnt j fs))
    by (by rewrite cnt_cons, (cnt1_same j)).
  assert (Hev : evolve cs (<[j := advanced n c]> cs)).
  { apply (evolve_insert cs j c); [done..|].
    eapply working_not_finished; [done..|]. lia. }
  set (fr' := {| who := who fr; doing := _ |}).
  assert (Hon' : on_job (doing fr') = Some j)
    by (unfold fr'; cbn; by destruct (r =? 0)).
  assert (Hzero : cnt j fs = O).
  { pose proof (serial_cnt _ _ _ _ _ _ HPI Hj Hs). lia. }
  apply (PI_change cs qs (fr :: fs) tr j c); try done.
  - intros j' Hne. rewrite !cnt_cons, !(pend_cons _ _ fs).
    rewrite !(cnt1_other j' j), !(pend_other j' j) by done. done.
  - intros j' Hne. cbn. other_job.
  - intros t0 Ht (H1 & H2 & H3 & H4 & H5 & H6 & H7).
    assert (Hp : pend j (fr :: fs) = []).
    { rewrite pend_cons, (cnt_zero_pend j fs), app_nil_r by done.
      unfold pend. cbn. by rewrite Ha. }
    rewrite Hp in H3, H4.
    rewrite (pend_cons j fr' fs), (cnt_zero_pend j fs), app_nil_r by done.
    assert (Hcnt' : cnt j (fr' :: fs) = cnt j (fr :: fs))
      by (by rewrite !cnt_cons, !(cnt1_same j)).
    rewrite Hcnt'.
    rewrite results_app, indices_app, completed_iters_app.
    rewrite results_completed, completed_iters_completed, indices_completed.
    rewrite app_nil_r.
    assert (Hp' : pend j [fr'] = if r =? 0 then [] else [r]).
    { unfold fr', pend. cbn. destruct (Z.eqb_spec r 0) as [->|Hr]; cbn; [done|].
      rewrite decide_True by done. by destruct (Z.eqb_spec r 0). }
    rewrite Hp'.
    refine (conj H1 (conj H2 (conj _ (conj _ (conj _ (conj H6 _))))));
      core_simpl.
    + destruct (Z.eqb_spec r 0) as [->|Hr]; [|done].
      intros _. rewrite last_nonzero_snoc. by apply H3.
    + destruct (Z.eqb_spec r 0) as [->|Hr].
      * intros r' Hr'. by apply elem_of_nil in Hr'.
      * intros r' Hr'. apply list_elem_of_singleton in Hr' as ->.
        exists (results j tr). split; [done | by apply H3].
    + congruence.
    + rewrite Hs in *. lia.
  - intros Hin. exfalso.
    apply (working_serial_off_stack _ _ _ _ _ _ HPI Hj Hs); [lia | done].
  - constructor; [|by eapply Forall_frame_ok_evolve].
    split; [by eapply evolve_caller_ok|]. unfold doing_ok. rewrite Hon'.
    exists (advanced n c). split.
    + apply list_lookup_insert_eq. by eapply lookup_lt_Some.
    + unfold fr'. cbn. by destruct (r =? 0).
  - by constructor.
Qed.

(** A thread goes on inside the serial loop of a Job, without a status to
    record (line 189 and the way out of it). *)
Lemma PI_serial_step cs qs fs tr fr j n a evs :
  PI cs qs (fr :: fs) tr -> doing fr = Serial_claim j n ->
  (exists n', a = Serial_claim j n' \/ a = Serial_body j n')
  \/ a = Serial_done j 0 ->
  evs = [] \/ (exists m n', evs = [Dispatched j m n']) ->
  PI cs qs ({| who := who fr; doing := a |} :: fs) (tr ++ evs).
Proof.
  intros HPI Ha Hnew Hevs. pose proof HPI as [].
  pose proof pi_frames0 as Hall.
  apply list.Forall_cons in pi_frames0 as [[Hw Hd] Hfs].
  unfold doing_ok in Hd. rewrite Ha in Hd. cbn in Hd.
  destruct Hd as (c & Hj & Hs).
  assert (Hon : on_job (doing fr) = Some j) by (by rewrite Ha).
  set (fr' := {| who := who fr; doing := a |}).
  assert (Hon' : on_job (doing fr') = Some j).
  { unfold fr'. cbn. destruct Hnew as [[n' [-> | ->]] | ->]; done. }
  assert (Hp' : pend j [fr'] = []).
  { unfold fr', pend. cbn. destruct Hnew as [[n' [-> | ->]] | ->]; try done.
    cbn. by rewrite decide_True. }
  assert (Hp : pend j [fr] = []) by (unfold pend; cbn; by rewrite Ha).
  rewrite <- (list_insert_id cs j c) by done.
  apply (PI_change cs qs (fr :: fs) tr j c); try done.
  - rewrite list_insert_id by done. apply evolve_refl.
  - destruct Hevs as [-> | (m & n' & ->)]; done.
  - destruct Hevs as [-> | (m & n' & ->)]; done.
  - intros j' Hne. rewrite !cnt_cons, !(pend_cons _ _ fs).
    rewrite !(cnt1_other j' j), !(pend_other j' j) by done. done.
  - intros j' Hne. destruct Hevs as [-> | (m & n' & ->)]; [done|].
    cbn. other_job.
  - intros t0 Ht (H1 & H2 & H3 & H4 & H5 & H6 & H7).
    assert (Hcnt' : cnt j (fr' :: fs) = cnt j (fr :: fs))
      by (by rewrite !cnt_cons, !(cnt1_same j)).
    rewrite Hcnt'.
    rewrite (pend_cons j fr fs), Hp in H3, H4.
    rewrite (pend_cons j fr' fs), Hp'.
    assert (Hr : results j (tr ++ evs) = results j tr
                 /\ completed_iters j (tr ++ evs) = completed_iters j tr).
    { rewrite results_app, completed_iters_app.
      destruct Hevs as [-> | (m & n' & ->)]; cbn;
        rewrite ?app_nil_r, ?Z.add_0_r; done. }
    destruct Hr as [-> ->].
    refine (conj H1 (conj H2 (conj H3 (conj H4 (conj _ (conj H6 H7)))))).
    congruence.
  - intros Hin. exfalso.
    apply (working_serial_off_stack _ _ _ _ _ _ HPI Hj Hs); [|done].
    rewrite cnt_cons, (cnt1_same j) by done. lia.
  - rewrite list_insert_id by done. constructor; [|done].
    split; [done|]. unfold doing_ok. rewrite Hon'. exists c. split; [done|].
    unfold fr'. cbn. destruct Hnew as [[n' [-> | ->]] | ->]; done.
  - destruct Hevs as [-> | (m & n' & ->)]; [done | by constructor].
Qed.

(** A thread has left the serial loop of a Job: it puts the Job back and
    records the status (lines 201-207, 233-246). *)
Lemma PI_serial_finish cs qs fs tr fr j r :
  PI cs qs (fr :: fs) tr -> doing fr = Serial_done j r ->
  exists c,
    cs !! j = Some c
    /\ PI (<[j := left_ r c]> cs)
         (if c_extent c >? 0 then j :: qs else qs) fs tr
    /\ caller_ok (<[j := left_ r c]> cs) (who fr).
Proof.
  intros HPI Ha. pose proof HPI as [].
  pose proof pi_frames0 as Hall.
  apply list.Forall_cons in pi_frames0 as [[Hw Hd] Hfs].
  unfold doing_ok in Hd. rewrite Ha in Hd. cbn in Hd.
  destruct Hd as (c & Hj & Hs). exists c. split; [done|].
  assert (Hon : on_job (doing fr) = Some j) by (by rewrite Ha).
  assert (Hcnt : cnt j (fr :: fs) = S (cnt j fs))
    by (by rewrite cnt_cons, (cnt1_same j)).
  assert (Hev : evolve cs (<[j := left_ r c]> cs)).
  { apply (evolve_insert cs j c); [done..|].
    eapply working_not_finished; [done..|]. lia. }
  assert (Hzero : cnt j fs = O).
  { pose proof (serial_cnt _ _ _ _ _ _ HPI Hj Hs). lia. }
  assert (Hoff : j ∉ qs).
  { apply (working_serial_off_stack _ _ _ _ _ _ HPI Hj Hs). lia. }
  split; [|by eapply evolve_caller_ok].
  rewrite <- (app_nil_r tr).
  apply (PI_change cs qs (fr :: fs) tr j c); try done.
  - intros j' Hne. rewrite cnt_cons, pend_cons.
    rewrite (cnt1_other j' j), (pend_other j' j) by done. done.
  - intros t0 Ht (H1 & H2 & H3 & H4 & H5 & H6 & H7).
    rewrite Hcnt in *. rewrite app_nil_r.
    rewrite (pend_cons j fr fs), (cnt_zero_pend j fs), app_nil_r in H3, H4 by done.
    rewrite (cnt_zero_pend j fs) by done.
    refine (conj _ (conj H2 (conj _ (conj _ (conj _ (conj _ _))))));
      core_simpl.
    + lia.
    + intros _. unfold record_status.
      destruct (Z.eqb_spec r 0) as [->|Hr].
      * apply H3. unfold pend. cbn. by rewrite Ha, decide_True.
      * destruct (H4 r) as (rs' & -> & _).
        { unfold pend. cbn. rewrite Ha, decide_True by done.
          destruct (Z.eqb_spec r 0); [done|]. by apply list_elem_of_singleton. }
        rewrite last_nonzero_snoc. unfold record_status.
        by destruct (Z.eqb_spec r 0).
    + intros r' Hr'. by apply elem_of_nil in Hr'.
    + congruence.
    + lia.
    + rewrite Hs in *. lia.
  - destruct (_ >? _); [|done]. by apply list.NoDup_cons.
  - intros j' Hj' Hne. destruct (_ >? _); [|done].
    apply elem_of_cons in Hj' as [?|?]; done.
  - intros Hin. cbn. destruct (Z.gtb_spec (c_extent c) 0); [done|].
    done.
  - by eapply Forall_frame_ok_evolve.
Qed.

(** An activation that works on no Job is added or removed. *)
Lemma PI_add_idle cs qs fs tr fr :
  PI cs qs fs tr -> on_job (doing fr) = None -> caller_ok cs (who fr) ->
  PI cs qs (fr :: fs) tr.
Proof.
  intros HPI Hon Hw. apply (PI_frames cs qs fs); [done| |].
  - intros j. rewrite cnt_cons, pend_cons, (cnt1_none j), (pend_on_job j);
      [done | by apply cnt1_none | done].
  - constructor; [|by destruct HPI]. split; [done|].
    unfold doing_ok. by rewrite Hon.
Qed.

Lemma PI_remove_idle cs qs fs tr fr :
  PI cs qs (fr :: fs) tr -> on_job (doing fr) = None ->
  PI cs qs fs tr /\ caller_ok cs (who fr).
Proof.
  intros HPI Hon. pose proof HPI as [].
  apply list.Forall_cons in pi_frames0 as [[Hw Hd] Hfs].
  split; [|done]. apply (PI_frames cs qs (fr :: fs)); [done| |done].
  intros j. rewrite cnt_cons, pend_cons, (cnt1_none j), (pend_on_job j);
    [done | by apply cnt1_none | done].
Qed.

Lemma PI_add_idles cs qs fs tr fs' :
  PI cs qs fs tr ->
  Forall (fun fr => on_job (doing fr) = None /\ caller_ok cs (who fr)) fs' ->
  PI cs qs (fs ++ fs') tr.
Proof.
  intros HPI Hfs'. apply (PI_perm cs qs (fs' ++ fs)); [apply Permutation_app_comm|].
  induction Hfs' as [|fr fs' [H1 H2] _ IH]; [done|].
  by apply PI_add_idle.
Qed.

Lemma PI_alloc cs qs fs tr ncs ts e qs0 :
  PI cs qs fs tr ->
  Forall2 fresh_job ncs ts ->
  born [e] = ts ->
  match e with
  | Par_for_called j _ _ | Tasks_called j _ => j = length cs
  | _ => False
  end ->
  NoDup qs0 -> (forall j, j ∈ qs0 -> j ∈ qs) ->
  PI (cs ++ ncs) (seq (length cs) (length ncs) ++ qs0) fs (tr ++ [e]).
Proof.
  intros HPI Hnew Hborn He Hnd Hsub. pose proof HPI as [].
  assert (Hproj : forall j, results j [e] = [] /\ indices j [e] = []
                            /\ completed_iters j [e] = 0) by (by destruct e).
  assert (Hlen : length ncs = length ts) by (by eapply Forall2_length).
  assert (Hold : forall j, j ∈ qs0 -> (j < length cs)%nat).
  { intros j Hj. destruct (pi_queue0 j (Hsub j Hj)) as (c & Hc & _).
    by eapply lookup_lt_Some. }
  split.
  - rewrite born_app, Hborn, !length_app. lia.
  - apply numbered_app. split; [done|]. rewrite pi_born0. cbn.
    split; [by destruct e | done].
  - intros j Hj. rewrite length_app in Hj.
    destruct (pi_fresh0 j ltac:(lia)) as (H1 & H2 & H3).
    destruct (Hproj j) as (E1 & E2 & E3).
    by rewrite results_app, indices_app, completed_iters_app, H1, H2, H3, E1, E2, E3.
  - intros j c t0 Hj Ht. rewrite born_app, Hborn in Ht.
    destruct (Hproj j) as (E1 & E2 & E3).
    rewrite results_app, indices_app, completed_iters_app, E1, E2, E3.
    rewrite !app_nil_r, Z.add_0_r.
    destruct (decide (j < length cs)%nat) as [Hlt|Hge].
    + rewrite lookup_app_l in Hj by done.
      rewrite lookup_app_l in Ht by lia. by apply pi_jobs0.
    + rewrite lookup_app_r in Hj by lia.
      rewrite lookup_app_r in Ht by lia. rewrite pi_born0 in Ht.
      destruct (pi_fresh0 j ltac:(lia)) as (-> & -> & ->).
      rewrite (cnt_fresh cs fs j), (cnt_zero_pend j fs);
        [|apply (cnt_fresh cs)|..]; [|done|lia|done|lia].
      destruct (Forall2_lookup_lr _ _ _ _ _ _ Hnew Hj Ht)
        as (H1 & H2 & H3 & H4 & H5 & H6 & H7).
      unfold job_ok. rewrite H1, H2, H3, H4, H5.
      repeat split; try done; try lia.
      * intros r Hr. by apply elem_of_nil in Hr.
      * rewrite Z.sub_diag, Z.add_0_r. symmetry. by apply wrap_of_int.
      * by rewrite Z.sub_diag.
      * by destruct (serial t0); lia.
  - apply list.NoDup_app. split; [apply NoDup_seq|]. split; [|done].
    intros j Hj Hj'. apply elem_of_seq in Hj. apply Hold in Hj'. lia.
  - intros j Hj. apply elem_of_app in Hj as [Hj|Hj].
    + apply elem_of_seq in Hj.
      destruct (lookup_lt_is_Some_2 ncs (j - length cs)) as [c Hc]; [lia|].
      destruct (lookup_lt_is_Some_2 ts (j - length cs)) as [t Ht]; [lia|].
      destruct (Forall2_lookup_lr _ _ _ _ _ _ Hnew Hc Ht)
        as (H1 & H2 & H3 & H4 & H5 & H6).
      exists c. rewrite lookup_app_r by lia. split; [done|].
      split; [lia|]. intros _. apply (cnt_fresh cs); [done|lia].
    + destruct (pi_queue0 j (Hsub j Hj)) as (c & Hc & Hq).
      exists c. split; [by apply lookup_app_l_Some | done].
  - eapply Forall_frame_ok_evolve; [apply evolve_app | done].
  - apply Forall_app. split.
    + clear -pi_returns0. induction pi_returns0; constructor; [|done].
      eapply evolve_return_ok; [apply evolve_app | done].
    + constructor; [by destruct e | done].
Qed.

(** ** Preservation of the invariant: the functions of the pool *)

Lemma core_of_but_next_semaphore w :
  core_of (but_next_semaphore w) = core_of w.
Proof. done. Qed.

Lemma cores_but_next_semaphore (mem mem' : list work) :
  but_next_semaphore <$> mem' = but_next_semaphore <$> mem ->
  core_of <$> mem' = core_of <$> mem.
Proof.
  intros H.
  assert (E : forall m : list work,
             core_of <$> m = core_of <$> (but_next_semaphore <$> m)).
  { intros m. rewrite <- list_fmap_compose. by apply list_fmap_ext. }
  by rewrite (E mem'), (E mem), H.
Qed.

Lemma cores_alter (f : work -> work) (j : nat) (mem : list work) :
  (forall w, core_of (f w) = core_of w) ->
  core_of <$> alter f j mem = core_of <$> mem.
Proof.
  intros Hf. revert j.
  induction mem as [|w mem IH]; intros [|j]; cbn; [done..| |].
  - by rewrite Hf.
  - f_equal. apply IH.
Qed.

Lemma cores_lookup p j w :
  memory p !! j = Some w -> cores p !! j = Some (core_of w).
Proof. intros H. unfold cores. by rewrite list_lookup_fmap, H. Qed.

Lemma running_finished w : running w = false <-> finished (core_of w).
Proof.
  unfold running, finished. cbn.
  destruct (Z.eqb_spec (extent (task w)) 0), (Z.eqb_spec (active_workers w) 0);
    cbn; intuition congruence.
Qed.

Lemma exit_status_at_cores j p : exit_status_at j p = exit_at (cores p) j.
Proof.
  unfold exit_status_at, exit_at, cores. rewrite list_lookup_fmap.
  by destruct (memory p !! j).
Qed.

(** One pass of the dispatch loop. *)
Lemma pass_PI c p fs tr p' oa :
  PI (cores p) (jobs (work_queue p)) fs tr -> caller_ok (cores p) c ->
  extents_ok (cores p) ->
  worker_thread_already_locked (owned_job c) p = (p', oa) ->
  match oa with
  | Some a =>
      PI (cores p') (jobs (work_queue p'))
         ({| who := c; doing := a |} :: fs)
         (tr ++ dispatch_events {| who := c; doing := a |})
  | None => p' = p /\ loop_condition (owned_job c) p = false
  end.
Proof.
  intros HPI Hc Hints. unfold worker_thread_already_locked.
  destruct (loop_condition (owned_job c) p) eqn:Hloop;
    [|by intros [= <- <-]].
  pose proof (find_job_spec (owned_job c) (work_queue p) (jobs (work_queue p))
                O (memory p) (semaphore_values p)) as [Hmem Hfound].
  cbv zeta in *. set (r := find_job _ _ _ _ _ _) in *.
  apply cores_but_next_semaphore in Hmem.
  destruct (snd r) as [[k j]|] eqn:Hr.
  - destruct (Hfound k j eq_refl) as (i & job & -> & Hi & Hj & Ht & He).
    cbn [memory set_semaphore_values set_memory].
    assert (Hj' : (core_of <$> fst (fst r)) !! j = Some (core_of job)).
    { rewrite Hmem, list_lookup_fmap, Hj. done. }
    rewrite list_lookup_fmap in Hj'.
    destruct (fst (fst r) !! j) as [job'|] eqn:Hjob'; [|done].
    assert (Hcore : core_of job' = core_of job) by (cbn in Hj'; congruence).
    clear Hj'. intros [= <- <-].
    apply andb_prop in Ht as [_ Hser].
    unfold claim. cbn [set_active_workers task active_workers].
    assert (Hsj : serial (task job') = serial (task job))
      by (exact (f_equal c_serial Hcore)).
    assert (Haj : active_workers job' = active_workers job)
      by (exact (f_equal c_active Hcore)).
    destruct (serial (task job')) eqn:Hs.
    + cbn. unfold cores. cbn. rewrite list_fmap_insert, Hmem, app_nil_r.
      rewrite <- Hsj in Hser. cbn in Hser. apply Z.eqb_eq in Hser.
      apply (PI_claim_serial _ _ _ _ _ _ (core_of job')); try done.
      * rewrite Hcore. by apply cores_lookup.
      * cbn. lia.
    + assert (Hw : wrap (extent (task job') - 1) = extent (task job') - 1).
      { apply wrap_of_int.
        assert (He' : extent (task job') = extent (task job))
          by exact (f_equal c_extent Hcore).
        rewrite He'.
        unfold extents_ok in Hints. rewrite list.Forall_forall in Hints.
        pose proof (Hints _ (list_elem_of_lookup_2 _ _ _
                               (cores_lookup _ _ _ Hj))) as Hint.
        destruct HPI as [_ _ _ _ _ Hq _ _].
        destruct (Hq j) as (c' & Hc' & Hpos & _);
          [apply list_elem_of_lookup; eauto|].
        rewrite (cores_lookup _ _ _ Hj) in Hc'. injection Hc' as <-.
        cbn in Hpos, Hint. unfold is_int, INT_MIN, INT_MAX in *. lia. }
      cbn -[Z.eqb wrap]. rewrite Hw. unfold cores. cbn -[Z.eqb wrap].
      set (qs' := jobs _).
      assert (Hqs : qs' = if c_extent (claimed (core_of job')) =? 0
                          then delete i (jobs (work_queue p))
                          else jobs (work_queue p)).
      { unfold qs', claimed, core_of. cbn -[Z.eqb wrap].
        by destruct (extent (task job') - 1 =? 0). }
      rewrite Hqs, list_fmap_insert, Hmem.
      apply (PI_claim_parallel _ _ _ _ _ _ (core_of job')); try done.
      rewrite Hcore. by apply cores_lookup.
  - intros [= <- <-]. unfold go_to_sleep.
    destruct (owned_job c) as [o|] eqn:Ho.
    + cbn. rewrite app_nil_r. apply PI_add_idle; [|done|].
      * unfold cores. cbn. rewrite cores_alter by done. by rewrite Hmem.
      * unfold cores. cbn. rewrite cores_alter by done. by rewrite Hmem.
    + cbn -[Z.gtb]. destruct (_ >? _); cbn; rewrite app_nil_r;
        (apply PI_add_idle; [|done|]); unfold cores; cbn; by rewrite Hmem.
Qed.

Lemma exits_S cs jobs_ i :
  exits cs jobs_ (S i) = exits cs jobs_ i ++ [exit_at cs (jobs_ + i)%nat].
Proof. unfold exits. by rewrite seq_S, fmap_app. Qed.

Lemma loop_condition_finished p j :
  (j < length (cores p))%nat -> loop_condition (Some j) p = false ->
  finished_at (cores p) j.
Proof.
  intros Hlt Hloop. unfold loop_condition in Hloop. unfold cores in Hlt.
  rewrite length_fmap in Hlt.
  destruct (lookup_lt_is_Some_2 (memory p) j Hlt) as [w Hw].
  rewrite Hw in Hloop. exists (core_of w).
  split; [by apply cores_lookup | by apply running_finished].
Qed.

(** The join loop. *)
Lemma join_PI jobs_ n fs tr : forall todo i acc p,
  (i + todo = n)%nat ->
  PI (cores p) (jobs (work_queue p)) fs tr ->
  extents_ok (cores p) ->
  (jobs_ + n <= length (cores p))%nat ->
  (forall k, (k < i)%nat -> finished_at (cores p) (jobs_ + k)%nat) ->
  acc = last_nonzero (exits (cores p) jobs_ i) ->
  let r := join_tasks jobs_ n todo i acc p in
  match snd r with
  | inl fr =>
      PI (cores (fst r)) (jobs (work_queue (fst r))) (fr :: fs)
         (tr ++ dispatch_events fr)
  | inr v =>
      PI (cores (fst r)) (jobs (work_queue (fst r))) fs
         (tr ++ [Tasks_returned jobs_ n v])
  end.
Proof.
  induction todo as [|todo IH]; intros i acc p Hi HPI Hints Hlen Hfin Hacc;
    cbn zeta.
  - cbn. apply PI_return; [done| |done]. cbn.
    assert (i = n) as -> by lia. done.
  - cbn [join_tasks].
    destruct (worker_thread_already_locked (Some (jobs_ + i)%nat) p)
      as [p' oa] eqn:Hpass.
    assert (Hc : caller_ok (cores p) (Parallel_tasks jobs_ n i acc)).
    { cbn. repeat split; [lia|done..]. }
    pose proof (pass_PI (Parallel_tasks jobs_ n i acc) p fs tr p' oa HPI Hc
                  Hints Hpass) as Hres.
    cbn [fst snd]. destruct oa as [a|]; [done|].
    destruct Hres as [-> Hloop].
    apply IH; [lia|done|done|done| |].
    + intros k Hk. destruct (decide (k = i)) as [->|]; [|apply Hfin; lia].
      apply loop_condition_finished; [lia|done].
    + rewrite exits_S, last_nonzero_snoc, <- Hacc, exit_status_at_cores.
      unfold record_status. by destruct (_ =? 0).
Qed.

(** A thread goes on from the top of its dispatch loop. *)
Lemma resume_PI c p fs tr :
  PI (cores p) (jobs (work_queue p)) fs tr -> caller_ok (cores p) c ->
  extents_ok (cores p) ->
  let r := resume c p in
  match snd r with
  | inl fr =>
      PI (cores (fst r)) (jobs (work_queue (fst r))) (fr :: fs)
         (tr ++ dispatch_events fr)
  | inr v =>
      PI (cores (fst r)) (jobs (work_queue (fst r))) fs
         (tr ++ return_events c v)
  end.
Proof.
  intros HPI Hc Hints. cbn zeta. destruct c as [|j|jobs_ n i acc]; cbn [resume].
  - destruct (worker_thread_already_locked None p) as [p' oa] eqn:Hpass.
    pose proof (pass_PI Worker_thread p fs tr p' oa HPI Hc Hints Hpass) as Hres.
    cbn [fst snd]. destruct oa as [a|]; [done|].
    destruct Hres as [-> _]. cbn. rewrite app_nil_r. by apply PI_add_idle.
  - destruct (worker_thread_already_locked (Some j) p) as [p' oa] eqn:Hpass.
    pose proof (pass_PI (Par_for j) p fs tr p' oa HPI Hc Hints Hpass) as Hres.
    cbn [fst snd]. destruct oa as [a|]; [done|].
    destruct Hres as [-> Hloop]. cbn [fst snd return_events].
    apply PI_return; [done| |done]. cbn.
    destruct (loop_condition_finished p j Hc Hloop) as (c & Hj & Hf).
    exists c. rewrite exit_status_at_cores. unfold exit_at. rewrite Hj. done.
  - destruct Hc as (H1 & H2 & H3 & H4).
    apply (join_PI jobs_ n fs tr (n - i) i acc p); [lia|done..].
Qed.

Lemma finish_task_shape j r p w :
  memory p !! j = Some w ->
  cores (finish_task j r p) = <[j := left_ r (core_of w)]> (cores p)
  /\ work_queue (finish_task j r p) = work_queue p.
Proof.
  intros Hw. unfold finish_task. rewrite Hw.
  set (job2 := set_active_workers _ _).
  assert (E : core_of job2 = left_ r (core_of w)).
  { unfold job2, left_, core_of, record_status. cbn.
    by destruct (r =? 0). }
  destruct (_ && _); unfold cores; cbn; by rewrite list_fmap_insert, E.
Qed.

Lemma after_wait_shape o c p :
  cores (after_wait o c p) = cores p
  /\ jobs (work_queue (after_wait o c p)) = jobs (work_queue p)
  /\ settings (work_queue (after_wait o c p)) = settings (work_queue p).
Proof.
  unfold after_wait. destruct o as [o|].
  - unfold cores. cbn. by rewrite cores_alter.
  - by destruct c.
Qed.

Lemma serial_claim_step_shape j n p :
  let r := serial_claim_step j n p in
  cores (fst r) = cores p
  /\ work_queue (fst r) = work_queue p
  /\ ((exists n', snd r = Serial_claim j n' \/ snd r = Serial_body j n')
      \/ snd r = Serial_done j 0).
Proof.
  cbn zeta. unfold serial_claim_step.
  destruct (memory p !! j) as [job|] eqn:Hj; [|cbn; auto].
  destruct (_ >? _).
  - assert (Hc : forall k, core_of <$> <[j := set_next_semaphore k job]> (memory p)
                           = core_of <$> memory p).
    { intros k. by apply (fmap_insert_same _ _ _ job). }
    destruct (snd (make_runnable _ _)); [|destruct (n =? 0)]; unfold cores; cbn;
      rewrite Hc; eauto 6.
  - destruct (n =? 0); cbn; eauto 6.
Qed.

Lemma serial_body_return_shape j n r p w :
  memory p !! j = Some w ->
  is_int (extent (task w) - n) ->
  let x := serial_body_return j n r p in
  cores (fst x) = <[j := advanced n (core_of w)]> (cores p)
  /\ work_queue (fst x) = work_queue p
  /\ snd x = if r =? 0 then Serial_claim j 0 else Serial_done j r.
Proof.
  intros Hw Hint. cbn zeta. unfold serial_body_return. rewrite Hw.
  cbn -[wrap]. unfold cores. cbn -[wrap].
  rewrite list_fmap_insert. unfold advanced, core_of. cbn -[wrap].
  by rewrite (wrap_of_int _ Hint).
Qed.

(** [serial_body_return] changes one Job at most. *)
Lemma serial_body_return_cores j n r p w :
  memory p !! j = Some w ->
  exists c', cores (fst (serial_body_return j n r p)) = <[j := c']> (cores p).
Proof.
  intros Hw. unfold serial_body_return. rewrite Hw. cbn -[wrap].
  unfold cores. cbn -[wrap]. rewrite list_fmap_insert. eauto.
Qed.

Lemma serial_put_back_shape j p w :
  memory p !! j = Some w ->
  cores (serial_put_back j p) = cores p
  /\ memory (serial_put_back j p) = memory p
  /\ jobs (work_queue (serial_put_back j p))
     = (if c_extent (core_of w) >? 0 then j :: jobs (work_queue p)
        else jobs (work_queue p))
  /\ settings (work_queue (serial_put_back j p)) = settings (work_queue p).
Proof.
  intros Hw. unfold serial_put_back. rewrite Hw. cbn -[Z.gtb].
  by destruct (_ >? 0).
Qed.

Lemma pass_settings o p :
  settings (work_queue (fst (worker_thread_already_locked o p)))
  = settings (work_queue p).
Proof.
  unfold worker_thread_already_locked.
  destruct (loop_condition o p); [|done]. cbv zeta.
  destruct (snd (find_job _ _ _ _ _ _)) as [[k j]|].
  - cbn [memory set_semaphore_values set_memory].
    destruct (_ !! j) as [job|]; [|done].
    unfold claim. cbn -[Z.eqb]. destruct (serial (task job)); [done|].
    cbn -[Z.eqb]. by destruct (_ =? 0).
  - unfold go_to_sleep. destruct o; [done|].
    cbn -[Z.gtb]. by destruct (_ >? _).
Qed.

Lemma join_settings jobs_ n : forall todo i acc p,
  settings (work_queue (fst (join_tasks jobs_ n todo i acc p)))
  = settings (work_queue p).
Proof.
  induction todo as [|todo IH]; intros i acc p; [done|].
  cbn [join_tasks].
  pose proof (pass_settings (Some (jobs_ + i)%nat) p) as Hp.
  destruct (worker_thread_already_locked _ p) as [p' [a|]]; cbn in *; [done|].
  by rewrite IH.
Qed.

Lemma resume_settings c p :
  settings (work_queue (fst (resume c p))) = settings (work_queue p).
Proof.
  destruct c as [|j|jobs_ n i acc]; cbn [resume].
  - apply pass_settings.
  - pose proof (pass_settings (Some j) p) as Hp.
    by destruct (worker_thread_already_locked _ p) as [p' [a|]].
  - apply join_settings.
Qed.

(** The enqueue protocol. *)
Lemma spawn_threads_shape fuel m : forall nt q q' k,
  spawn_threads fuel m nt q = Ok (q', k) ->
  jobs q' = jobs q /\ settings q' = settings q.
Proof.
  induction fuel as [|fuel IH]; intros nt q q' k; cbn [spawn_threads].
  - destruct (spawn_more m q); by intros [= <- <-].
  - destruct (spawn_more m q); [|by intros [= <- <-]].
    unfold spawn_thread. destruct (_ && _); [|done].
    set (q1 := Build_work_queue_t _ _ _ _ _ _ _ _ _ _).
    destruct (spawn_threads fuel m (S nt) q1) as [[q2 k2]|] eqn:Hrec; [|done].
    intros [= <- <-]. destruct (IH _ _ _ _ Hrec) as [-> ->]. done.
Qed.

Lemma push_jobs_shape jobs_ pid : forall num stack mem,
  fst (push_jobs jobs_ pid num stack mem) = seq jobs_ num ++ stack
  /\ core_of <$> snd (push_jobs jobs_ pid num stack mem) = core_of <$> mem.
Proof.
  induction num as [|i IH]; intros stack mem; [done|].
  cbn [push_jobs]. destruct (IH ((jobs_ + i)%nat :: stack)
                               (alter (set_parent (Some pid)) (jobs_ + i)%nat mem))
    as [-> ->].
  split.
  - rewrite seq_S, <- app_assoc. done.
  - by apply cores_alter.
Qed.

Lemma wake_up_threads_shape b p :
  cores (wake_up_threads b p) = cores p
  /\ jobs (work_queue (wake_up_threads b p)) = jobs (work_queue p)
  /\ settings (work_queue (wake_up_threads b p)) = settings (work_queue p).
Proof.
  unfold wake_up_threads. cbv zeta.
  destruct (_ || _), (stealable_jobs b); cbn -[Z.gtb];
    destruct (_ >? _); done.
Qed.

Lemma clamp_num_threads_range x : 1 <= clamp_num_threads x <= MAX_THREADS.
Proof.
  unfold clamp_num_threads, MAX_THREADS.
  destruct (Z.gtb_spec x 256); [lia|]. destruct (Z.ltb_spec x 1); lia.
Qed.

Lemma lazy_initialize_shape env q :
  (jobs (lazy_initialize env q) = jobs q \/ jobs (lazy_initialize env q) = [])
  /\ initialized (lazy_initialize env q) = true
  /\ ((initialized q = true ->
       1 <= desired_threads_working q <= MAX_THREADS) ->
      1 <= desired_threads_working (lazy_initialize env q) <= MAX_THREADS).
Proof.
  unfold lazy_initialize. destruct (initialized q) eqn:Hi; cbn.
  - auto.
  - split; [auto|]. split; [done|]. intros _. apply clamp_num_threads_range.
Qed.

Lemma enqueue_shape env nt pid n jobs_ p p' sp :
  enqueue_work_already_locked env nt pid n jobs_ p = Ok (p', sp) ->
  cores p' = cores p
  /\ (exists qs0, jobs (work_queue p') = seq jobs_ n ++ qs0
                  /\ (qs0 = jobs (work_queue p) \/ qs0 = []))
  /\ initialized (work_queue p') = true
  /\ ((initialized (work_queue p) = true ->
       1 <= desired_threads_working (work_queue p) <= MAX_THREADS) ->
      1 <= desired_threads_working (work_queue p') <= MAX_THREADS).
Proof.
  unfold enqueue_work_already_locked. cbv zeta.
  set (q0 := lazy_initialize env (work_queue p)).
  set (b := gather _).
  destruct (spawn_threads _ _ nt q0) as [[q1 k]|] eqn:Hsp; [|done].
  intros [= <- <-].
  destruct (spawn_threads_shape _ _ _ _ _ _ Hsp) as [Hj Hset].
  destruct (push_jobs_shape jobs_ pid n (jobs q1) (memory p)) as [Hp1 Hp2].
  set (p1 := set_memory _ _).
  destruct (wake_up_threads_shape b p1) as (-> & -> & Hw).
  destruct (lazy_initialize_shape env (work_queue p)) as (Hq & Hinit & Hd).
  fold q0 in Hq, Hinit, Hd.
  assert (Hs1 : settings (work_queue p1) = settings q0) by (by rewrite <- Hset).
  split; [by unfold cores, p1; cbn|]. split.
  - exists (jobs q0). unfold p1. cbn. rewrite Hp1, Hj. done.
  - unfold settings in *.
    assert (initialized (work_queue (wake_up_threads b p1)) = initialized q0)
      as -> by congruence.
    assert (desired_threads_working (work_queue (wake_up_threads b p1))
            = desired_threads_working q0) as -> by congruence.
    done.
Qed.

(** ** Preservation of the invariant: the entry points *)

Lemma copy_tasks_built uc : forall fuel i n tasks slots,
  Forall (fun x => forall w, x = Some w -> built uc w) slots ->
  Forall (fun x => forall w, x = Some w -> built uc w)
    (snd (copy_tasks fuel uc i n tasks slots)).
Proof.
  induction fuel as [|fuel IH]; intros i n tasks slots Hs; cbn [copy_tasks].
  - by destruct (i <? n).
  - destruct (i <? n); [|done]. destruct tasks as [|t rest]; [done|].
    destruct (Z.leb_spec (extent t) 0); [by apply IH|].
    apply IH. apply Forall_insert; [done|].
    intros w [= <-]. by exists t.
Qed.

Lemma read_jobs_built uc : forall slots i js,
  Forall (fun x => forall w, x = Some w -> built uc w) slots ->
  read_jobs i slots = Ok js -> Forall (built uc) js.
Proof.
  induction slots as [|x slots IH]; intros i js Hs; cbn [read_jobs].
  - intros [= <-]. constructor.
  - apply list.Forall_cons in Hs as [Hx Hs]. destruct x as [w|]; [|done].
    destruct (read_jobs (S i) slots) as [js'|] eqn:Hr; [|done].
    intros [= <-]. constructor; [by apply Hx | by eapply IH].
Qed.


Lemma built_fresh uc js :
  Forall (built uc) js -> Forall (fun w => int_task (task w) = true) js ->
  Forall2 fresh_job (core_of <$> js) (task <$> js).
Proof.
  induction 1 as [|w js (t & -> & Ht) _ IH]; intros Hint; [constructor|].
  apply list.Forall_cons in Hint as [Hi Hint]. constructor; [|by apply IH].
  unfold fresh_job. cbn. apply int_task_spec in Hi as (? & _). done.
Qed.

Lemma extents_ok_insert cs j c c' :
  cs !! j = Some c -> c_extent c' = c_extent c -> extents_ok cs ->
  extents_ok (<[j := c']> cs).
Proof.
  intros Hj He Hcs. apply Forall_insert; [done|]. rewrite He.
  unfold extents_ok in Hcs. rewrite list.Forall_forall in Hcs.
  apply Hcs. by eapply list_elem_of_lookup_2.
Qed.

Lemma extents_ok_new js :
  Forall (fun w => int_task (task w) = true) js ->
  extents_ok (core_of <$> js).
Proof.
  intros H. apply Forall_fmap. induction H as [|w js Hw _ IH]; constructor;
    [|done].
  by apply int_task_spec in Hw as (_ & ? & _).
Qed.

(** Jobs are built at the next free addresses and enqueued. *)
Lemma submit_PI env nt pid js p p2 sp fs tr e :
  PI (cores p) (jobs (work_queue p)) fs tr ->
  Forall2 fresh_job (core_of <$> js) (born [e]) ->
  match e with
  | Par_for_called j _ _ | Tasks_called j _ => j = length (memory p)
  | _ => False
  end ->
  enqueue_work_already_locked env nt pid (length js) (length (memory p))
    (set_memory (memory p ++ js) p) = Ok (p2, sp) ->
  PI (cores p2) (jobs (work_queue p2)) fs (tr ++ [e])
  /\ length (cores p2) = (length (memory p) + length js)%nat
  /\ cores p2 = cores p ++ (core_of <$> js).
Proof.
  intros HPI Hnew He Henq.
  destruct (enqueue_shape _ _ _ _ _ _ _ _ Henq)
    as (Hc & (qs0 & Hq & Hq0) & _).
  unfold cores in Hc at 2. cbn in Hc. rewrite fmap_app in Hc.
  rewrite Hc, Hq. split; [|by rewrite length_app, !length_fmap].
  replace (length (memory p)) with (length (cores p))
    by (unfold cores; by rewrite length_fmap).
  replace (length js) with (length (core_of <$> js)) by (by rewrite length_fmap).
  apply (PI_alloc (cores p) (jobs (work_queue p)) fs tr (core_of <$> js)
           (born [e]) e qs0); try done.
  - unfold cores. rewrite length_fmap. done.
  - destruct Hq0 as [-> | ->]; [by destruct HPI | constructor].
  - intros j Hj. destruct Hq0 as [-> | ->]; [done|]. by apply elem_of_nil in Hj.
Qed.

(** ** Preservation of the invariant: the steps of the system *)

Lemma frames_split (stacks_ : list (list frame)) t st :
  stacks_ !! t = Some st ->
  exists others,
    concat stacks_ ≡ₚ st ++ others
    /\ forall st' extra,
         concat (<[t := st']> stacks_ ++ extra) ≡ₚ st' ++ others ++ concat extra.
Proof.
  intros Ht. exists (concat (take t stacks_) ++ concat (drop (S t) stacks_)).
  assert (Hlt : (t < length stacks_)%nat) by (by eapply lookup_lt_Some).
  split.
  - rewrite <- (take_drop_middle stacks_ t st Ht) at 1.
    rewrite concat_app. cbn. rewrite Permutation_app_swap_app. done.
  - intros st' extra. rewrite insert_take_drop by done.
    rewrite !concat_app. cbn. rewrite <- !app_assoc.
    rewrite (Permutation_app_swap_app (concat (take t stacks_)) st'). done.
Qed.

Lemma workers_idle cs n :
  Forall (fun fr => on_job (doing fr) = None /\ caller_ok cs (who fr))
    (concat (replicate n new_worker)).
Proof. induction n as [|n IH]; cbn; [constructor | by constructor]. Qed.

Lemma settle_PI s t below c p sp r evs others :
  (forall st' extra,
     concat (<[t := st']> (stacks s) ++ extra) ≡ₚ st' ++ others ++ concat extra) ->
  match r with
  | inl fr =>
      PI (cores p) (jobs (work_queue p)) (fr :: below ++ others)
         ((trace s ++ evs) ++ dispatch_events fr)
  | inr v =>
      PI (cores p) (jobs (work_queue p)) (below ++ others)
         ((trace s ++ evs) ++ return_events c v)
  end ->
  PI_state (settle t below c p sp r evs s).
Proof.
  intros Hsplit HPI. unfold PI_state, settle. cbn [shared stacks trace].
  rewrite app_assoc.
  eapply PI_perm; [symmetry; apply Hsplit|].
  rewrite app_assoc. apply PI_add_idles; [|apply workers_idle].
  by destruct r.
Qed.

Lemma go_on_PI s t fr below others p evs :
  (forall st' extra,
     concat (<[t := st']> (stacks s) ++ extra) ≡ₚ st' ++ others ++ concat extra) ->
  PI (cores p) (jobs (work_queue p)) (below ++ others) (trace s ++ evs) ->
  caller_ok (cores p) (who fr) ->
  extents_ok (cores p) ->
  PI_state (go_on t fr below p evs s).
Proof.
  intros Hsplit HPI Hc Hints. unfold go_on.
  apply (settle_PI _ _ _ _ _ _ _ _ others); [done|].
  pose proof (resume_PI (who fr) p _ _ HPI Hc Hints) as H. cbn zeta in H.
  by destruct (snd (resume (who fr) p)).
Qed.

Lemma stay_PI s t fr below others r evs :
  (forall st' extra,
     concat (<[t := st']> (stacks s) ++ extra) ≡ₚ st' ++ others ++ concat extra) ->
  PI (cores (fst r)) (jobs (work_queue (fst r)))
     ({| who := who fr; doing := snd r |} :: below ++ others)
     (trace s ++ evs) ->
  PI_state (stay t fr below r evs s).
Proof.
  intros Hsplit HPI. unfold PI_state, stay. cbn [shared stacks trace].
  eapply PI_perm; [|exact HPI].
  rewrite <- (app_nil_r (<[t := _]> (stacks s))).
  rewrite Hsplit. cbn. by rewrite app_nil_r.
Qed.

Lemma with_shared_PI s p :
  cores p = cores (shared s) ->
  jobs (work_queue p) = jobs (work_queue (shared s)) ->
  PI_state s -> PI_state (with_shared p s).
Proof. unfold PI_state. cbn. by intros -> ->. Qed.

Lemma enter_PI s t stack others called r s' c0 :
  PI_state s ->
  concat (stacks s) ≡ₚ stack ++ others ->
  (forall st' extra,
     concat (<[t := st']> (stacks s) ++ extra) ≡ₚ st' ++ others ++ concat extra) ->
  (forall p sp c js x, r = Ok (p, sp, Submitted c js x) ->
     Forall (fun w => int_task (task w) = true) js ->
     c = c0 js
     /\ exists p2,
          x = snd (resume c p2) /\ p = fst (resume c p2)
          /\ caller_ok (cores p2) c
          /\ extents_ok (cores p2)
          /\ PI (cores p2) (jobs (work_queue p2)) (concat (stacks s))
               (trace s ++ called js)) ->
  (forall p sp v, r = Ok (p, sp, Nothing_to_do v) -> p = shared s) ->
  enter t stack called r s = Some s' ->
  PI_state s'.
Proof.
  intros HPI Hperm Hsplit Hsub Hnone. unfold enter.
  destruct r as [[[p sp] [v|c js x]]|u]; [| |done].
  - intros [= <-]. rewrite (Hnone p sp v eq_refl).
    by apply with_shared_PI.
  - destruct (forallb _ js) eqn:Hg; [|done]. apply forallb_Forall in Hg.
    intros [= <-].
    destruct (Hsub p sp c js x eq_refl Hg)
      as (-> & p2 & -> & -> & Hc & Hints & HPI2).
    apply (settle_PI _ _ _ _ _ _ _ _ others); [done|].
    apply (PI_perm _ _ _ (stack ++ others)) in HPI2; [|done].
    pose proof (resume_PI (c0 js) p2 _ _ HPI2 Hc Hints) as H. cbn zeta in H.
    by destruct (snd (resume (c0 js) p2)).
Qed.

Lemma par_for_job_fresh uc f m size cl :
  0 < size -> is_int m ->
  Forall2 fresh_job [core_of (par_for_job uc f m size cl)]
    (born [Par_for_called O m size]).
Proof. intros H Hm. constructor; [|constructor]. unfold fresh_job. cbn. done. Qed.

(** Every step of the system preserves the invariant. *)
Lemma exec_PI a s s' :
  PI_state s -> ints_ok s -> exec a s = Some s' -> PI_state s'.
Proof.
  intros HPI (Hext & Hiters & _). destruct a; cbn [exec].
  - (* New_thread *)
    intros [= <-]. unfold PI_state. cbn.
    rewrite concat_app. cbn. by rewrite app_nil_r.
  - (* Call_par_for *)
    destruct (stacks s !! t) as [stack|] eqn:Ht; [|done].
    destruct (in_user_code stack); [|done].
    destruct (frames_split _ _ _ Ht) as (others & Hperm & Hsplit).
    apply (enter_PI s t stack others _ _ s'
             (fun _ => Par_for (length (memory (shared s))))); try done.
    + intros p sp c js x. unfold halide_default_do_par_for.
      destruct (Z.leb_spec size 0) as [|Hsize]; [done|]. cbv zeta.
      destruct (enqueue_work_already_locked _ _ _ _ _ _) as [[p2 sp2]|] eqn:Henq;
        [|done].
      intros [= <- <- <- <- <-] Hg. split; [done|]. exists p2.
      assert (Hm : is_int min_).
      { apply list.Forall_cons in Hg as [Hg _].
        by apply int_task_spec in Hg as (? & _). }
      destruct (submit_PI _ _ _ [_] _ _ _ _ _
                  (Par_for_called (length (memory (shared s))) min_ size)
                  HPI (par_for_job_fresh _ _ _ _ _ Hsize Hm) eq_refl Henq)
        as (HPI2 & Hlen & Hcs).
      split; [reflexivity|]. split; [reflexivity|].
      split; [cbn in *; lia|]. split; [|done].
      rewrite Hcs. apply Forall_app. split; [done | by apply extents_ok_new].
    + intros p sp v. unfold halide_default_do_par_for.
      destruct (size <=? 0); [by intros [= <- _ _]|]. cbv zeta.
      by destruct (enqueue_work_already_locked _ _ _ _ _ _) as [[p2 sp2]|].
  - (* Call_parallel_tasks *)
    destruct (stacks s !! t) as [stack|] eqn:Ht; [|done].
    destruct (in_user_code stack); [|done].
    destruct (frames_split _ _ _ Ht) as (others & Hperm & Hsplit).
    apply (enter_PI s t stack others _ _ s'
             (fun js => Parallel_tasks (length (memory (shared s))) (length js)
                          O 0)); try done.
    + intros p sp c js x. unfold halide_default_do_parallel_tasks. cbv zeta.
      set (copied := copy_tasks _ _ _ _ _ _).
      destruct (fst copied =? 0); [done|].
      destruct (read_jobs _ _) as [js'|] eqn:Hread; [|done].
      destruct (enqueue_work_already_locked _ _ _ _ _ _) as [[p2 sp2]|] eqn:Henq;
        [|done].
      intros [= <- <- <- <- <-] Hg. split; [done|]. exists p2.
      assert (Hbuilt : Forall (built user_context_) js').
      { eapply read_jobs_built; [|exact Hread]. apply Forall_take.
        apply copy_tasks_built. apply Forall_replicate. done. }
      assert (Hfresh : Forall2 fresh_job (core_of <$> js')
                (born [Tasks_called (length (memory (shared s))) (task <$> js')])).
      { cbn. rewrite app_nil_r. by eapply built_fresh. }
      destruct (submit_PI _ _ _ js' _ _ _ _ _
                  (Tasks_called (length (memory (shared s))) (task <$> js'))
                  HPI Hfresh eq_refl Henq) as (HPI2 & Hlen & Hcs).
      cbn [resume]. rewrite Nat.sub_0_r.
      split; [reflexivity|]. split; [reflexivity|]. split; [|split; [|done]].
      * refine (conj _ (conj _ (conj _ _))); [lia|lia| |reflexivity].
        intros k Hk. lia.
      * rewrite Hcs. apply Forall_app. split; [done | by apply extents_ok_new].
    + intros p sp v. unfold halide_default_do_parallel_tasks. cbv zeta.
      destruct (_ =? 0); [by intros [= <- _ _]|].
      destruct (read_jobs _ _) as [js'|]; [|done].
      by destruct (enqueue_work_already_locked _ _ _ _ _ _) as [[p2 sp2]|].
  - (* Start *)
    destruct (stacks s !! t) as [[|fr below]|] eqn:Ht; try done.
    destruct (doing fr) eqn:Ha; try done. intros [= <-].
    destruct (frames_split _ _ _ Ht) as (others & Hperm & Hsplit).
    apply (PI_perm _ _ _ _ _ Hperm) in HPI. cbn [app] in HPI.
    destruct (PI_remove_idle _ _ _ _ _ HPI) as [H1 H2]; [by rewrite Ha|].
    apply (go_on_PI _ _ _ _ others); [done| |done..]. by rewrite app_nil_r.
  - (* Wake_up *)
    destruct (stacks s !! t) as [[|fr below]|] eqn:Ht; try done.
    destruct (doing fr) eqn:Ha; try done. intros [= <-].
    destruct (frames_split _ _ _ Ht) as (others & Hperm & Hsplit).
    apply (PI_perm _ _ _ _ _ Hperm) in HPI. cbn [app] in HPI.
    destruct (PI_remove_idle _ _ _ _ _ HPI) as [H1 H2]; [by rewrite Ha|].
    destruct (after_wait_shape (owned_job (who fr)) c (shared s))
      as (Hc & Hq & _).
    apply (go_on_PI _ _ _ _ others); [done| | |].
    + rewrite app_nil_r, Hc, Hq. done.
    + by rewrite Hc.
    + by rewrite Hc.
  - (* Task_returns *)
    destruct (stacks s !! t) as [[|fr below]|] eqn:Ht; try done.
    destruct (frames_split _ _ _ Ht) as (others & Hperm & Hsplit).
    pose proof Hiters as Hit. rewrite Hperm in Hit.
    apply list.Forall_cons in Hit as [Hit _].
    apply (PI_perm _ _ _ _ _ Hperm) in HPI. cbn [app] in HPI.
    destruct (doing fr) eqn:Ha; try done; intros [= <-].
    + destruct (PI_finish_parallel _ _ _ _ _ _ _ result HPI Ha)
        as (c & Hj & H1 & H2).
      pose proof Hj as Hjc. unfold cores in Hj. rewrite list_lookup_fmap in Hj.
      destruct (memory (shared s) !! job) as [w|] eqn:Hw; [|done].
      assert (c = core_of w) as -> by (cbn in Hj; congruence).
      destruct (finish_task_shape job result _ w Hw) as [Hc Hq].
      apply (go_on_PI _ _ _ _ others); [done| | |].
      * rewrite Hc, Hq. done.
      * by rewrite Hc.
      * rewrite Hc. by eapply extents_ok_insert.
    + destruct (PI_serial_return _ _ _ _ _ _ _ result HPI Ha)
        as (c & Hj & H1).
      pose proof Hj as Hjc. unfold cores in Hj. rewrite list_lookup_fmap in Hj.
      destruct (memory (shared s) !! job) as [w|] eqn:Hw; [|done].
      assert (c = core_of w) as -> by (cbn in Hj; congruence).
      assert (Hint : is_int (extent (task w) - iters)).
      { unfold iters_ok in Hit. rewrite Ha in Hit.
        destruct Hit as (c' & Hc' & Hb). rewrite Hjc in Hc'.
        injection Hc' as <-. cbn in Hb.
        unfold extents_ok in Hext. rewrite list.Forall_forall in Hext.
        pose proof (Hext _ (list_elem_of_lookup_2 _ _ _ Hjc)) as He.
        cbn in He. unfold is_int, INT_MIN, INT_MAX in *. lia. }
      destruct (serial_body_return_shape job iters result _ w Hw Hint)
        as (Hc & Hq & Hx).
      apply (stay_PI _ _ _ _ others); [done|].
      rewrite Hc, Hq, Hx. done.
  - (* Serial_step *)
    destruct (stacks s !! t) as [[|fr below]|] eqn:Ht; try done.
    destruct (frames_split _ _ _ Ht) as (others & Hperm & Hsplit).
    apply (PI_perm _ _ _ _ _ Hperm) in HPI. cbn [app] in HPI.
    destruct (doing fr) eqn:Ha; try done; intros [= <-].
    + destruct (serial_claim_step_shape job iters (shared s))
        as (Hc & Hq & Hx).
      apply (stay_PI _ _ _ _ others); [done|].
      rewrite Hc, Hq.
      apply (PI_serial_step _ _ _ _ _ job iters); [done..|].
      destruct (snd (serial_claim_step job iters (shared s))); eauto.
    + destruct (PI_serial_finish _ _ _ _ _ _ _ HPI Ha) as (c & Hj & H1 & H2).
      pose proof Hj as Hjc. unfold cores in Hj. rewrite list_lookup_fmap in Hj.
      destruct (memory (shared s) !! job) as [w|] eqn:Hw; [|done].
      assert (c = core_of w) as -> by (cbn in Hj; congruence).
      destruct (serial_put_back_shape job _ w Hw) as (Hc1 & Hm & Hq1 & _).
      rewrite <- Hm in Hw.
      destruct (finish_task_shape job result _ w Hw) as [Hc Hq].
      apply (go_on_PI _ _ _ _ others); [done| | |].
      * rewrite app_nil_r, Hc, Hq, Hc1, Hq1. done.
      * by rewrite Hc, Hc1.
      * rewrite Hc, Hc1. by eapply extents_ok_insert.
  - (* Set_num_threads *) intros [= <-]. by apply with_shared_PI.
  - (* Semaphore_init *) intros [= <-]. by apply with_shared_PI.
  - (* Semaphore_release *)
    cbv zeta. intros [= <-]. apply with_shared_PI; [| |done];
      by destruct (_ =? n).
  - (* Semaphore_try_acquire *) intros [= <-]. by apply with_shared_PI.
  - (* Shutdown_begin *)
    destruct (initialized _); [|done]. intros [= <-]. by apply with_shared_PI.
  - (* Shutdown_join *)
    destruct (_ && _); [|done]. intros [= <-]. by apply with_shared_PI.
Qed.

(** ** The desired number of threads *)

Lemma enqueued_app tr tr' : enqueued (tr ++ tr') = enqueued tr || enqueued tr'.
Proof. apply existsb_app. Qed.

Lemma enqueued_dispatch_events fr : enqueued (dispatch_events fr) = false.
Proof. unfold dispatch_events. by destruct (doing fr). Qed.

Lemma enqueued_return_events c v : enqueued (return_events c v) = false.
Proof. by destruct c. Qed.

Lemma enqueued_settle t below c p sp r evs s :
  enqueued (trace (settle t below c p sp r evs s))
  = enqueued (trace s) || enqueued evs.
Proof.
  unfold settle. cbn [trace]. rewrite !enqueued_app.
  destruct r;
    by rewrite ?enqueued_dispatch_events, ?enqueued_return_events, orb_false_r.
Qed.

Lemma desired_keep s s' :
  settings (work_queue (shared s')) = settings (work_queue (shared s)) ->
  enqueued (trace s') = enqueued (trace s) ->
  desired_ok s -> desired_ok s'.
Proof.
  unfold desired_ok, settings. cbv zeta. intros [= -> ->] ->. done.
Qed.

Lemma desired_go_on t fr below p evs s :
  settings (work_queue p) = settings (work_queue (shared s)) ->
  enqueued evs = false ->
  desired_ok s -> desired_ok (go_on t fr below p evs s).
Proof.
  intros Hs Hb. apply desired_keep.
  - unfold go_on. cbn [shared settle]. by rewrite resume_settings.
  - unfold go_on. by rewrite enqueued_settle, Hb, orb_false_r.
Qed.

Lemma desired_enter t stack called r s s' :
  (forall p sp c js x, r = Ok (p, sp, Submitted c js x) ->
     initialized (work_queue p) = true /\ in_range (work_queue p)) ->
  (forall p sp v, r = Ok (p, sp, Nothing_to_do v) -> p = shared s) ->
  desired_ok s -> enter t stack called r s = Some s' -> desired_ok s'.
Proof.
  intros Hsub Hnone Hd. unfold enter.
  destruct r as [[[p sp] [v|c js x]]|u]; [| |done].
  - intros [= <-]. rewrite (Hnone p sp v eq_refl). by destruct s.
  - destruct (forallb _ js); [|done].
    intros [= <-]. destruct (Hsub p sp c js x eq_refl) as [_ H].
    intros _. exact H.
Qed.

Lemma enqueue_in_range env nt pid n jobs_ p p' sp c s :
  desired_ok s -> p = shared s \/ work_queue p = work_queue (shared s) ->
  enqueue_work_already_locked env nt pid n jobs_ p = Ok (p', sp) ->
  initialized (work_queue (fst (resume c p'))) = true
  /\ in_range (work_queue (fst (resume c p'))).
Proof.
  intros Hd Hp Henq.
  destruct (enqueue_shape _ _ _ _ _ _ _ _ Henq) as (_ & _ & Hi & Hr).
  pose proof (resume_settings c p') as Hs. unfold settings in Hs.
  injection Hs as Hs1 Hs2. unfold in_range. rewrite Hs1, Hs2.
  split; [done|]. apply Hr. intros Hinit.
  assert (Hq : work_queue p = work_queue (shared s))
    by (destruct Hp as [-> | ->]; done).
  rewrite Hq in *. apply Hd. by left.
Qed.

Lemma exec_desired a s s' : desired_ok s -> exec a s = Some s' -> desired_ok s'.
Proof.
  intros Hd. destruct a; cbn [exec].
  - intros [= <-]. by apply (desired_keep s).
  - destruct (stacks s !! t) as [stack|]; [|done].
    destruct (in_user_code stack); [|done].
    apply desired_enter; [| |done].
    + intros p sp c js x. unfold halide_default_do_par_for.
      destruct (size <=? 0); [done|]. cbv zeta.
      destruct (enqueue_work_already_locked _ _ _ _ _ _) as [[p2 sp2]|] eqn:Henq;
        [|done].
      intros [= <- <- <- <- <-].
      exact (enqueue_in_range _ _ _ _ _
               (set_memory (memory (shared s) ++ _) (shared s)) _ _
               (Par_for (length (memory (shared s)))) s Hd
               (or_intror eq_refl) Henq).
    + intros p sp v. unfold halide_default_do_par_for.
      destruct (size <=? 0); [by intros [= <- _ _]|]. cbv zeta.
      by destruct (enqueue_work_already_locked _ _ _ _ _ _) as [[p2 sp2]|].
  - destruct (stacks s !! t) as [stack|]; [|done].
    destruct (in_user_code stack); [|done].
    apply desired_enter; [| |done].
    + intros p sp c js x. unfold halide_default_do_parallel_tasks. cbv zeta.
      destruct (_ =? 0); [done|].
      destruct (read_jobs _ _) as [js'|]; [|done].
      destruct (enqueue_work_already_locked _ _ _ _ _ _) as [[p2 sp2]|] eqn:Henq;
        [|done].
      intros [= <- <- <- <- <-].
      pose proof (enqueue_in_range _ _ _ _ _
                    (set_memory (memory (shared s) ++ _) (shared s)) _ _
                    (Parallel_tasks (length (memory (shared s))) (length js') 0 0)
                    s Hd (or_intror eq_refl) Henq) as H.
      cbn [resume] in H. by rewrite Nat.sub_0_r in H.
    + intros p sp v. unfold halide_default_do_parallel_tasks. cbv zeta.
      destruct (_ =? 0); [by intros [= <- _ _]|].
      destruct (read_jobs _ _) as [js'|]; [|done].
      by destruct (enqueue_work_already_locked _ _ _ _ _ _) as [[p2 sp2]|].
  - destruct (stacks s !! t) as [[|fr below]|]; try done.
    destruct (doing fr); try done. intros [= <-]. by apply desired_go_on.
  - destruct (stacks s !! t) as [[|fr below]|]; try done.
    destruct (doing fr); try done. intros [= <-].
    apply desired_go_on; [|done..].
    by destruct (after_wait_shape (owned_job (who fr)) c (shared s))
      as (_ & _ & ->).
  - destruct (stacks s !! t) as [[|fr below]|]; try done.
    destruct (doing fr); try done; intros [= <-].
    + apply desired_go_on; [|done..]. unfold finish_task.
      destruct (_ !! job); [|done]. by destruct (_ && _).
    + apply (desired_keep s);
        [|by cbn; rewrite enqueued_app, orb_false_r|done].
      unfold stay, serial_body_return. cbn.
      by destruct (_ !! job).
  - destruct (stacks s !! t) as [[|fr below]|]; try done.
    destruct (doing fr); try done; intros [= <-].
    + apply (desired_keep s); [| |done].
      * unfold stay. cbn [shared].
        by destruct (serial_claim_step_shape job iters (shared s))
          as (_ & -> & _).
      * unfold stay. cbn [trace]. rewrite enqueued_app.
        destruct (snd _); by rewrite orb_false_r.
    + apply desired_go_on; [|done..].
      unfold finish_task, serial_put_back.
      destruct (memory (shared s) !! job) as [w|] eqn:Hw; [|by rewrite Hw].
      destruct (_ >? 0); cbn; rewrite Hw; by destruct (_ && _).
  - intros [= <-]. unfold desired_ok. cbn. intros _.
    apply clamp_num_threads_range.
  - intros [= <-]. by apply (desired_keep s).
  - cbv zeta. intros [= <-]. apply (desired_keep s); [|done..].
    cbn. by destruct (_ =? n).
  - intros [= <-]. by apply (desired_keep s).
  - destruct (initialized _); [|done]. intros [= <-]. by apply (desired_keep s).
  - destruct (initialized (work_queue (shared s))) eqn:Hi; [|done].
    destruct (_ && _); [|done]. intros [= <-].
    unfold desired_ok. cbn. intros _. apply Hd. by left.
Qed.

(** ** The extents of the Jobs stay ints *)

Lemma iters_ok_keep cs cs' fr :
  (forall j c, on_job (doing fr) = Some j -> cs !! j = Some c ->
     exists c', cs' !! j = Some c' /\ c_extent c' = c_extent c) ->
  iters_ok cs fr -> iters_ok cs' fr.
Proof.
  unfold iters_ok. intros H.
  destruct (doing fr) as [| | |j i|j i| |]; try done;
    intros (c & Hc & Hb); destruct (H j c eq_refl Hc) as (c' & Hc' & He);
    exists c'; (split; [done|lia]).
Qed.

(** The activation [fr] is not inside the serial loop of Job [j]. *)
Lemma iters_ok_insert cs j c c' fs :
  cs !! j = Some c ->
  c_extent c' = c_extent c
  \/ Forall (fun fr => on_job (doing fr) = Some j ->
               match doing fr with Do_task _ _ | Serial_done _ _ => True
                                 | _ => False end) fs ->
  Forall (iters_ok cs) fs -> Forall (iters_ok (<[j := c']> cs)) fs.
Proof.
  intros Hj Hor Hfs. induction Hfs as [|fr fs Hfr _ IH]; constructor.
  - destruct Hor as [He|Hoff].
    + eapply iters_ok_keep; [|exact Hfr]. intros j' c0 _ Hc0.
      destruct (decide (j' = j)) as [->|Hne].
      * exists c'. rewrite list_lookup_insert_eq by (by eapply lookup_lt_Some).
        split; [done|congruence].
      * exists c0. by rewrite list_lookup_insert_ne.
    + apply list.Forall_cons in Hoff as [Hoff _].
      unfold iters_ok in *.
      destruct (doing fr) as [| | |j' i|j' i| |]; try done;
        destruct Hfr as (c0 & Hc0 & Hb);
        (destruct (decide (j' = j)) as [->|Hne];
         [by destruct (Hoff eq_refl)|]);
        exists c0; by rewrite list_lookup_insert_ne.
  - apply IH. destruct Hor as [He|Hoff]; [by left|right].
    by apply list.Forall_cons in Hoff as [_ ?].
Qed.

Lemma iters_ok_app cs l fs :
  Forall (iters_ok cs) fs -> Forall (iters_ok (cs ++ l)) fs.
Proof.
  intros H. eapply list.Forall_impl; [exact H|]. intros fr.
  apply iters_ok_keep. intros j c _ Hc. exists c.
  split; [by apply lookup_app_l_Some | done].
Qed.

(** No activation is inside the serial loop of a Job that is not serial. *)
Lemma nonserial_off cs fs j c :
  Forall (frame_ok cs) fs -> cs !! j = Some c -> c_serial c = false ->
  Forall (fun fr => on_job (doing fr) = Some j ->
            match doing fr with Do_task _ _ | Serial_done _ _ => True
                              | _ => False end) fs.
Proof.
  intros Hfs Hj Hs. eapply list.Forall_impl; [exact Hfs|].
  intros fr [_ Hd] Hon. unfold doing_ok in Hd. rewrite Hon in Hd.
  destruct Hd as (c' & Hc' & Hs'). assert (c' = c) as -> by congruence.
  destruct (doing fr); try done; congruence.
Qed.

Lemma cnt_zero_off j fs :
  cnt j fs = O ->
  Forall (fun fr => on_job (doing fr) = Some j ->
            match doing fr with Do_task _ _ | Serial_done _ _ => True
                              | _ => False end) fs.
Proof.
  induction fs as [|fr fs IH]; [constructor|].
  rewrite cnt_cons. intros H. constructor; [|apply IH; lia].
  intros Hon. rewrite (cnt1_same j) in H by done. lia.
Qed.

(** One pass of the dispatch loop. *)
Lemma pass_ints c p fs tr p' oa :
  PI (cores p) (jobs (work_queue p)) fs tr ->
  extents_ok (cores p) -> Forall (iters_ok (cores p)) fs ->
  worker_thread_already_locked (owned_job c) p = (p', oa) ->
  match oa with
  | Some a =>
      extents_ok (cores p')
      /\ Forall (iters_ok (cores p')) ({| who := c; doing := a |} :: fs)
  | None => p' = p
  end.
Proof.
  intros HPI Hext Hfs. unfold worker_thread_already_locked.
  destruct (loop_condition (owned_job c) p) eqn:Hloop;
    [|by intros [= <- <-]].
  pose proof (find_job_spec (owned_job c) (work_queue p) (jobs (work_queue p))
                O (memory p) (semaphore_values p)) as [Hmem Hfound].
  cbv zeta in *. set (r := find_job _ _ _ _ _ _) in *.
  apply cores_but_next_semaphore in Hmem.
  destruct (snd r) as [[k j]|] eqn:Hr.
  - destruct (Hfound k j eq_refl) as (i & job & -> & Hi & Hj & Ht & He).
    cbn [memory set_semaphore_values set_memory].
    assert (Hj' : (core_of <$> fst (fst r)) !! j = Some (core_of job)).
    { rewrite Hmem, list_lookup_fmap, Hj. done. }
    pose proof Hj' as Hjc.
    rewrite list_lookup_fmap in Hj'.
    destruct (fst (fst r) !! j) as [job'|] eqn:Hjob'; [|done].
    assert (Hcore : core_of job' = core_of job) by (cbn in Hj'; congruence).
    clear Hj'. intros [= <- <-].
    pose proof HPI as [_ _ _ _ _ Hq Hfr _].
    destruct (Hq j) as (c' & Hc' & Hpos & _);
      [apply list_elem_of_lookup; eauto|].
    rewrite (cores_lookup _ _ _ Hj) in Hc'. injection Hc' as <-.
    pose proof (proj1 (list.Forall_forall _ _) Hext _
                  (list_elem_of_lookup_2 _ _ _ (cores_lookup _ _ _ Hj)))
      as Hint.
    cbn in Hpos, Hint.
    assert (He' : extent (task job') = extent (task job))
      by exact (f_equal c_extent Hcore).
    assert (Hw : wrap (extent (task job') - 1) = extent (task job') - 1).
    { apply wrap_of_int. rewrite He'.
      unfold is_int, INT_MIN, INT_MAX in *. lia. }
    unfold claim. cbn [set_active_workers task active_workers].
    destruct (serial (task job')) eqn:Hs.
    + cbn. unfold cores. cbn. rewrite list_fmap_insert, Hmem.
      split; [|constructor].
      * eapply extents_ok_insert; [by apply cores_lookup| |done].
        cbn. done.
      * unfold iters_ok. cbn. eexists. split.
        { apply list_lookup_insert_eq. rewrite length_fmap.
          by eapply lookup_lt_Some. }
        cbn. lia.
      * eapply iters_ok_insert; [by apply cores_lookup| |done].
        left. cbn. done.
    + cbn -[Z.eqb wrap]. rewrite Hw. unfold cores. cbn -[Z.eqb wrap].
      rewrite list_fmap_insert, Hmem.
      split; [|constructor].
      * apply Forall_insert; [done|]. cbn -[wrap].
        unfold is_int, INT_MIN, INT_MAX in *. lia.
      * done.
      * eapply iters_ok_insert; [by apply cores_lookup| |done].
        right. eapply nonserial_off; [done|by apply cores_lookup|].
        cbn. rewrite <- Hs. symmetry. exact (f_equal c_serial Hcore).
  - intros [= <- <-]. unfold go_to_sleep.
    assert (Hsame : forall q a,
              extents_ok (cores (set_work_queue q
                (set_semaphore_values (snd (fst r))
                   (set_memory (fst (fst r)) p))))
              /\ Forall (iters_ok (cores (set_work_queue q
                   (set_semaphore_values (snd (fst r))
                      (set_memory (fst (fst r)) p)))))
                   ({| who := c; doing := Wait a |} :: fs)).
    { intros q a. unfold cores. cbn. rewrite Hmem.
      split; [done|]. by constructor. }
    destruct (owned_job c) as [o|] eqn:Ho.
    + cbn. unfold cores. cbn. rewrite cores_alter by done. rewrite Hmem.
      split; [done|]. by constructor.
    + cbn -[Z.gtb]. destruct (_ >? _); apply Hsame.
Qed.

Lemma join_ints jobs_ n fs tr : forall todo i acc p,
  PI (cores p) (jobs (work_queue p)) fs tr ->
  extents_ok (cores p) -> Forall (iters_ok (cores p)) fs ->
  let r := join_tasks jobs_ n todo i acc p in
  extents_ok (cores (fst r))
  /\ match snd r with
     | inl fr => Forall (iters_ok (cores (fst r))) (fr :: fs)
     | inr _ => Forall (iters_ok (cores (fst r))) fs
     end.
Proof.
  induction todo as [|todo IH]; intros i acc p HPI Hext Hfs; cbn zeta; [done|].
  cbn [join_tasks].
  destruct (worker_thread_already_locked (Some (jobs_ + i)%nat) p)
    as [p' oa] eqn:Hpass.
  pose proof (pass_ints (Parallel_tasks jobs_ n i acc) p fs tr p' oa HPI Hext
                Hfs Hpass) as Hres.
  cbn [fst snd]. destruct oa as [a|]; [done|]. subst p'. by apply IH.
Qed.

Lemma resume_ints c p fs tr :
  PI (cores p) (jobs (work_queue p)) fs tr ->
  extents_ok (cores p) -> Forall (iters_ok (cores p)) fs ->
  let r := resume c p in
  extents_ok (cores (fst r))
  /\ match snd r with
     | inl fr => Forall (iters_ok (cores (fst r))) (fr :: fs)
     | inr _ => Forall (iters_ok (cores (fst r))) fs
     end.
Proof.
  intros HPI Hext Hfs. cbn zeta. destruct c as [|j|jobs_ n i acc]; cbn [resume].
  - destruct (worker_thread_already_locked None p) as [p' oa] eqn:Hpass.
    pose proof (pass_ints Worker_thread p fs tr p' oa HPI Hext Hfs Hpass)
      as Hres.
    cbn [fst snd]. destruct oa as [a|]; [done|]. subst p'.
    split; [done|]. by constructor.
  - destruct (worker_thread_already_locked (Some j) p) as [p' oa] eqn:Hpass.
    pose proof (pass_ints (Par_for j) p fs tr p' oa HPI Hext Hfs Hpass)
      as Hres.
    cbn [fst snd]. destruct oa as [a|]; [done|]. by subst p'.
  - by apply (join_ints jobs_ n fs tr).
Qed.

Lemma born_dispatch_events fr : born (dispatch_events fr) = [].
Proof. unfold dispatch_events. by destruct (doing fr). Qed.

Lemma born_return_events c v : born (return_events c v) = [].
Proof. by destruct c. Qed.

Lemma settle_ints s t below c p sp r evs others :
  (forall st' extra,
     concat (<[t := st']> (stacks s) ++ extra) ≡ₚ st' ++ others ++ concat extra) ->
  extents_ok (cores p) ->
  match r with
  | inl fr => Forall (iters_ok (cores p)) (fr :: below ++ others)
  | inr v => Forall (iters_ok (cores p)) (below ++ others)
  end ->
  Forall int_called (born (trace s ++ evs)) ->
  ints_ok (settle t below c p sp r evs s).
Proof.
  intros Hsplit Hext Hfs Hborn. unfold ints_ok, settle.
  cbn [shared stacks trace]. split; [done|]. split.
  - rewrite Hsplit, app_assoc. apply Forall_app. split; [by destruct r|].
    clear. induction sp as [|sp IH]; cbn; [constructor | by constructor].
  - rewrite app_assoc, born_app. apply Forall_app. split; [done|].
    destruct r; rewrite ?born_dispatch_events, ?born_return_events;
      constructor.
Qed.

Lemma go_on_ints s t fr below others p evs :
  (forall st' extra,
     concat (<[t := st']> (stacks s) ++ extra) ≡ₚ st' ++ others ++ concat extra) ->
  PI (cores p) (jobs (work_queue p)) (below ++ others) (trace s ++ evs) ->
  extents_ok (cores p) -> Forall (iters_ok (cores p)) (below ++ others) ->
  Forall int_called (born (trace s ++ evs)) ->
  ints_ok (go_on t fr below p evs s).
Proof.
  intros Hsplit HPI Hext Hfs Hborn. unfold go_on.
  pose proof (resume_ints (who fr) p _ _ HPI Hext Hfs) as [H1 H2].
  apply (settle_ints _ _ _ _ _ _ _ _ others); [done|done| |done].
  by destruct (snd (resume (who fr) p)).
Qed.

Lemma stay_ints s t fr below others r evs :
  (forall st' extra,
     concat (<[t := st']> (stacks s) ++ extra) ≡ₚ st' ++ others ++ concat extra) ->
  extents_ok (cores (fst r)) ->
  Forall (iters_ok (cores (fst r)))
    ({| who := who fr; doing := snd r |} :: below ++ others) ->
  Forall int_called (born (trace s ++ evs)) ->
  ints_ok (stay t fr below r evs s).
Proof.
  intros Hsplit Hext Hfs Hborn. unfold ints_ok, stay.
  cbn [shared stacks trace]. split; [done|]. split; [|done].
  rewrite <- (app_nil_r (<[t := _]> (stacks s))), Hsplit. cbn.
  by rewrite app_nil_r.
Qed.

Lemma with_shared_ints s p :
  cores p = cores (shared s) -> ints_ok s -> ints_ok (with_shared p s).
Proof. unfold ints_ok. cbn. by intros ->. Qed.

Lemma enter_ints s t stack others called r s' :
  ints_ok s ->
  concat (stacks s) ≡ₚ stack ++ others ->
  (forall st' extra,
     concat (<[t := st']> (stacks s) ++ extra) ≡ₚ st' ++ others ++ concat extra) ->
  (forall p sp c js x, r = Ok (p, sp, Submitted c js x) ->
     Forall (fun w => int_task (task w) = true) js ->
     exists p2,
       x = snd (resume c p2) /\ p = fst (resume c p2)
       /\ extents_ok (cores p2)
       /\ Forall (iters_ok (cores p2)) (concat (stacks s))
       /\ PI (cores p2) (jobs (work_queue p2)) (concat (stacks s))
            (trace s ++ called js)
       /\ Forall int_called (born (called js))) ->
  (forall p sp v, r = Ok (p, sp, Nothing_to_do v) -> p = shared s) ->
  enter t stack called r s = Some s' ->
  ints_ok s'.
Proof.
  intros HI Hperm Hsplit Hsub Hnone. unfold enter.
  destruct r as [[[p sp] [v|c js x]]|u]; [| |done].
  - intros [= <-]. rewrite (Hnone p sp v eq_refl). by apply with_shared_ints.
  - destruct (forallb _ js) eqn:Hg; [|done]. apply forallb_Forall in Hg.
    intros [= <-].
    destruct (Hsub p sp c js x eq_refl Hg)
      as (p2 & -> & -> & Hext & Hfs & HPI2 & Hb).
    rewrite Hperm in Hfs.
    apply (PI_perm _ _ _ (stack ++ others)) in HPI2; [|done].
    pose proof (resume_ints c p2 _ _ HPI2 Hext Hfs) as [H1 H2].
    apply (settle_ints _ _ _ _ _ _ _ _ others); [done|done| |].
    + by destruct (snd (resume c p2)).
    + rewrite born_app. apply Forall_app. split; [|done]. by destruct HI as (_ & _ & ?).
Qed.

Lemma serial_claim_step_iters w j n p :
  iters_ok (cores p) {| who := w; doing := Serial_claim j n |} ->
  iters_ok (cores (fst (serial_claim_step j n p)))
    {| who := w; doing := snd (serial_claim_step j n p) |}.
Proof.
  unfold iters_ok. cbn [doing]. intros (c & Hc & Hb).
  unfold cores in Hc. rewrite list_lookup_fmap in Hc.
  unfold serial_claim_step.
  destruct (memory p !! j) as [job|] eqn:Hj; [|done].
  cbn in Hc. injection Hc as <-. cbn in Hb.
  assert (Hk : forall k, (core_of <$> <[j := set_next_semaphore k job]> (memory p))
                         !! j = Some (core_of job)).
  { intros k. rewrite list_lookup_fmap, list_lookup_insert_eq; [done|].
    by eapply lookup_lt_Some. }
  assert (Hleave : forall p', cores p' !! j = Some (core_of job) ->
            iters_ok (cores (fst (if n =? 0 then (p', Serial_done j 0)
                                  else (p', Serial_body j n))))
              {| who := w;
                 doing := snd (if n =? 0 then (p', Serial_done j 0)
                               else (p', Serial_body j n)) |}).
  { intros p' Hp'. destruct (n =? 0); unfold iters_ok; cbn; [done|].
    exists (core_of job). done. }
  destruct (Z.gtb_spec (extent (task job)) n) as [Hgt|Hle].
  - destruct (snd (make_runnable _ _)).
    + unfold iters_ok. cbn. exists (core_of job). unfold cores. cbn.
      split; [apply Hk|]. cbn. lia.
    + apply Hleave. unfold cores. cbn. apply Hk.
  - apply Hleave. unfold cores. by rewrite list_lookup_fmap, Hj.
Qed.

(** Every step of the system keeps the extents ints. *)
Lemma exec_ints a s s' :
  PI_state s -> ints_ok s -> exec a s = Some s' -> ints_ok s'.
Proof.
  intros HPI HI. pose proof HI as (Hext & Hiters & Hborn).
  destruct a; cbn [exec].
  - (* New_thread *)
    intros [= <-]. unfold ints_ok. cbn.
    rewrite concat_app. cbn. by rewrite app_nil_r.
  - (* Call_par_for *)
    destruct (stacks s !! t) as [stack|] eqn:Ht; [|done].
    destruct (in_user_code stack); [|done].
    destruct (frames_split _ _ _ Ht) as (others & Hperm & Hsplit).
    apply (enter_ints s t stack others); try done.
    + intros p sp c js x. unfold halide_default_do_par_for.
      destruct (Z.leb_spec size 0) as [|Hsize]; [done|]. cbv zeta.
      destruct (enqueue_work_already_locked _ _ _ _ _ _) as [[p2 sp2]|] eqn:Henq;
        [|done].
      intros [= <- <- <- <- <-] Hg. exists p2.
      assert (Hm : is_int min_).
      { apply list.Forall_cons in Hg as [Hg _].
        by apply int_task_spec in Hg as (? & _). }
      destruct (submit_PI _ _ _ [_] _ _ _ _ _
                  (Par_for_called (length (memory (shared s))) min_ size)
                  HPI (par_for_job_fresh _ _ _ _ _ Hsize Hm) eq_refl Henq)
        as (HPI2 & Hlen & Hcs).
      split; [reflexivity|]. split; [reflexivity|]. rewrite Hcs.
      split; [|split; [|split]].
      * apply Forall_app. split; [done | by apply extents_ok_new].
      * by apply iters_ok_app.
      * by rewrite <- Hcs.
      * cbn. constructor; [|constructor].
        apply list.Forall_cons in Hg as [Hg _]. split; [exact Hg|done].
    + intros p sp v. unfold halide_default_do_par_for.
      destruct (size <=? 0); [by intros [= <- _ _]|]. cbv zeta.
      by destruct (enqueue_work_already_locked _ _ _ _ _ _) as [[p2 sp2]|].
  - (* Call_parallel_tasks *)
    destruct (stacks s !! t) as [stack|] eqn:Ht; [|done].
    destruct (in_user_code stack); [|done].
    destruct (frames_split _ _ _ Ht) as (others & Hperm & Hsplit).
    apply (enter_ints s t stack others); try done.
    + intros p sp c js x. unfold halide_default_do_parallel_tasks. cbv zeta.
      set (copied := copy_tasks _ _ _ _ _ _).
      destruct (fst copied =? 0); [done|].
      destruct (read_jobs _ _) as [js'|] eqn:Hread; [|done].
      destruct (enqueue_work_already_locked _ _ _ _ _ _) as [[p2 sp2]|] eqn:Henq;
        [|done].
      intros [= <- <- <- <- <-] Hg. exists p2.
      assert (Hbuilt : Forall (built user_context_) js').
      { eapply read_jobs_built; [|exact Hread]. apply Forall_take.
        apply copy_tasks_built. apply Forall_replicate. done. }
      assert (Hfresh : Forall2 fresh_job (core_of <$> js')
                (born [Tasks_called (length (memory (shared s))) (task <$> js')])).
      { cbn. rewrite app_nil_r. by eapply built_fresh. }
      destruct (submit_PI _ _ _ js' _ _ _ _ _
                  (Tasks_called (length (memory (shared s))) (task <$> js'))
                  HPI Hfresh eq_refl Henq) as (HPI2 & Hlen & Hcs).
      cbn [resume]. rewrite Nat.sub_0_r.
      split; [reflexivity|]. split; [reflexivity|]. rewrite Hcs.
      split; [|split; [|split]].
      * apply Forall_app. split; [done | by apply extents_ok_new].
      * by apply iters_ok_app.
      * by rewrite <- Hcs.
      * cbn. rewrite app_nil_r. apply Forall_fmap.
        clear -Hg Hbuilt. induction Hbuilt as [|w js (t0 & -> & Ht0) _ IH];
          [constructor|].
        apply list.Forall_cons in Hg as [Hg1 Hg2].
        constructor; [by split | by apply IH].
    + intros p sp v. unfold halide_default_do_parallel_tasks. cbv zeta.
      destruct (_ =? 0); [by intros [= <- _ _]|].
      destruct (read_jobs _ _) as [js'|]; [|done].
      by destruct (enqueue_work_already_locked _ _ _ _ _ _) as [[p2 sp2]|].
  - (* Start *)
    destruct (stacks s !! t) as [[|fr below]|] eqn:Ht; try done.
    destruct (doing fr) eqn:Ha; try done. intros [= <-].
    destruct (frames_split _ _ _ Ht) as (others & Hperm & Hsplit).
    rewrite Hperm in Hiters. apply list.Forall_cons in Hiters as [_ Hiters].
    apply (PI_perm _ _ _ _ _ Hperm) in HPI. cbn [app] in HPI.
    destruct (PI_remove_idle _ _ _ _ _ HPI) as [H1 H2]; [by rewrite Ha|].
    apply (go_on_ints _ _ _ _ others); rewrite ?app_nil_r; done.
  - (* Wake_up *)
    destruct (stacks s !! t) as [[|fr below]|] eqn:Ht; try done.
    destruct (doing fr) eqn:Ha; try done. intros [= <-].
    destruct (frames_split _ _ _ Ht) as (others & Hperm & Hsplit).
    rewrite Hperm in Hiters. apply list.Forall_cons in Hiters as [_ Hiters].
    apply (PI_perm _ _ _ _ _ Hperm) in HPI. cbn [app] in HPI.
    destruct (PI_remove_idle _ _ _ _ _ HPI) as [H1 H2]; [by rewrite Ha|].
    destruct (after_wait_shape (owned_job (who fr)) c (shared s))
      as (Hc & Hq & _).
    apply (go_on_ints _ _ _ _ others); rewrite ?app_nil_r, ?Hc, ?Hq; done.
  - (* Task_returns *)
    destruct (stacks s !! t) as [[|fr below]|] eqn:Ht; try done.
    destruct (frames_split _ _ _ Ht) as (others & Hperm & Hsplit).
    rewrite Hperm in Hiters. apply list.Forall_cons in Hiters as [Hit Hiters].
    apply (PI_perm _ _ _ _ _ Hperm) in HPI. cbn [app] in HPI.
    destruct (doing fr) eqn:Ha; try done; intros [= <-].
    + destruct (PI_finish_parallel _ _ _ _ _ _ _ result HPI Ha)
        as (c & Hj & H1 & H2).
      pose proof Hj as Hjc. unfold cores in Hj. rewrite list_lookup_fmap in Hj.
      destruct (memory (shared s) !! job) as [w|] eqn:Hw; [|done].
      assert (c = core_of w) as -> by (cbn in Hj; congruence).
      destruct (finish_task_shape job result _ w Hw) as [Hc Hq].
      apply (go_on_ints _ _ _ _ others); rewrite ?Hc, ?Hq; try done.
      * by eapply extents_ok_insert.
      * eapply iters_ok_insert; [done| |done]. by left.
      * rewrite born_app. cbn. by rewrite app_nil_r.
    + destruct (PI_serial_return _ _ _ _ _ _ _ result HPI Ha)
        as (c & Hj & H1).
      pose proof Hj as Hjc. unfold cores in Hj. rewrite list_lookup_fmap in Hj.
      destruct (memory (shared s) !! job) as [w|] eqn:Hw; [|done].
      assert (c = core_of w) as -> by (cbn in Hj; congruence).
      assert (Hb : 0 <= iters <= extent (task w)).
      { unfold iters_ok in Hit. rewrite Ha in Hit.
        destruct Hit as (c' & Hc' & Hb). rewrite Hjc in Hc'.
        by injection Hc' as <-. }
      assert (He : is_int (extent (task w))).
      { unfold extents_ok in Hext. rewrite list.Forall_forall in Hext.
        exact (Hext _ (list_elem_of_lookup_2 _ _ _ Hjc)). }
      assert (Hint : is_int (extent (task w) - iters))
        by (unfold is_int, INT_MIN, INT_MAX in *; lia).
      destruct (serial_body_return_shape job iters result _ w Hw Hint)
        as (Hc & Hq & Hx).
      assert (Hlt : (job < length (cores (shared s)))%nat)
        by (by eapply lookup_lt_Some).
      assert (Hser : c_serial (core_of w) = true).
      { destruct HPI as [_ _ _ _ _ _ Hfr _].
        apply list.Forall_cons in Hfr as [[_ Hd] _].
        unfold doing_ok in Hd. rewrite Ha in Hd. cbn in Hd.
        destruct Hd as (c' & Hc' & Hs'). congruence. }
      assert (Hzero : cnt job (below ++ others) = O).
      { pose proof (serial_cnt _ _ _ _ _ _ HPI Hjc Hser) as Hle.
        rewrite cnt_cons, (cnt1_same job) in Hle by (by rewrite Ha). lia. }
      apply (stay_ints _ _ _ _ others); rewrite ?Hc, ?Hx; try done.
      * apply Forall_insert; [done|]. exact Hint.
      * constructor.
        -- unfold iters_ok. cbn. destruct (result =? 0); [|done].
           exists (advanced iters (core_of w)).
           split; [by apply list_lookup_insert_eq|]. cbn. lia.
        -- eapply iters_ok_insert; [done| |done]. right.
           by apply cnt_zero_off.
      * rewrite born_app. cbn. by rewrite app_nil_r.
  - (* Serial_step *)
    destruct (stacks s !! t) as [[|fr below]|] eqn:Ht; try done.
    destruct (frames_split _ _ _ Ht) as (others & Hperm & Hsplit).
    rewrite Hperm in Hiters. apply list.Forall_cons in Hiters as [Hit Hiters].
    apply (PI_perm _ _ _ _ _ Hperm) in HPI. cbn [app] in HPI.
    destruct (doing fr) eqn:Ha; try done; intros [= <-].
    + destruct (serial_claim_step_shape job iters (shared s))
        as (Hc & Hq & Hx).
      apply (stay_ints _ _ _ _ others).
      * done.
      * by rewrite Hc.
      * constructor; [|by rewrite Hc].
        apply serial_claim_step_iters. unfold iters_ok in *. cbn.
        by rewrite Ha in Hit.
      * rewrite born_app.
        assert (born match snd (serial_claim_step job iters (shared s)) with
                     | Serial_body _ n =>
                         [Dispatched job (min_at job (shared s)) n]
                     | _ => []
                     end = []) as -> by (by destruct (snd _)).
        by rewrite app_nil_r.
    + destruct (PI_serial_finish _ _ _ _ _ _ _ HPI Ha) as (c & Hj & H1 & H2).
      pose proof Hj as Hjc. unfold cores in Hj. rewrite list_lookup_fmap in Hj.
      destruct (memory (shared s) !! job) as [w|] eqn:Hw; [|done].
      assert (c = core_of w) as -> by (cbn in Hj; congruence).
      destruct (serial_put_back_shape job _ w Hw) as (Hc1 & Hm & Hq1 & _).
      rewrite <- Hm in Hw.
      destruct (finish_task_shape job result _ w Hw) as [Hc Hq].
      apply (go_on_ints _ _ _ _ others);
        rewrite ?app_nil_r, ?Hc, ?Hq, ?Hc1, ?Hq1; try done.
      * by eapply extents_ok_insert.
      * eapply iters_ok_insert; [done| |done]. by left.
  - (* Set_num_threads *) intros [= <-]. by apply with_shared_ints.
  - (* Semaphore_init *) intros [= <-]. by apply with_shared_ints.
  - (* Semaphore_release *)
    cbv zeta. intros [= <-]. apply with_shared_ints; [|done].
    by destruct (_ =? n).
  - (* Semaphore_try_acquire *) intros [= <-]. by apply with_shared_ints.
  - (* Shutdown_begin *)
    destruct (initialized _); [|done]. intros [= <-]. by apply with_shared_ints.
  - (* Shutdown_join *)
    destruct (_ && _); [|done]. intros [= <-]. by apply with_shared_ints.
Qed.

(** The invariant holds in every reachable state. *)
Lemma initial_Inv env σ : Inv (initial env σ).
Proof.
  split; [|split].
  - split; try done; cbn; try constructor. by intros j Hj%elem_of_nil.
  - unfold desired_ok. cbn. intros [|]; done.
  - repeat split; constructor.
Qed.

Lemma exec_Inv a s s' : Inv s -> exec a s = Some s' -> Inv s'.
Proof.
  intros (H1 & H2 & H3) He.
  split; [by eapply exec_PI | split; [by eapply exec_desired|]].
  by eapply exec_ints.
Qed.

Lemma run_Inv acts : forall s s', Inv s -> run acts s = Some s' -> Inv s'.
Proof.
  induction acts as [|a acts IH]; intros s s' HI; cbn.
  - by intros [= <-].
  - destruct (exec a s) as [s1|] eqn:He; [|done].
    apply IH. by eapply exec_Inv.
Qed.

Lemma reachable_Inv s : reachable s -> Inv s.
Proof. intros (env & σ & acts & H). eapply run_Inv; [apply initial_Inv | done]. Qed.

(** ** Exit statuses are only overwritten by failures *)

Lemma statuses_cores p : statuses p = c_exit <$> cores p.
Proof. unfold statuses, cores. by rewrite <- list_fmap_compose. Qed.

Lemma exit_mono_refl l : exit_mono l l.
Proof. intros j e H. exists e. auto. Qed.

Lemma exit_mono_eq l l' : l' = l -> exit_mono l l'.
Proof. intros ->. apply exit_mono_refl. Qed.

Lemma exit_mono_trans l1 l2 l3 :
  exit_mono l1 l2 -> exit_mono l2 l3 -> exit_mono l1 l3.
Proof.
  intros H1 H2 j e Hj. destruct (H1 j e Hj) as (e' & Hj' & He').
  destruct (H2 j e' Hj') as (e'' & Hj'' & He''). exists e''.
  split; [done|]. destruct He'' as [->|]; auto.
Qed.

Lemma exit_mono_app l k : exit_mono l (l ++ k).
Proof.
  intros j e Hj. exists e. split; [|auto]. by apply lookup_app_l_Some.
Qed.

Lemma exit_mono_insert l j e :
  (forall e0, l !! j = Some e0 -> e = e0 \/ e <> 0) ->
  exit_mono l (<[j := e]> l).
Proof.
  intros H k e0 Hk. destruct (decide (k = j)) as [->|Hne].
  - exists e. split; [|auto].
    apply list_lookup_insert_eq. by eapply lookup_lt_Some.
  - exists e0. split; [|auto]. by rewrite list_lookup_insert_ne.
Qed.

Lemma pass_statuses o p :
  statuses (fst (worker_thread_already_locked o p)) = statuses p.
Proof.
  unfold worker_thread_already_locked.
  destruct (loop_condition o p); [|done].
  pose proof (find_job_spec o (work_queue p) (jobs (work_queue p))
                O (memory p) (semaphore_values p)) as [Hmem _].
  cbv zeta in *. set (r := find_job _ _ _ _ _ _) in *.
  apply cores_but_next_semaphore in Hmem.
  assert (Hst : exit_status <$> fst (fst r) = exit_status <$> memory p).
  { apply (f_equal (fmap c_exit)) in Hmem.
    by rewrite <- !list_fmap_compose in Hmem. }
  destruct (snd r) as [[k j]|].
  - cbn [memory set_semaphore_values set_memory].
    destruct (fst (fst r) !! j) as [job'|] eqn:Hj; [|done].
    unfold claim. cbn [set_active_workers task].
    destruct (serial (task job')); unfold statuses; cbn;
      rewrite list_fmap_insert; cbn; rewrite Hst;
      apply list_insert_id; rewrite <- Hst, list_lookup_fmap, Hj; done.
  - unfold go_to_sleep. destruct o as [o|].
    + rewrite !statuses_cores. unfold cores. cbn.
      rewrite cores_alter by done. by rewrite Hmem.
    + cbn -[Z.gtb]. destruct (_ >? _); done.
Qed.

Lemma join_statuses jobs_ n : forall todo i acc p,
  statuses (fst (join_tasks jobs_ n todo i acc p)) = statuses p.
Proof.
  induction todo as [|todo IH]; intros i acc p; cbn [join_tasks]; [done|].
  cbv zeta.
  destruct (snd (worker_thread_already_locked _ p)) eqn:Hr; cbn [fst].
  - apply pass_statuses.
  - rewrite IH. apply pass_statuses.
Qed.

Lemma resume_statuses c p : statuses (fst (resume c p)) = statuses p.
Proof.
  destruct c; cbn [resume]; cbv zeta.
  - apply pass_statuses.
  - destruct (snd _); apply pass_statuses.
  - apply join_statuses.
Qed.

Lemma finish_task_statuses j r p :
  exit_mono (statuses p) (statuses (finish_task j r p)).
Proof.
  destruct (memory p !! j) as [w|] eqn:Hw.
  - destruct (finish_task_shape j r p w Hw) as [Hc _].
    rewrite !statuses_cores, Hc, list_fmap_insert.
    apply exit_mono_insert. intros e0. rewrite list_lookup_fmap.
    rewrite (cores_lookup _ _ _ Hw). intros [= <-]. cbn.
    unfold record_status. destruct (Z.eqb_spec r 0); auto.
  - unfold finish_task. rewrite Hw. apply exit_mono_refl.
Qed.

Lemma enqueue_statuses env nt pid n jobs_ p p' sp :
  enqueue_work_already_locked env nt pid n jobs_ p = Ok (p', sp) ->
  statuses p' = statuses p.
Proof.
  intros H. destruct (enqueue_shape _ _ _ _ _ _ _ _ H) as (Hc & _).
  by rewrite !statuses_cores, Hc.
Qed.

Lemma enter_statuses t stack called r s s' :
  (forall p sp o, r = Ok (p, sp, o) ->
     exit_mono (statuses (shared s)) (statuses p)) ->
  enter t stack called r s = Some s' ->
  exit_mono (statuses (shared s)) (statuses (shared s')).
Proof.
  intros H. unfold enter. destruct r as [[[p sp] [v|c js x]]|u]; [| |done];
    [|destruct (forallb _ js); [|done]]; intros [= <-]; cbn; by eapply H.
Qed.

Lemma go_on_statuses t fr below p evs s :
  statuses (shared (go_on t fr below p evs s)) = statuses p.
Proof. unfold go_on. cbn. apply resume_statuses. Qed.

Lemma exec_statuses a s s' :
  exec a s = Some s' -> exit_mono (statuses (shared s)) (statuses (shared s')).
Proof.
  destruct a; cbn [exec].
  - intros [= <-]. apply exit_mono_refl.
  - destruct (stacks s !! t) as [stack|]; [|done].
    destruct (in_user_code stack); [|done].
    apply enter_statuses. intros p sp o. unfold halide_default_do_par_for.
    destruct (size <=? 0); [intros [= <- _ _]; apply exit_mono_refl|].
    cbv zeta.
    destruct (enqueue_work_already_locked _ _ _ _ _ _) as [[p2 sp2]|] eqn:Henq;
      [|done].
    intros Heq.
    assert (Hp : p = fst (resume (Par_for (length (memory (shared s)))) p2))
      by (injection Heq as <- _ _; reflexivity).
    rewrite Hp, resume_statuses, (enqueue_statuses _ _ _ _ _ _ _ _ Henq).
    unfold statuses. cbn. rewrite fmap_app. apply exit_mono_app.
  - destruct (stacks s !! t) as [stack|]; [|done].
    destruct (in_user_code stack); [|done].
    apply enter_statuses. intros p sp o.
    unfold halide_default_do_parallel_tasks. cbv zeta.
    destruct (_ =? 0); [intros [= <- _ _]; apply exit_mono_refl|].
    destruct (read_jobs _ _) as [js'|]; [|done].
    destruct (enqueue_work_already_locked _ _ _ _ _ _) as [[p2 sp2]|] eqn:Henq;
      [|done].
    intros Heq.
    assert (Hp : p = fst (join_tasks (length (memory (shared s))) (length js')
                            (length js') 0 0 p2))
      by (injection Heq as <- _ _; reflexivity).
    rewrite Hp, join_statuses, (enqueue_statuses _ _ _ _ _ _ _ _ Henq).
    unfold statuses. cbn. rewrite fmap_app. apply exit_mono_app.
  - destruct (stacks s !! t) as [[|fr below]|]; try done.
    destruct (doing fr); try done. intros [= <-].
    rewrite go_on_statuses. apply exit_mono_refl.
  - destruct (stacks s !! t) as [[|fr below]|]; try done.
    destruct (doing fr); try done. intros [= <-].
    rewrite go_on_statuses, !statuses_cores.
    destruct (after_wait_shape (owned_job (who fr)) c (shared s)) as (-> & _).
    apply exit_mono_refl.
  - destruct (stacks s !! t) as [[|fr below]|]; try done.
    destruct (doing fr); try done; intros [= <-].
    + rewrite go_on_statuses. apply finish_task_statuses.
    + unfold stay. cbn [shared]. apply exit_mono_eq.
      unfold serial_body_return. destruct (memory (shared s) !! job) as [w|] eqn:Hw;
        [|done].
      unfold statuses. cbn. rewrite list_fmap_insert. cbn.
      apply list_insert_id. by rewrite list_lookup_fmap, Hw.
  - destruct (stacks s !! t) as [[|fr below]|]; try done.
    destruct (doing fr); try done; intros [= <-].
    + unfold stay. cbn [shared]. apply exit_mono_eq.
      destruct (serial_claim_step_shape job iters (shared s)) as (Hc & _).
      by rewrite !statuses_cores, Hc.
    + rewrite go_on_statuses.
      eapply exit_mono_trans; [|apply finish_task_statuses].
      apply exit_mono_eq. unfold serial_put_back.
      destruct (memory (shared s) !! job); [|done]. by destruct (_ >? 0).
  - intros [= <-]. apply exit_mono_refl.
  - intros [= <-]. apply exit_mono_refl.
  - cbv zeta. intros [= <-]. apply exit_mono_eq. cbn. by destruct (_ =? n).
  - intros [= <-]. apply exit_mono_refl.
  - destruct (initialized _); [|done]. intros [= <-]. apply exit_mono_refl.
  - destruct (_ && _); [|done]. intros [= <-]. apply exit_mono_refl.
Qed.

Lemma run_statuses acts : forall s s',
  run acts s = Some s' -> exit_mono (statuses (shared s)) (statuses (shared s')).
Proof.
  induction acts as [|a acts IH]; intros s s'; cbn.
  - intros [= <-]. apply exit_mono_refl.
  - destruct (exec a s) as [s1|] eqn:He; [|done]. intros Hr.
    eapply exit_mono_trans; [by eapply exec_statuses | by apply IH].
Qed.

(** ** What a finished Job says about its run *)

Lemma cores_lookup_inv p j c :
  cores p !! j = Some c -> exists w, memory p !! j = Some w /\ core_of w = c.
Proof.
  unfold cores. rewrite list_lookup_fmap.
  destruct (memory p !! j) as [w|]; [|done]. intros [= <-]. eauto.
Qed.

(** A finished Job is off the stack, nobody works on it, its exit status is
    the last non-zero status its task bodies returned, and as many of its
    iterations were run as it was submitted with. *)
Lemma finished_job s j w t0 :
  Inv s -> memory (shared s) !! j = Some w -> finished (core_of w) ->
  born (trace s) !! j = Some t0 ->
  (j ∉ jobs (work_queue (shared s)))
  /\ cnt j (concat (stacks s)) = O
  /\ exit_status w = last_nonzero (results j (trace s))
  /\ completed_iters j (trace s) = extent t0
  /\ (serial t0 = false ->
      indices j (trace s) = wrap <$> seqZ (min t0) (extent t0)).
Proof.
  intros [[] _] Hw [Hext Hact] Ht.
  pose proof (cores_lookup _ _ _ Hw) as Hc.
  destruct (pi_jobs0 j _ t0 Hc Ht) as (H1 & H2 & H3 & H4 & H5 & H6 & H7).
  assert (Hcnt : cnt j (concat (stacks s)) = O) by lia.
  split; [|split; [done|split; [|split]]].
  - intros Hin. destruct (pi_queue0 j Hin) as (c & Hc' & Hpos & _).
    assert (c = core_of w) as -> by congruence. lia.
  - apply H3. by apply cnt_zero_pend.
  - rewrite H7, Hext, Hact. destruct (c_serial _); lia.
  - intros Hs. rewrite <- H2 in Hs. destruct (H5 Hs) as (_ & _ & ->).
    by rewrite Hext, Z.sub_0_r.
Qed.

(** The example runs are runs of the system. *)
Lemma par_for_run_reachable : reachable (after par_for_run).
Proof. exists two_cores, (fun _ => 0), par_for_run. vm_compute. reflexivity. Qed.


(** A Job on the stack has iterations left, and their number is an int:
    the decrement of a claim is exact. *)
Lemma stack_extent s j job :
  Inv s -> j ∈ jobs (work_queue (shared s)) ->
  memory (shared s) !! j = Some job ->
  0 < extent (task job) <= INT_MAX.
Proof.
  intros ([] & _ & Hext & _) Hin Hj.
  destruct (pi_queue0 j Hin) as (c & Hc & Hpos & _).
  rewrite (cores_lookup _ _ _ Hj) in Hc. injection Hc as <-.
  unfold extents_ok in Hext. rewrite list.Forall_forall in Hext.
  pose proof (Hext _ (list_elem_of_lookup_2 _ _ _ (cores_lookup _ _ _ Hj)))
    as [_ Hmax].
  cbn in *. lia.
Qed.

(** The descriptor of a recorded call of the parallel for holds ints. *)
Lemma par_for_called_ints s j m n :
  Inv s -> Par_for_called j m n ∈ trace s ->
  is_int m /\ is_int n /\ 0 < n
  /\ born (trace s) !! j = Some (task (par_for_job O None m n O)).
Proof.
  intros ([] & _ & _ & _ & Hborn) Hcall.
  destruct (numbered_par_for _ _ _ _ _ pi_numbered0 Hcall) as (i & -> & Ht).
  rewrite list.Forall_forall in Hborn.
  destruct (Hborn _ (list_elem_of_lookup_2 _ _ _ Ht)) as [Hi Hpos].
  apply int_task_spec in Hi as (Hm & Hn & _). done.
Qed.

(** C6. A claim of a parallel Job hands out the index [min] that the Job
    has before the claim, increments [min] and decrements [extent] (in int
    arithmetic; exactly, unless [min] is [INT_MAX]), and takes the Job off
    the stack exactly when [extent] has become 0. A Job that is on the
    stack, where the claims find it, has an extent between 1 and [INT_MAX],
    so the decrement is always exact. When a call of the parallel for with
    the int arguments [m] and [n] has returned [v]: [n > 0]; the task body
    was called on exactly the indices m, m+1, ...,
    m+n-1, as the ints they are in int arithmetic, once each and in that
    order of claiming: these are [seqZ m n] itself when the last index
    m+n-1 is at most [INT_MAX]; every one of these calls has returned; the
    Job has extent 0, no active worker and is off the stack; and [v] is the
    exit status of the Job, the last non-zero status that a call returned
    (0 if there is none). *)
Theorem par_for_exactly_once :
  (forall pos j job p,
     serial (task job) = false ->
     exists myjob job',
       claim pos j job p
       = (set_memory (<[j := job']> (memory p))
            (set_work_queue
               (if extent (task job') =? 0
                then set_jobs (delete pos (jobs (work_queue p))) (work_queue p)
                else work_queue p) p),
          Do_task j myjob)
       /\ min (task myjob) = min (task job)
       /\ min (task job') = wrap (min (task job) + 1)
       /\ extent (task job') = wrap (extent (task job) - 1)
       /\ (is_int (min (task job) + 1) ->
           min (task job') = min (task job) + 1)
       /\ (0 < extent (task job) <= INT_MAX ->
           extent (task job') = extent (task job) - 1))
  /\ (forall s j job,
        reachable s -> j ∈ jobs (work_queue (shared s)) ->
        memory (shared s) !! j = Some job ->
        0 < extent (task job) <= INT_MAX)
  /\ (forall s j m n v,
        reachable s ->
        Par_for_called j m n ∈ trace s ->
        Par_for_returned j v ∈ trace s ->
        is_int m -> is_int n ->
        0 < n
        /\ indices j (trace s) = wrap <$> seqZ m n
        /\ NoDup (indices j (trace s))
        /\ (m + n - 1 <= INT_MAX -> indices j (trace s) = seqZ m n)
        /\ completed_iters j (trace s) = n
        /\ v = last_nonzero (results j (trace s))
        /\ exists job,
             memory (shared s) !! j = Some job
             /\ extent (task job) = 0 /\ active_workers job = 0
             /\ exit_status job = v
             /\ (j ∉ jobs (work_queue (shared s)))).
Proof.
  split; [|split].
  { intros pos j job p Hs. unfold claim. cbn -[wrap Z.eqb]. rewrite Hs.
    exists (set_active_workers (active_workers job + 1) job),
      (set_task (set_min_extent (wrap (min (task job) + 1))
                   (wrap (extent (task job) - 1)) (task job))
         (set_active_workers (active_workers job + 1) job)).
    split; [reflexivity|]. cbn -[wrap].
    repeat split; try done.
    - apply wrap_of_int.
    - intros H. apply wrap_of_int. unfold is_int, INT_MIN, INT_MAX in *. lia. }
  { intros s j job Hreach. apply stack_extent. by apply reachable_Inv. }
  intros s j m n v Hreach Hcall Hret Hm Hn.
  pose proof (reachable_Inv s Hreach) as HI. pose proof HI as [[] _].
  destruct (par_for_called_ints s j m n HI Hcall) as (_ & _ & Hpos & Ht).
  rewrite list.Forall_forall in pi_returns0.
  destruct (pi_returns0 _ Hret) as (c & Hc & Hfin & <-).
  destruct (cores_lookup_inv _ _ _ Hc) as (w & Hw & <-).
  destruct (finished_job s j w _ HI Hw Hfin Ht) as (H1 & H2 & H3 & H4 & H5).
  destruct Hfin as [Hext Hact]. cbn in H5. specialize (H5 eq_refl).
  split; [done|]. split; [done|].
  split; [|split; [|split; [done|split; [done|]]]].
  - rewrite H5. apply NoDup_wrap_seqZ. unfold is_int, INT_MAX in Hn. lia.
  - intros Hlast. rewrite H5. by apply fmap_wrap_seqZ.
  - exists w. done.
Qed.

Lemma par_for_exactly_once_witness :
  reachable (after par_for_run)
  /\ 0 < 2
  /\ indices 0 (trace (after par_for_run)) = wrap <$> seqZ 10 2
  /\ NoDup (indices 0 (trace (after par_for_run)))
  /\ (10 + 2 - 1 <= INT_MAX ->
      indices 0 (trace (after par_for_run)) = seqZ 10 2)
  /\ completed_iters 0 (trace (after par_for_run)) = 2
  /\ 5 = last_nonzero (results 0 (trace (after par_for_run)))
  /\ exists job,
       memory (shared (after par_for_run)) !! O = Some job
       /\ extent (task job) = 0 /\ active_workers job = 0
       /\ exit_status job = 5
       /\ (O ∉ jobs (work_queue (shared (after par_for_run)))).
Proof.
  split; [exact par_for_run_reachable|].
  apply (proj2 (proj2 par_for_exactly_once) (after par_for_run) O 10 2 5).
  - exact par_for_run_reachable.
  - apply list_elem_of_In. vm_compute. auto.
  - apply list_elem_of_In. vm_compute. auto 10.
  - unfold is_int, INT_MIN, INT_MAX. lia.
  - unfold is_int, INT_MIN, INT_MAX. lia.
Defined.

(** C9. A Job is built with exit status 0, and recording the status [r] of
    a task body keeps the exit status when [r] is 0 and stores [r]
    otherwise. In every reachable state the exit status is 0 or one of the
    non-zero statuses that the task bodies of the Job returned, and once
    the Job is finished it is the last of these. No sequence of steps of
    the system, from any state, loses a Job or changes its exit status
    other than to a non-zero value: an exit status that is not 0 never goes
    back to 0. *)
Theorem exit_status_sticky :
  (forall uc f m n cl, exit_status (par_for_job uc f m n cl) = 0)
  /\ (forall uc t, exit_status (new_job uc t) = 0)
  /\ (forall j r p job,
        memory p !! j = Some job ->
        exists job',
          memory (finish_task j r p) !! j = Some job'
          /\ exit_status job' = record_status (exit_status job) r)
  /\ (forall s j job,
        reachable s -> memory (shared s) !! j = Some job ->
        (exit_status job = 0
         \/ (exit_status job <> 0
             /\ exit_status job ∈ results j (trace s)))
        /\ (running job = false ->
            exit_status job = last_nonzero (results j (trace s))))
  /\ (forall acts s s' j job,
        run acts s = Some s' -> memory (shared s) !! j = Some job ->
        exists job',
          memory (shared s') !! j = Some job'
          /\ (exit_status job' = exit_status job \/ exit_status job' <> 0)).
Proof.
  split; [done|]. split; [done|]. split; [|split].
  3:{ intros acts s s' j job Hrun Hj.
      destruct (run_statuses acts s s' Hrun j (exit_status job))
        as (e' & He' & Hor).
      { unfold statuses. by rewrite list_lookup_fmap, Hj. }
      unfold statuses in He'. rewrite list_lookup_fmap in He'.
      destruct (memory (shared s') !! j) as [job'|]; [|done].
      exists job'. split; [done|]. cbn in He'. by injection He' as ->. }
  - intros j r p job Hj. unfold finish_task. rewrite Hj.
    set (job2 := set_active_workers _ _). exists job2.
    assert (Hlt : (j < length (memory p))%nat) by (by eapply lookup_lt_Some).
    split.
    + destruct (_ && _); cbn; by rewrite list_lookup_insert_eq.
    + unfold job2, record_status. cbn. by destruct (r =? 0).
  - intros s j job Hreach Hj.
    pose proof (reachable_Inv s Hreach) as HI. pose proof HI as [[] _].
    pose proof (cores_lookup _ _ _ Hj) as Hc.
    destruct (born_lookup _ _ _ _ _ _ (proj1 HI) Hc) as [t0 Ht].
    destruct (pi_jobs0 j _ t0 Hc Ht) as (H1 & H2 & H3 & H4 & H5 & H6 & H7).
    split.
    + assert (Hpre : exists rs rest, results j (trace s) = rs ++ rest
                       /\ exit_status job = last_nonzero rs).
      { destruct (pend j (concat (stacks s))) as [|r ps] eqn:Hp.
        - exists (results j (trace s)), []. rewrite app_nil_r.
          split; [done | by apply H3].
        - destruct (H4 r) as (rs & E1 & E2); [by left|].
          exists rs, [r]. done. }
      destruct Hpre as (rs & rest & E1 & E2).
      destruct (decide (exit_status job = 0)) as [|Hne]; [by left|right].
      split; [done|]. rewrite E1, E2. apply elem_of_app. left.
      apply last_nonzero_elem. congruence.
    + intros Hrun. apply running_finished in Hrun.
      by destruct (finished_job s j job t0 HI Hj Hrun Ht) as (_ & _ & ? & _).
Qed.

Lemma exit_status_sticky_witness :
  (exit_status example_finished_job = 0
   \/ (exit_status example_finished_job <> 0
       /\ exit_status example_finished_job
          ∈ results 0 (trace (after par_for_run))))
  /\ (running example_finished_job = false ->
      exit_status example_finished_job
      = last_nonzero (results 0 (trace (after par_for_run)))).
Proof.
  apply (proj1 (proj2 (proj2 (proj2 exit_status_sticky)))).
  - exact par_for_run_reachable.
  - vm_compute. reflexivity.
Defined.

(** C10. Once a submission has been enqueued, [desired_threads_working] is
    between 1 and 256 in every state. Its two writers clamp what they
    store: the lazy initialisation of the enqueue protocol, and
    [halide_set_num_threads], which returns the previous value and takes the
    default of the environment when given 0. *)
Theorem desired_threads_in_range :
  (forall s, reachable s -> enqueued (trace s) = true ->
     1 <= desired_threads_working (work_queue (shared s)) <= 256)
  /\ (forall env n p,
        halide_set_num_threads env n p
        = (set_work_queue
             (set_desired_threads_working
                (clamp_num_threads
                   (if n =? 0 then default_desired_num_threads env else n))
                (work_queue p)) p,
           desired_threads_working (work_queue p),
           n <? 0))
  /\ (forall env q,
        initialized q = false ->
        desired_threads_working (lazy_initialize env q)
        = clamp_num_threads
            (if desired_threads_working q =? 0
             then default_desired_num_threads env
             else desired_threads_working q))
  /\ (forall env q,
        initialized q = true -> lazy_initialize env q = q)
  /\ (forall x, 1 <= clamp_num_threads x <= 256).
Proof.
  split; [|split; [done|split; [|split]]].
  - intros s Hreach Henq. destruct (reachable_Inv s Hreach) as (_ & Hd & _).
    apply Hd. by right.
  - intros env q Hq. unfold lazy_initialize. by rewrite Hq.
  - intros env q Hq. unfold lazy_initialize. by rewrite Hq.
  - apply clamp_num_threads_range.
Qed.

Lemma desired_threads_in_range_witness :
  enqueued (trace (after par_for_run)) = true
  /\ 1 <= desired_threads_working (work_queue (shared (after par_for_run)))
     <= 256.
Proof.
  assert (H : enqueued (trace (after par_for_run)) = true)
    by (vm_compute; reflexivity).
  split; [exact H|].
  exact (proj1 desired_threads_in_range (after par_for_run)
           par_for_run_reachable H).
Defined.

(** ** The Jobs of a call of the parallel tasks *)















(** ** Iterations that are left are not lost *)























(** ** The result of a call of the parallel tasks *)





(** * Further properties *)

(** ** Semaphores: success, signalling, round trips *)

(** X1. [try_acquire n] on a semaphore holding [v] succeeds exactly when
    [n <= v] (for a difference that an int can hold). *)
Theorem try_acquire_succeeds_iff (v n : Z) :
  is_int v -> is_int (v - n) ->
  snd (halide_default_semaphore_try_acquire v n) = true <-> n <= v.
Proof.
  intros Hv Hd. rewrite try_acquire_unfold by done.
  rewrite (wrap_of_int _ Hd).
  destruct (Z.ltb_spec (v - n) 0); cbn; split; try done; lia.
Qed.

Lemma try_acquire_succeeds_iff_witness :
  snd (halide_default_semaphore_try_acquire 5 3) = true <-> 3 <= 5.
Proof.
  apply (try_acquire_succeeds_iff 5 3); unfold is_int, INT_MIN, INT_MAX; lia.
Defined.

Lemma wrap_eq_iff (v n : Z) : is_int v -> is_int n -> wrap (v + n) = n <-> v = 0.
Proof.
  unfold is_int, wrap, INT_MIN, INT_MAX. intros Hv Hn.
  pose proof (Z.div_mod (v + n + 2 ^ 31) (2 ^ 32) ltac:(lia)) as Hdm.
  pose proof (Z.mod_pos_bound (v + n + 2 ^ 31) (2 ^ 32) ltac:(lia)) as Hb.
  split.
  - intros H. lia.
  - intros ->. rewrite Z.add_0_l, Z.mod_small by lia. lia.
Qed.

(** X2. [release n] adds [n] to the semaphore and returns the new value; it
    wakes the A team and the owners exactly when the semaphore was at 0. *)
Theorem release_signals_iff_zero (v n : Z) :
  is_int v -> is_int n ->
  fst (halide_default_semaphore_release v n) = wrap (v + n)
  /\ (is_int (v + n) -> fst (halide_default_semaphore_release v n) = v + n)
  /\ (snd (halide_default_semaphore_release v n) = true <-> v = 0).
Proof.
  intros Hv Hn. unfold halide_default_semaphore_release, sync_add_and_fetch.
  cbn. split; [done|]. split; [apply wrap_of_int|].
  rewrite Z.eqb_eq. by apply wrap_eq_iff.
Qed.

Lemma release_signals_iff_zero_witness :
  fst (halide_default_semaphore_release 0 4) = wrap (0 + 4)
  /\ (is_int (0 + 4) -> fst (halide_default_semaphore_release 0 4) = 0 + 4)
  /\ (snd (halide_default_semaphore_release 0 4) = true <-> 0 = 0).
Proof.
  apply (release_signals_iff_zero 0 4); unfold is_int, INT_MIN, INT_MAX; lia.
Defined.

(** X3. Releasing [n] and then acquiring [n] succeeds and restores a
    semaphore that was not negative; acquiring [n] successfully and then
    releasing [n] restores the semaphore. *)
Theorem semaphore_round_trip (v n : Z) :
  is_int v ->
  (is_int (v + n) -> 0 <= v ->
   halide_default_semaphore_try_acquire
     (fst (halide_default_semaphore_release v n)) n = (v, true))
  /\ (is_int (v - n) -> n <= v ->
      halide_default_semaphore_try_acquire v n = (v - n, true)
      /\ fst (halide_default_semaphore_release
                (fst (halide_default_semaphore_try_acquire v n)) n) = v).
Proof.
  intros Hv. split.
  - intros Hs Hpos.
    unfold halide_default_semaphore_release, sync_add_and_fetch. cbn [fst].
    rewrite (wrap_of_int _ Hs).
    rewrite try_acquire_unfold by done.
    replace (v + n - n) with v by lia. rewrite (wrap_of_int _ Hv).
    destruct (Z.ltb_spec v 0); [lia|done].
  - intros Hd Hle. rewrite try_acquire_unfold by done.
    rewrite (wrap_of_int _ Hd).
    destruct (Z.ltb_spec (v - n) 0); [lia|]. split; [done|].
    cbn. unfold sync_add_and_fetch.
    replace (v - n + n) with v by lia. by apply wrap_of_int.
Qed.

Lemma semaphore_round_trip_witness :
  halide_default_semaphore_try_acquire
    (fst (halide_default_semaphore_release 5 3)) 3 = (5, true)
  /\ halide_default_semaphore_try_acquire 5 3 = (5 - 3, true)
  /\ fst (halide_default_semaphore_release
            (fst (halide_default_semaphore_try_acquire 5 3)) 3) = 5.
Proof.
  assert (H : is_int 5) by (unfold is_int, INT_MIN, INT_MAX; lia).
  destruct (semaphore_round_trip 5 3 H) as [H1 H2].
  split; [apply H1 | apply H2]; unfold is_int, INT_MIN, INT_MAX; lia.
Defined.

(** ** Retrying [make_runnable] *)

Lemma held_app l1 l2 σ : held (l1 ++ l2) σ = held l2 (held l1 σ).
Proof. unfold held. apply fold_left_app. Qed.

(** X4. A failed [make_runnable] leaves [next_semaphore] at the precondition
    that failed, so a later call takes up there: when it succeeds, it has
    acquired the preconditions from that one on and no earlier one again.
    Over the two calls every precondition is acquired once. *)
Theorem make_runnable_resumes (σ σ2 : semaphore_store) (w : work) :
  all_ints σ -> all_ints σ2 -> 0 <= next_semaphore w ->
  snd (make_runnable σ w) = false ->
  let todo := drop (Z.to_nat (next_semaphore w)) (semaphores (task w)) in
  let w1 := snd (fst (make_runnable σ w)) in
  exists k : nat,
    (k < length todo)%nat
    /\ next_semaphore w1 = next_semaphore w + Z.of_nat k
    /\ (forall s, fst (fst (make_runnable σ w)) s = held (take k todo) σ s)
    /\ (snd (make_runnable σ2 w1) = true ->
        snd (fst (make_runnable σ2 w1)) = set_next_semaphore 0 w
        /\ forall s, fst (fst (make_runnable σ2 w1)) s
                     = held (drop k todo) σ2 s).
Proof.
  intros Hσ Hσ2 Hnext Hfail. cbv zeta.
  assert (Hspec : forall σ0 w0, all_ints σ0 ->
            let todo := drop (Z.to_nat (next_semaphore w0))
                          (semaphores (task w0)) in
            let r := make_runnable σ0 w0 in
            (snd r = true /\ snd (fst r) = set_next_semaphore 0 w0
             /\ forall s, fst (fst r) s = held todo σ0 s)
            \/ (snd r = false
                /\ exists k : nat,
                     (k < length todo)%nat
                     /\ snd (fst r)
                        = set_next_semaphore (next_semaphore w0 + Z.of_nat k) w0
                     /\ forall s, fst (fst r) s = held (take k todo) σ0 s)).
  { intros σ0 w0 H0. cbv zeta. unfold make_runnable. cbn [fst snd].
    destruct (make_runnable_from_spec
                (drop (Z.to_nat (next_semaphore w0)) (semaphores (task w0)))
                (next_semaphore w0) σ0 H0)
      as [(H1 & H2 & H3) | (H1 & k & a & Hk & H2 & _ & H4)].
    - left. by rewrite H2.
    - right. split; [done|]. exists k. rewrite H2.
      split; [by eapply lookup_lt_Some|done]. }
  destruct (Hspec σ w Hσ) as [(H & _) | (_ & k & Hk & Hw & Hst)];
    [by rewrite Hfail in H|].
  exists k. split; [done|]. rewrite Hw.
  set (w1 := set_next_semaphore _ w).
  split; [done|]. split; [done|]. intros Hok.
  destruct (Hspec σ2 w1 Hσ2) as [(_ & H1 & H2) | (H & _)];
    [|by rewrite Hok in H].
  split; [by rewrite H1|]. intros s. rewrite H2. unfold w1. cbn.
  rewrite drop_drop. f_equal. f_equal. lia.
Qed.

Lemma make_runnable_resumes_witness :
  exists k : nat,
    (k < length (drop (Z.to_nat (next_semaphore example_waiting_job))
                   (semaphores (task example_waiting_job))))%nat
    /\ next_semaphore (snd (fst (make_runnable (fun _ => 1) example_waiting_job)))
       = next_semaphore example_waiting_job + Z.of_nat k
    /\ (forall s, fst (fst (make_runnable (fun _ => 1) example_waiting_job)) s
                  = held (take k (drop (Z.to_nat (next_semaphore example_waiting_job))
                                    (semaphores (task example_waiting_job))))
                      (fun _ => 1) s)
    /\ (snd (make_runnable (fun _ => 1)
               (snd (fst (make_runnable (fun _ => 1) example_waiting_job)))) = true ->
        snd (fst (make_runnable (fun _ => 1)
                    (snd (fst (make_runnable (fun _ => 1) example_waiting_job)))))
        = set_next_semaphore 0 example_waiting_job
        /\ forall s, fst (fst (make_runnable (fun _ => 1)
                                 (snd (fst (make_runnable (fun _ => 1)
                                              example_waiting_job))))) s
                     = held (drop k (drop (Z.to_nat (next_semaphore example_waiting_job))
                                       (semaphores (task example_waiting_job))))
                         (fun _ => 1) s).
Proof.
  assert (H : all_ints (fun _ => 1))
    by (intros s; unfold is_int, INT_MIN, INT_MAX; lia).
  apply (make_runnable_resumes (fun _ => 1) (fun _ => 1) example_waiting_job H H);
    [vm_compute; congruence | vm_compute; reflexivity].
Defined.

(** ** Thread counts *)

Lemma clamp_num_threads_id (x : Z) :
  1 <= x <= MAX_THREADS -> clamp_num_threads x = x.
Proof.
  unfold clamp_num_threads, MAX_THREADS. intros Hx.
  destruct (Z.gtb_spec x 256); destruct (Z.ltb_spec x 1); lia.
Qed.

(** X5. [clamp_num_threads] is the identity exactly on [1, 256], is
    idempotent and is monotone. *)
Theorem clamp_num_threads_props :
  (forall x, clamp_num_threads x = x <-> 1 <= x <= MAX_THREADS)
  /\ (forall x, clamp_num_threads (clamp_num_threads x) = clamp_num_threads x)
  /\ (forall x y, x <= y -> clamp_num_threads x <= clamp_num_threads y).
Proof.
  unfold clamp_num_threads, MAX_THREADS. split; [|split].
  - intros x. destruct (Z.gtb_spec x 256); destruct (Z.ltb_spec x 1);
      split; lia.
  - intros x. destruct (Z.gtb_spec x 256); [done|].
    destruct (Z.ltb_spec x 1); [done|].
    destruct (Z.gtb_spec x 256); [lia|]. destruct (Z.ltb_spec x 1); [lia|done].
  - intros x y Hxy.
    destruct (Z.gtb_spec x 256); destruct (Z.ltb_spec x 1);
      destruct (Z.gtb_spec y 256); destruct (Z.ltb_spec y 1); lia.
Qed.

Lemma clamp_num_threads_props_witness :
  clamp_num_threads 300 <= clamp_num_threads 400
  /\ (clamp_num_threads 8 = 8 <-> 1 <= 8 <= MAX_THREADS).
Proof.
  split.
  - apply (proj2 (proj2 clamp_num_threads_props) 300 400). lia.
  - apply (proj1 clamp_num_threads_props 8).
Defined.

(** X6. [halide_set_num_threads] returns the value it replaces, so passing
    that value back restores the setting: once the setting is in [1, 256]
    (as it is from the first submission on), a call followed by a call with
    the value it returned leaves the pool as it was, and the second call
    returns what the first one stored. *)
Theorem set_num_threads_restores (env : environment) (n : Z) (p : pool) :
  1 <= desired_threads_working (work_queue p) <= MAX_THREADS ->
  let first := halide_set_num_threads env n p in
  let old := snd (fst first) in
  halide_set_num_threads env old (fst (fst first))
  = (p,
     clamp_num_threads (if n =? 0 then default_desired_num_threads env else n),
     false).
Proof.
  intros Hr. cbv zeta. unfold halide_set_num_threads. cbn.
  destruct (Z.eqb_spec (desired_threads_working (work_queue p)) 0); [lia|].
  destruct (Z.ltb_spec (desired_threads_working (work_queue p)) 0); [lia|].
  rewrite (clamp_num_threads_id _ Hr).
  destruct p as [q ? ? ?]; destruct q; done.
Qed.

Lemma set_num_threads_restores_witness :
  halide_set_num_threads two_cores
    (snd (fst (halide_set_num_threads two_cores 0 example_pool)))
    (fst (fst (halide_set_num_threads two_cores 0 example_pool)))
  = (example_pool,
     clamp_num_threads
       (if 0 =? 0 then default_desired_num_threads two_cores else 0),
     false).
Proof.
  apply (set_num_threads_restores two_cores 0 example_pool).
  vm_compute. split; congruence.
Defined.

(** ** The enqueue protocol: what the batch asks for *)

Lemma gather_from (js : list work) : forall b,
  is_int (batch_min_threads b) -> is_int (workers_to_wake b) ->
  let r := fold_left gather_job js b in
  batch_min_threads r
  = wrap (batch_min_threads b
          + foldr Z.add 0
              ((fun job => if may_block (task job) then min_threads (task job)
                           else 0) <$> js))
  /\ workers_to_wake r
     = wrap (workers_to_wake b
             + foldr Z.add 0
                 ((fun job => if serial (task job) then 1
                              else extent (task job)) <$> js))
  /\ stealable_jobs r
     = stealable_jobs b || existsb (fun job => negb (may_block (task job))) js.
Proof.
  induction js as [|job js IH]; intros b Hb1 Hb2; cbn zeta.
  - cbn -[wrap]. rewrite !Z.add_0_r, !wrap_of_int, orb_false_r by done. done.
  - cbn [fold_left].
    destruct (IH (gather_job b job)) as (H1 & H2 & H3).
    { unfold gather_job. cbn -[wrap].
      destruct (may_block (task job)); cbn -[wrap];
        [apply wrap_is_int | done]. }
    { unfold gather_job. cbn -[wrap].
      destruct (serial (task job)); apply wrap_is_int. }
    rewrite H1, H2, H3. unfold gather_job. cbn -[wrap].
    destruct (may_block (task job)), (serial (task job)); cbn -[wrap];
      rewrite ?wrap_add_l, ?orb_true_r, ?orb_false_r;
      repeat split; try done; try (f_equal; lia);
      by destruct (stealable_jobs b).
Qed.

(** X7. The loop of lines 293-305 leaves in [min_threads] the sum of the
    [min_threads] of the blocking Jobs, in [workers_to_wake] one less than
    the number of serial Jobs plus the extents of the others, both as the
    ints that int arithmetic makes of them (the sums themselves when these
    are ints), and in [stealable_jobs] whether some Job does not block. For
    a batch that is not empty, of Jobs that have something to do, whose
    sum is an int, [workers_to_wake] is not negative. *)
Theorem gather_sums (js : list work) :
  batch_min_threads (gather js)
  = wrap (foldr Z.add 0
            ((fun job => if may_block (task job) then min_threads (task job)
                         else 0) <$> js))
  /\ workers_to_wake (gather js)
     = wrap (foldr Z.add 0
               ((fun job => if serial (task job) then 1 else extent (task job))
                <$> js) - 1)
  /\ stealable_jobs (gather js)
     = existsb (fun job => negb (may_block (task job))) js
  /\ (is_int (foldr Z.add 0
                ((fun job => if may_block (task job)
                             then min_threads (task job) else 0) <$> js)) ->
      batch_min_threads (gather js)
      = foldr Z.add 0
          ((fun job => if may_block (task job) then min_threads (task job)
                       else 0) <$> js))
  /\ (is_int (foldr Z.add 0
                ((fun job => if serial (task job) then 1
                             else extent (task job)) <$> js) - 1) ->
      workers_to_wake (gather js)
      = foldr Z.add 0
          ((fun job => if serial (task job) then 1 else extent (task job))
           <$> js) - 1
      /\ (js <> [] -> Forall (fun job => 0 < extent (task job)) js ->
          0 <= workers_to_wake (gather js))).
Proof.
  destruct (gather_from js
              {| batch_min_threads := 0; workers_to_wake := -1;
                 stealable_jobs := false |}) as (H1 & H2 & H3);
    [unfold is_int, INT_MIN, INT_MAX; cbn; lia..|].
  unfold gather. cbn -[wrap] in *.
  assert (E : forall x, -1 + x = x - 1) by (intros; lia).
  rewrite E in H2.
  split; [done|]. split; [done|]. split; [done|]. split.
  - intros Hi. by rewrite H1, wrap_of_int.
  - intros Hi. rewrite H2, wrap_of_int by done. split; [done|].
    intros Hne Hpos.
    assert (Hsum : Z.of_nat (length js)
                   <= foldr Z.add 0
                        ((fun job => if serial (task job) then 1
                                     else extent (task job)) <$> js)).
    { clear -Hpos. induction Hpos as [|job js Hj _ IH]; [done|].
      cbn [fmap list_fmap foldr length]. destruct (serial (task job)); lia. }
    destruct js; [done|]. cbn [length] in Hsum. lia.
Qed.

Lemma gather_sums_witness :
  is_int (foldr Z.add 0
            ((fun job => if serial (task job) then 1 else extent (task job))
             <$> [example_waiting_job]) - 1)
  /\ workers_to_wake (gather [example_waiting_job])
     = foldr Z.add 0
         ((fun job => if serial (task job) then 1 else extent (task job))
          <$> [example_waiting_job]) - 1
  /\ ([example_waiting_job] <> [] ->
      Forall (fun job => 0 < extent (task job)) [example_waiting_job] ->
      0 <= workers_to_wake (gather [example_waiting_job])).
Proof.
  assert (H : is_int (foldr Z.add 0
            ((fun job => if serial (task job) then 1 else extent (task job))
             <$> [example_waiting_job]) - 1))
    by (vm_compute; split; congruence).
  split; [exact H|].
  exact (proj2 (proj2 (proj2 (proj2 (gather_sums [example_waiting_job])))) H).
Defined.

(** ** The enqueue protocol: the spawn loop *)





(** ** The copy loop, in general *)

(** While the tasks have something to do, the loop copies them. *)
Lemma copy_tasks_prefix user_context_ good : forall (done_ : list (option work))
    (slots : list (option work)) fuel rest N,
  Forall (fun t => 0 < extent t) good ->
  (length good <= length slots)%nat ->
  Z.of_nat (length done_ + length good) <= N ->
  copy_tasks (length good + fuel) user_context_ (Z.of_nat (length done_)) N
    (good ++ rest) (done_ ++ slots)
  = copy_tasks fuel user_context_ (Z.of_nat (length done_ + length good)) N
      rest
      (done_ ++ (Some <$> (new_job user_context_ <$> good))
       ++ drop (length good) slots).
Proof.
  induction good as [|t good IH]; intros done_ slots fuel rest N Hpos Hlen HN.
  - cbn. by rewrite Nat.add_0_r, drop_0.
  - destruct slots as [|x slots]; [cbn in Hlen; lia|].
    inversion Hpos as [|? ? Ht Hpos']; subst.
    cbn [length Nat.add app copy_tasks].
    destruct (Z.ltb_spec (Z.of_nat (length done_)) N);
      [|cbn [length] in HN; lia].
    destruct (Z.leb_spec (extent t) 0); [lia|].
    rewrite Nat2Z.id.
    replace (<[length done_ := Some (new_job user_context_ t)]> (done_ ++ x :: slots))
      with ((done_ ++ [Some (new_job user_context_ t)]) ++ slots).
    2:{ rewrite insert_app_r_alt by lia. rewrite Nat.sub_diag. cbn.
        by rewrite <- app_assoc. }
    replace (Z.of_nat (length done_) + 1)
      with (Z.of_nat (length (done_ ++ [Some (new_job user_context_ t)])))
      by (rewrite length_app; cbn; lia).
    rewrite IH; [|done|cbn in Hlen; lia|rewrite length_app; cbn in *; lia].
    rewrite length_app. cbn [length fmap list_fmap drop].
    rewrite <- app_assoc. cbn [app].
    do 2 f_equal. lia.
Qed.

(** Once the cursor is at a task that has nothing to do, it stays there:
    every further pass takes one off [num_tasks] and adds one to [i]. *)
Lemma copy_tasks_skipping user_context_ t rest jobs_ : forall fuel i N,
  extent t <= 0 -> N - i <= Z.of_nat fuel ->
  copy_tasks fuel user_context_ i N (t :: rest) jobs_
  = (if i <? N then i + (N - i) / 2 else N, jobs_).
Proof.
  induction fuel as [|fuel IH]; intros i N Ht Hfuel.
  - cbn. destruct (Z.ltb_spec i N); [lia|done].
  - cbn [copy_tasks]. destruct (Z.ltb_spec i N) as [Hlt|]; [|done].
    destruct (Z.leb_spec (extent t) 0); [|lia].
    rewrite IH by (done || lia).
    destruct (Z.ltb_spec (i + 1) (N - 1)).
    + f_equal. replace (N - i) with ((N - 1 - (i + 1)) + 1 * 2) by lia.
      rewrite Z.div_add by lia. lia.
    + f_equal. assert (HN : N = i + 1 \/ N = i + 2) by lia.
      destruct HN as [-> | ->].
      * replace (i + 1 - i) with 1 by lia. change (1 / 2) with 0. lia.
      * replace (i + 2 - i) with 2 by lia. change (2 / 2) with 1. lia.
Qed.

Lemma read_jobs_all (js : list work) : forall i,
  read_jobs i (Some <$> js) = Ok js.
Proof.
  induction js as [|j js IH]; intros i; cbn; [done|]. by rewrite IH.
Qed.

Lemma read_jobs_hole (js : list work) (rest : list (option work)) : forall i,
  read_jobs i ((Some <$> js) ++ None :: rest)
  = Undefined (Uninitialised_job (i + length js)).
Proof.
  induction js as [|j js IH]; intros i; cbn.
  - by rewrite Nat.add_0_r.
  - rewrite IH. do 2 f_equal. lia.
Qed.

(** What the copy loop leaves for a task array that starts with [good],
    tasks that have something to do, followed by [rest], which is empty or
    starts with a task that has nothing to do. *)
Lemma copy_tasks_result user_context_ good rest :
  Forall (fun t => 0 < extent t) good ->
  match rest with [] => True | t :: _ => extent t <= 0 end ->
  let n := (length good + length rest)%nat in
  copy_tasks n user_context_ 0 (Z.of_nat n) (good ++ rest) (replicate n None)
  = (Z.of_nat (length good) + Z.of_nat (length rest) / 2,
     (Some <$> (new_job user_context_ <$> good))
     ++ replicate (length rest) None).
Proof.
  intros Hpos Hrest. cbv zeta.
  pose proof (copy_tasks_prefix user_context_ good [] 
                (replicate (length good + length rest) None)
                (length rest) rest
                (Z.of_nat (length good + length rest)) Hpos) as H.
  cbn [length app Nat.add] in H. change (Z.of_nat 0) with 0 in H.
  rewrite H by (rewrite ?length_replicate; lia). clear H.
  rewrite drop_replicate.
  replace (length good + length rest - length good)%nat
    with (length rest) by lia.
  destruct rest as [|t rest].
  - cbn [length]. rewrite Nat.add_0_r. change (Z.of_nat 0 / 2) with 0.
    rewrite Z.add_0_r.
    destruct (length good) eqn:E; cbn; by rewrite ?Z.ltb_irrefl.
  - rewrite copy_tasks_skipping by (done || lia).
    destruct (Z.ltb_spec (Z.of_nat (length good))
                (Z.of_nat (length good + length (t :: rest))));
      [|cbn [length] in *; lia].
    f_equal. f_equal. f_equal. lia.
Qed.

(** X9. What [halide_default_do_parallel_tasks] does with tasks that have
    nothing to do. The loop that copies the descriptors never moves its
    cursor past such a task. If the first such task is the last one of the
    array, the call is the call without it (and returns 0 at once if it is
    the only one). If it is followed by another task, whatever its extent,
    the call enqueues a Job that was never written, at the index of that
    first task. *)
Theorem parallel_tasks_skipping (env : environment) (next_thread : nat)
    (user_context_ : nat) (good : list halide_parallel_task_t)
    (t : halide_parallel_task_t) (p : pool) :
  Forall (fun t => 0 < extent t) good -> extent t <= 0 ->
  halide_default_do_parallel_tasks env next_thread user_context_
    (good ++ [t]) p
  = halide_default_do_parallel_tasks env next_thread user_context_ good p
  /\ halide_default_do_parallel_tasks env next_thread user_context_ [t] p
     = Ok (p, O, Nothing_to_do 0)
  /\ forall t' rest,
       halide_default_do_parallel_tasks env next_thread user_context_
         (good ++ t :: t' :: rest) p
       = Undefined (Uninitialised_job (length good)).
Proof.
  intros Hpos Ht.
  assert (Hgood : forall q,
    halide_default_do_parallel_tasks env next_thread user_context_ good q
    = if Z.of_nat (length good) =? 0 then Ok (q, O, Nothing_to_do 0)
      else
        let js := new_job user_context_ <$> good in
        let jobs_ := length (memory q) in
        let p1 := set_memory (memory q ++ js) q in
        match enqueue_work_already_locked env next_thread jobs_ (length js)
                jobs_ p1 with
        | Undefined u => Undefined u
        | Ok (p2, spawned) =>
            let r := join_tasks jobs_ (length js) (length js) 0 0 p2 in
            Ok (fst r, spawned,
                Submitted (Parallel_tasks jobs_ (length js) 0 0) js (snd r))
        end).
  { intros q. unfold halide_default_do_parallel_tasks. cbv zeta.
    pose proof (copy_tasks_result user_context_ good [] Hpos I) as H.
    cbv zeta in H. cbn [length] in H. rewrite app_nil_r, Nat.add_0_r in H.
    rewrite H. cbn [fst snd replicate]. change (Z.of_nat 0 / 2) with 0.
    rewrite Z.add_0_r, app_nil_r.
    destruct (Z.of_nat (length good) =? 0); [done|].
    rewrite Nat2Z.id. rewrite firstn_all2 by (by rewrite !length_fmap).
    by rewrite read_jobs_all. }
  split; [|split].
  - rewrite Hgood. unfold halide_default_do_parallel_tasks. cbv zeta.
    pose proof (copy_tasks_result user_context_ good [t] Hpos Ht) as H.
    cbv zeta in H. rewrite length_app. rewrite H. cbn [fst snd length replicate].
    change (Z.of_nat 1 / 2) with 0. rewrite Z.add_0_r.
    destruct (Z.of_nat (length good) =? 0); [done|].
    rewrite Nat2Z.id.
    rewrite take_app_length' by (by rewrite !length_fmap).
    by rewrite read_jobs_all.
  - unfold halide_default_do_parallel_tasks. cbn.
    destruct (Z.leb_spec (extent t) 0); [done|lia].
  - intros t' rest. unfold halide_default_do_parallel_tasks. cbv zeta.
    pose proof (copy_tasks_result user_context_ good (t :: t' :: rest) Hpos Ht)
      as H.
    cbv zeta in H. rewrite length_app. rewrite H. cbn [fst snd].
    assert (Hhalf : 1 <= Z.of_nat (length (t :: t' :: rest)) / 2).
    { cbn [length]. apply Z.div_le_lower_bound; lia. }
    destruct (Z.eqb_spec (Z.of_nat (length good)
                          + Z.of_nat (length (t :: t' :: rest)) / 2) 0); [lia|].
    set (k := Z.to_nat _).
    assert (Hk : (length good < k)%nat) by (unfold k; lia).
    cbn [length replicate].
    rewrite take_app_ge by (rewrite !length_fmap; lia).
    rewrite !length_fmap.
    destruct (k - length good)%nat as [|k'] eqn:Ek; [lia|]. cbn [take].
    rewrite read_jobs_hole. by rewrite !length_fmap.
Qed.

Lemma parallel_tasks_skipping_witness :
  halide_default_do_parallel_tasks two_cores 1 7
    ([example_task 2 1 false] ++ [example_task 0 1 false]) pool_zero
  = halide_default_do_parallel_tasks two_cores 1 7 [example_task 2 1 false]
      pool_zero
  /\ halide_default_do_parallel_tasks two_cores 1 7 [example_task 0 1 false]
       pool_zero
     = Ok (pool_zero, O, Nothing_to_do 0)
  /\ forall t' rest,
       halide_default_do_parallel_tasks two_cores 1 7
         ([example_task 2 1 false] ++ example_task 0 1 false :: t' :: rest)
         pool_zero
       = Undefined (Uninitialised_job (length [example_task 2 1 false])).
Proof.
  apply (parallel_tasks_skipping two_cores 1 7 [example_task 2 1 false]
           (example_task 0 1 false) pool_zero).
  - constructor; [vm_compute; reflexivity | constructor].
  - vm_compute. congruence.
Defined.

(** The only way in which the spawn loop leaves defined behaviour. *)
Lemma spawn_threads_undefined fuel m : forall nt q u,
  spawn_threads fuel m nt q = Undefined u -> exists i, u = Threads_overflow i.
Proof.
  induction fuel as [|fuel IH]; intros nt q u; cbn [spawn_threads];
    destruct (spawn_more m q); try done.
  unfold spawn_thread. destruct (_ && _); [|intros [= <-]; eauto].
  set (q1 := Build_work_queue_t _ _ _ _ _ _ _ _ _ _).
  destruct (spawn_threads fuel m (S nt) q1) as [[q2 k2]|u'] eqn:Hrec; [done|].
  intros [= <-]. by eapply IH.
Qed.

(** X10. When every task has something to do, the Jobs that
    [halide_default_do_parallel_tasks] submits are the copies of all the
    descriptors, in order, each with exit status 0, no active worker and no
    precondition acquired; no Job is read that was not written. *)
Theorem parallel_tasks_submits_all (env : environment) (next_thread : nat)
    (user_context_ : nat) (tasks : list halide_parallel_task_t) (p : pool) :
  Forall (fun t => 0 < extent t) tasks -> tasks <> [] ->
  (forall i, halide_default_do_parallel_tasks env next_thread user_context_
               tasks p <> Undefined (Uninitialised_job i))
  /\ forall p' spawned o,
       halide_default_do_parallel_tasks env next_thread user_context_ tasks p
       = Ok (p', spawned, o) ->
       exists r,
         o = Submitted (Parallel_tasks (length (memory p)) (length tasks) 0 0)
               (new_job user_context_ <$> tasks) r.
Proof.
  intros Hpos Hne.
  unfold halide_default_do_parallel_tasks. cbv zeta.
  pose proof (copy_tasks_result user_context_ tasks [] Hpos I) as H.
  cbv zeta in H. cbn [length] in H. rewrite app_nil_r, Nat.add_0_r in H.
  rewrite H. cbn [fst snd replicate]. change (Z.of_nat 0 / 2) with 0.
  rewrite Z.add_0_r, app_nil_r.
  destruct (Z.eqb_spec (Z.of_nat (length tasks)) 0);
    [destruct tasks; [done|cbn in *; lia]|].
  rewrite Nat2Z.id. rewrite firstn_all2 by (by rewrite !length_fmap).
  rewrite read_jobs_all. rewrite !length_fmap.
  destruct (enqueue_work_already_locked _ _ _ _ _ _) as [[p2 sp]|u] eqn:Henq.
  - split; [done|]. intros p' spawned o [= <- <- <-]. eauto.
  - split; [|done]. intros i Hi. injection Hi as Hu. subst u.
    unfold enqueue_work_already_locked in Henq. cbv zeta in Henq.
    destruct (spawn_threads _ _ _ _) as [[q1 k]|u] eqn:Hsp; [done|].
    injection Henq as ->.
    by destruct (spawn_threads_undefined _ _ _ _ _ Hsp).
Qed.

Lemma parallel_tasks_submits_all_witness :
  (forall i, halide_default_do_parallel_tasks two_cores 1 7 example_tasks
               pool_zero <> Undefined (Uninitialised_job i))
  /\ forall p' spawned o,
       halide_default_do_parallel_tasks two_cores 1 7 example_tasks pool_zero
       = Ok (p', spawned, o) ->
       exists r,
         o = Submitted
               (Parallel_tasks (length (memory pool_zero))
                  (length example_tasks) 0 0)
               (new_job 7 <$> example_tasks) r.
Proof.
  apply (parallel_tasks_submits_all two_cores 1 7 example_tasks pool_zero).
  - repeat constructor.
  - discriminate.
Defined.

(** ** The dispatch loop prefers the top of the stack *)








(** ** The enqueue protocol: where the Jobs go *)

Lemma push_jobs_memory jobs_ pid : forall num stack mem j,
  snd (push_jobs jobs_ pid num stack mem) !! j
  = if decide (jobs_ <= j < jobs_ + num)%nat
    then set_parent (Some pid) <$> mem !! j
    else mem !! j.
Proof.
  induction num as [|i IH]; intros stack mem j.
  - cbn [push_jobs snd]. case_decide; [lia|done].
  - cbn [push_jobs]. rewrite IH.
    destruct (decide (j = jobs_ + i)%nat) as [->|Hne].
    + rewrite list_lookup_alter. repeat case_decide; try lia; done.
    + rewrite list_lookup_alter_ne by done.
      repeat case_decide; try lia; done.
Qed.

Lemma spawn_threads_sleepers fuel m : forall nt q q' k,
  spawn_threads fuel m nt q = Ok (q', k) ->
  workers_sleeping q' = workers_sleeping q
  /\ owners_sleeping q' = owners_sleeping q
  /\ shutdown q' = shutdown q.
Proof.
  induction fuel as [|fuel IH]; intros nt q q' k; cbn [spawn_threads].
  - destruct (spawn_more m q); by intros [= <- <-].
  - destruct (spawn_more m q); [|by intros [= <- <-]].
    unfold spawn_thread. destruct (_ && _); [|done].
    set (q1 := Build_work_queue_t _ _ _ _ _ _ _ _ _ _).
    destruct (spawn_threads fuel m (S nt) q1) as [[q2 k2]|] eqn:Hrec; [|done].
    intros [= <- <-]. destruct (IH _ _ _ _ Hrec) as (-> & -> & ->). done.
Qed.

(** What a call of the enqueue protocol leaves. *)
Lemma enqueue_result (env : environment) (next_thread : nat)
    (parent_id : ptr) (num_jobs : nat) (jobs_ : ptr) (p p' : pool)
    (spawned : nat) :
  enqueue_work_already_locked env next_thread parent_id num_jobs jobs_ p
  = Ok (p', spawned) ->
  let fresh := negb (initialized (work_queue p)) in
  jobs (work_queue p')
  = seq jobs_ num_jobs ++ (if fresh then [] else jobs (work_queue p))
  /\ (forall j,
        memory p' !! j
        = if decide (jobs_ <= j < jobs_ + num_jobs)%nat
          then set_parent (Some parent_id) <$> memory p !! j
          else memory p !! j)
  /\ semaphore_values p' = semaphore_values p
  /\ workers_sleeping (work_queue p')
     = (if fresh then 0 else workers_sleeping (work_queue p))
  /\ owners_sleeping (work_queue p')
     = (if fresh then 0 else owners_sleeping (work_queue p))
  /\ initialized (work_queue p') = true
  /\ shutdown (work_queue p')
     = (if fresh then false else shutdown (work_queue p))
  /\ exists more, broadcasts p' = broadcasts p ++ wake_a_team :: more.
Proof.
  unfold enqueue_work_already_locked. cbv zeta.
  set (q0 := lazy_initialize env (work_queue p)).
  set (b := gather _).
  destruct (spawn_threads _ _ next_thread q0) as [[q1 k]|] eqn:Hsp; [|done].
  intros [= <- <-].
  destruct (spawn_threads_shape _ _ _ _ _ _ Hsp) as [Hj Hset].
  destruct (spawn_threads_sleepers _ _ _ _ _ _ Hsp) as (Hw & Ho & Hsh).
  destruct (push_jobs_shape jobs_ parent_id num_jobs (jobs q1) (memory p))
    as [Hp1 _].
  set (p1 := set_memory _ _).
  assert (Hinit1 : initialized q1 = initialized q0)
    by (unfold settings in Hset; congruence).
  assert (Hq0 : jobs q0 = (if negb (initialized (work_queue p)) then []
                           else jobs (work_queue p))
                /\ workers_sleeping q0
                   = (if negb (initialized (work_queue p)) then 0
                      else workers_sleeping (work_queue p))
                /\ owners_sleeping q0
                   = (if negb (initialized (work_queue p)) then 0
                      else owners_sleeping (work_queue p))
                /\ initialized q0 = true
                /\ shutdown q0
                   = (if negb (initialized (work_queue p)) then false
                      else shutdown (work_queue p))).
  { unfold q0, lazy_initialize.
    by destruct (initialized (work_queue p)) eqn:Hi. }
  destruct Hq0 as (Hq1 & Hq2 & Hq3 & Hq4 & Hq5).
  unfold wake_up_threads. cbv zeta.
  set (q' := if _ || _ then _ else _).
  assert (Hq' : jobs q' = jobs (work_queue p1)
                /\ workers_sleeping q' = workers_sleeping (work_queue p1)
                /\ owners_sleeping q' = owners_sleeping (work_queue p1)
                /\ initialized q' = initialized (work_queue p1)
                /\ shutdown q' = shutdown (work_queue p1))
    by (unfold q'; by destruct (_ || _)).
  destruct Hq' as (E1 & E2 & E3 & E4 & E5).
  assert (Hshape :
    forall px, work_queue px = q' -> memory px = memory p1 ->
      semaphore_values px = semaphore_values p ->
      (exists more, broadcasts px = broadcasts p ++ wake_a_team :: more) ->
      jobs (work_queue px)
      = seq jobs_ num_jobs ++ (if negb (initialized (work_queue p)) then []
                               else jobs (work_queue p))
      /\ (forall j,
            memory px !! j
            = if decide (jobs_ <= j < jobs_ + num_jobs)%nat
              then set_parent (Some parent_id) <$> memory p !! j
              else memory p !! j)
      /\ semaphore_values px = semaphore_values p
      /\ workers_sleeping (work_queue px)
         = (if negb (initialized (work_queue p)) then 0
            else workers_sleeping (work_queue p))
      /\ owners_sleeping (work_queue px)
         = (if negb (initialized (work_queue p)) then 0
            else owners_sleeping (work_queue p))
      /\ initialized (work_queue px) = true
      /\ shutdown (work_queue px)
         = (if negb (initialized (work_queue p)) then false
            else shutdown (work_queue p))
      /\ exists more, broadcasts px = broadcasts p ++ wake_a_team :: more).
  { intros px -> Hm Hs Hb. rewrite E1, E2, E3, E4, E5, Hm. unfold p1. cbn.
    rewrite Hp1, Hj, Hq1, Hw, Hq2, Ho, Hq3, Hinit1, Hq4, Hsh, Hq5.
    repeat split; try done. intros j. apply push_jobs_memory. }
  destruct (target_a_team_size q' >? a_team_size q');
    [destruct (stealable_jobs b)|]; apply Hshape; try done; cbn; eauto.
  - eexists. by rewrite <- !app_assoc.
  - eexists. by rewrite <- !app_assoc.
Qed.

(** X12. What a call of the enqueue protocol that stays inside [threads]
    leaves. The new Jobs are on top of the job stack, [jobs[0]] topmost,
    above what the stack held (nothing, if the queue was not initialised).
    Each of them has the token of this call as its [parent] and is
    otherwise as it was passed; no other Job is touched. The semaphores and
    the numbers of sleepers are as before (zero sleepers, if the queue was
    not initialised), the queue is initialised and not shut down if it was
    not initialised, and the A team has been woken. *)
Theorem enqueue_pushes (env : environment) (next_thread : nat)
    (parent_id : ptr) (num_jobs : nat) (jobs_ : ptr) (p p' : pool)
    (spawned : nat) :
  enqueue_work_already_locked env next_thread parent_id num_jobs jobs_ p
  = Ok (p', spawned) ->
  let fresh := negb (initialized (work_queue p)) in
  jobs (work_queue p')
  = seq jobs_ num_jobs ++ (if fresh then [] else jobs (work_queue p))
  /\ (forall j,
        memory p' !! j
        = if decide (jobs_ <= j < jobs_ + num_jobs)%nat
          then set_parent (Some parent_id) <$> memory p !! j
          else memory p !! j)
  /\ semaphore_values p' = semaphore_values p
  /\ workers_sleeping (work_queue p')
     = (if fresh then 0 else workers_sleeping (work_queue p))
  /\ owners_sleeping (work_queue p')
     = (if fresh then 0 else owners_sleeping (work_queue p))
  /\ initialized (work_queue p') = true
  /\ shutdown (work_queue p')
     = (if fresh then false else shutdown (work_queue p))
  /\ exists more, broadcasts p' = broadcasts p ++ wake_a_team :: more.
Proof. apply enqueue_result. Qed.

Lemma enqueue_pushes_witness :
  let p := set_memory [example_waiting_job] pool_zero in
  let r := enqueue_work_already_locked two_cores 1 0 1 0 p in
  exists p' spawned,
    r = Ok (p', spawned)
    /\ jobs (work_queue p')
       = seq 0 1 ++ (if negb (initialized (work_queue p)) then []
                     else jobs (work_queue p)).
Proof.
  cbv zeta.
  destruct (enqueue_work_already_locked two_cores 1 0 1 0
              (set_memory [example_waiting_job] pool_zero))
    as [[p' spawned]|u] eqn:E; [|vm_compute in E; discriminate].
  exists p', spawned. split; [reflexivity|].
  exact (proj1 (enqueue_pushes two_cores 1 0 1 0 _ p' spawned E)).
Defined.

(** ** The calling thread takes part *)

(** X13. A call of the parallel for with something to do never waits
    before it has worked: when the enqueue protocol returns, the calling
    thread takes the first iteration of its own Job, whatever else is on
    the stack. It leaves the mutex inside [halide_do_task] on index [min],
    with the function, closure and context it was given; its Job then has
    [min + 1] (in int arithmetic: [INT_MIN] if [min] is [INT_MAX]),
    [size - 1] and one active worker, and is on top of the stack unless
    that was its only iteration. ([size] is an int, and the numbers of
    sleepers of the queue must not add up to less than 0.) *)
Theorem par_for_caller_works (env : environment) (next_thread : nat)
    (user_context_ : nat) (f : option nat) (min_ size : Z) (closure_ : nat)
    (p p' : pool) (spawned : nat) (o : outcome) :
  0 < size <= INT_MAX ->
  0 <= workers_sleeping (work_queue p) + owners_sleeping (work_queue p) ->
  halide_default_do_par_for env next_thread user_context_ f min_ size
    closure_ p = Ok (p', spawned, o) ->
  let job := length (memory p) in
  exists myjob job',
    o = Submitted (Par_for job)
          [par_for_job user_context_ f min_ size closure_]
          (inl {| who := Par_for job; doing := Do_task job myjob |})
    /\ min (task myjob) = min_ /\ task_fn myjob = f
    /\ closure (task myjob) = closure_ /\ user_context myjob = user_context_
    /\ memory p' !! job = Some job'
    /\ min (task job') = wrap (min_ + 1)
    /\ (is_int (min_ + 1) -> min (task job') = min_ + 1)
    /\ extent (task job') = size - 1
    /\ active_workers job' = 1
    /\ jobs (work_queue p')
       = (if size =? 1 then [] else [job])
         ++ (if negb (initialized (work_queue p)) then []
             else jobs (work_queue p)).
Proof.
  intros Hsize Hsleep. unfold halide_default_do_par_for.
  assert (Hwrap : wrap (size - 1) = size - 1)
    by (apply wrap_of_int; unfold is_int, INT_MIN, INT_MAX in *; lia).
  destruct (Z.leb_spec size 0); [lia|]. cbv zeta.
  set (job := length (memory p)).
  set (w := par_for_job user_context_ f min_ size closure_).
  destruct (enqueue_work_already_locked _ _ _ _ _ _) as [[p2 sp]|] eqn:Henq;
    [|done].
  destruct (enqueue_result _ _ _ _ _ _ _ _ Henq)
    as (Hjobs & Hmem & Hsem & Hws & Hos & _).
  cbv zeta in *. cbn [work_queue memory set_memory] in *.
  assert (Hw2 : memory p2 !! job = Some (set_parent (Some job) w)).
  { rewrite Hmem. destruct (decide _); [|lia].
    unfold job. by rewrite list_lookup_middle. }
  assert (Hsl : 0 <= workers_sleeping (work_queue p2)
                     + owners_sleeping (work_queue p2)).
  { rewrite Hws, Hos. destruct (negb _); lia. }
  cbn [seq app] in Hjobs.
  set (rest := if negb _ then _ else _) in *.
  assert (Hlt : (job < length (memory p2))%nat) by (by eapply lookup_lt_Some).
  assert (Hpass : worker_thread_already_locked (Some job) p2
    = (let w3 := set_next_semaphore 0 (set_parent (Some job) w) in
       let myjob := set_active_workers 1 w3 in
       let job2 := set_task (set_min_extent (wrap (min_ + 1)) (size - 1)
                               (task myjob)) myjob in
       (set_memory (<[job := job2]> (<[job := w3]> (memory p2)))
          (set_work_queue
             (if size - 1 =? 0
              then set_jobs (delete 0%nat (jobs (work_queue p2))) (work_queue p2)
              else work_queue p2)
             (set_semaphore_values (semaphore_values p2)
                (set_memory (<[job := w3]> (memory p2)) p2))),
        Some (Do_task job myjob)))).
  { unfold worker_thread_already_locked, loop_condition. rewrite Hw2.
    assert (Hrun : running (set_parent (Some job) w) = true).
    { unfold running. cbn. destruct (Z.eqb_spec size 0); [lia|done]. }
    rewrite Hrun. cbv zeta. rewrite Hjobs. cbn [find_job]. rewrite Hw2.
    assert (Hgate : may_try (Some job) (memory p2) (set_parent (Some job) w)
                    && enough_threads (work_queue p2) (set_parent (Some job) w)
                    = true).
    { unfold may_try, owner_may_assist, enough_threads,
        threads_that_could_assist. rewrite Hw2. cbn.
      rewrite bool_decide_eq_true_2 by done. cbn. apply Z.leb_le. lia. }
    rewrite Hgate.
    change (make_runnable (semaphore_values p2) (set_parent (Some job) w))
      with (semaphore_values p2,
            set_next_semaphore 0 (set_parent (Some job) w), true).
    cbn [fst snd memory set_memory set_semaphore_values].
    rewrite list_lookup_insert_eq by done. cbn [fst snd].
    unfold claim. cbn -[Z.eqb wrap]. rewrite Hwrap, Hjobs. done. }
  intros Heq. cbn [resume] in Heq. rewrite Hpass in Heq.
  cbv zeta in Heq. cbn [fst snd] in Heq. injection Heq as <- _ <-.
  eexists _, _. split; [reflexivity|]. cbn -[Z.eqb wrap].
  rewrite list_lookup_insert_eq by (by rewrite length_insert).
  repeat split; [apply wrap_of_int|].
  rewrite Hjobs.
  destruct (Z.eqb_spec (size - 1) 0); destruct (Z.eqb_spec size 1);
    try lia; done.
Qed.

Lemma par_for_caller_works_witness :
  let r := halide_default_do_par_for two_cores 1 7 (Some O) 10 2 3 pool_zero in
  exists p' spawned o myjob,
    r = Ok (p', spawned, o)
    /\ o = Submitted (Par_for (length (memory pool_zero)))
             [par_for_job 7 (Some O) 10 2 3]
             (inl {| who := Par_for (length (memory pool_zero));
                     doing := Do_task (length (memory pool_zero)) myjob |})
    /\ min (task myjob) = 10.
Proof.
  cbv zeta.
  destruct (halide_default_do_par_for two_cores 1 7 (Some O) 10 2 3 pool_zero)
    as [[[p' spawned] o]|u] eqn:E; [|vm_compute in E; discriminate].
  destruct (par_for_caller_works two_cores 1 7 (Some O) 10 2 3 pool_zero
              p' spawned o ltac:(unfold INT_MAX; lia)
              ltac:(vm_compute; congruence) E)
    as (myjob & job' & Ho & Hm & _).
  exists p', spawned, o, myjob. split; [reflexivity|]. split; [exact Ho|exact Hm].
Defined.

(** ** The Jobs of a running system *)

Lemma built_from_born tr j t0 :
  numbered 0 tr -> built_from tr j t0 -> born tr !! j = Some t0.
Proof.
  intros Hn [(m & n & Hin & ->) | (jobs_ & ts & k & Hin & Hk & ->)].
  - by destruct (numbered_par_for _ _ _ _ _ Hn Hin) as (i & -> & Hi).
  - destruct (numbered_tasks _ _ _ _ Hn Hin) as (i & -> & Hi).
    by apply Hi.
Qed.

Lemma threads_on_le j stacks_ :
  (threads_on j stacks_ <= cnt j (concat stacks_))%nat.
Proof.
  unfold threads_on. induction stacks_ as [|st sts IH]; [done|].
  cbn [List.filter concat]. rewrite cnt_app.
  destruct (Nat.eqb_spec (cnt j st) 0); cbn [negb length]; lia.
Qed.

(** X14. In every state of a run, [active_workers] of a Job is the number
    of activations of the dispatch loop that are working on that Job: the
    activations of all threads are counted, and a thread that has called
    the pool again from inside a task body has one activation for every
    call it is inside of, so that one thread can count twice for one Job.
    The threads that work on the Job are therefore at most
    [active_workers]. A serial Job has at most one such activation, and is
    off the job stack while it has one; no Job is on the stack more than
    once; and every Job on the stack has iterations left. *)
Theorem active_workers_counts (s : state) :
  reachable s ->
  (forall j job,
     memory (shared s) !! j = Some job ->
     active_workers job = Z.of_nat (cnt j (concat (stacks s)))
     /\ Z.of_nat (threads_on j (stacks s)) <= active_workers job
     /\ (serial (task job) = true ->
         active_workers job <= 1
         /\ (j ∈ jobs (work_queue (shared s)) -> active_workers job = 0)))
  /\ NoDup (jobs (work_queue (shared s)))
  /\ (forall j, j ∈ jobs (work_queue (shared s)) ->
        exists job, memory (shared s) !! j = Some job
                    /\ 0 < extent (task job)).
Proof.
  intros Hreach. pose proof (reachable_Inv s Hreach) as [HPI _].
  pose proof HPI as [_ _ _ _ Hnd Hq _ _]. split; [|split; [done|]].
  - intros j job Hj. pose proof (cores_lookup _ _ _ Hj) as Hc.
    pose proof (active_cnt _ _ _ _ _ _ HPI Hc) as Ha. cbn in Ha.
    split; [done|]. split.
    { rewrite Ha. pose proof (threads_on_le j (stacks s)). lia. }
    intros Hs. split.
    + pose proof (serial_cnt _ _ _ _ _ _ HPI Hc Hs). lia.
    + intros Hin. destruct (Hq j Hin) as (c & Hc' & _ & Hz).
      assert (c = core_of job) as -> by congruence.
      rewrite Ha, (Hz Hs). done.
  - intros j Hin. destruct (Hq j Hin) as (c & Hc & Hpos & _).
    destruct (cores_lookup_inv _ _ _ Hc) as (w & Hw & <-). eauto.
Qed.

Lemma active_workers_counts_witness :
  (forall j job,
     memory (shared (after working_run)) !! j = Some job ->
     active_workers job
     = Z.of_nat (cnt j (concat (stacks (after working_run))))
     /\ Z.of_nat (threads_on j (stacks (after working_run)))
        <= active_workers job
     /\ (serial (task job) = true ->
         active_workers job <= 1
         /\ (j ∈ jobs (work_queue (shared (after working_run))) ->
             active_workers job = 0)))
  /\ NoDup (jobs (work_queue (shared (after working_run))))
  /\ (forall j, j ∈ jobs (work_queue (shared (after working_run))) ->
        exists job, memory (shared (after working_run)) !! j = Some job
                    /\ 0 < extent (task job)).
Proof.
  apply (active_workers_counts (after working_run)).
  exists two_cores, (fun _ => 0), working_run. vm_compute. reflexivity.
Defined.

(** X15. In every state of a run, also in the middle of it, the iterations
    of a parallel Job are accounted for. With [t0] the descriptor it was
    built from, whose [min] and [extent] are ints: the extent of [t0] is
    positive; the [extent] of the Job is between 0 and that of [t0]; its
    [min] has advanced by what [extent] has lost,
    in int arithmetic; the indices handed to task bodies so far are the
    first of the range, as the ints they are in int arithmetic, in order
    and once each; where the numbers do not exceed [INT_MAX] they are the
    exact ones; and the iterations that have returned, those in flight and
    those left add up to the extent of [t0]. For a serial Job the
    iterations that have returned and those left add up to it. *)
Theorem iterations_accounted (s : state) (j : ptr) (job : work)
    (t0 : halide_parallel_task_t) :
  reachable s ->
  memory (shared s) !! j = Some job ->
  built_from (trace s) j t0 ->
  is_int (min t0) -> is_int (extent t0) ->
  serial (task job) = serial t0
  /\ 0 < extent t0
  /\ (serial t0 = false ->
      let k := extent t0 - extent (task job) in
      0 <= extent (task job) <= extent t0
      /\ min (task job) = wrap (min t0 + k)
      /\ (min t0 + k <= INT_MAX -> min (task job) = min t0 + k)
      /\ indices j (trace s) = wrap <$> seqZ (min t0) k
      /\ NoDup (indices j (trace s))
      /\ (min t0 + k - 1 <= INT_MAX -> indices j (trace s) = seqZ (min t0) k)
      /\ completed_iters j (trace s) + active_workers job
         + extent (task job) = extent t0)
  /\ (serial t0 = true ->
      completed_iters j (trace s) + extent (task job) = extent t0).
Proof.
  intros Hreach Hj Hb Hm He.
  pose proof (reachable_Inv s Hreach) as (HPI & _ & _ & _ & Hborn).
  pose proof HPI as [_ Hnum _ Hjobs _ _ _ _].
  pose proof (built_from_born _ _ _ Hnum Hb) as Ht.
  pose proof (cores_lookup _ _ _ Hj) as Hc.
  rewrite list.Forall_forall in Hborn.
  destruct (Hborn _ (list_elem_of_lookup_2 _ _ _ Ht)) as [_ Hpos].
  destruct (Hjobs j _ t0 Hc Ht) as (H1 & H2 & _ & _ & H5 & _ & H7).
  cbn in *. split; [done|]. split; [done|]. split.
  - intros Hs. rewrite <- H2 in Hs. rewrite Hs in H7.
    destruct (H5 Hs) as (Hb1 & Hb2 & Hb3).
    split; [done|]. split; [done|]. split.
    { intros Hk. rewrite Hb2. apply wrap_of_int.
      unfold is_int, INT_MIN, INT_MAX in *. lia. }
    split; [done|]. split.
    { rewrite Hb3. apply NoDup_wrap_seqZ.
      unfold is_int, INT_MIN, INT_MAX in *. lia. }
    split; [|lia].
    intros Hk. rewrite Hb3. by apply fmap_wrap_seqZ.
  - intros Hs. rewrite <- H2 in Hs. rewrite Hs in H7. lia.
Qed.

Lemma iterations_accounted_witness :
  let s := after working_run in
  let job := default (par_for_job O None 0 0 O) (memory (shared s) !! O) in
  let t0 := task (par_for_job O None 10 2 O) in
  serial (task job) = serial t0
  /\ 0 < extent t0
  /\ (serial t0 = false ->
      let k := extent t0 - extent (task job) in
      0 <= extent (task job) <= extent t0
      /\ min (task job) = wrap (min t0 + k)
      /\ (min t0 + k <= INT_MAX -> min (task job) = min t0 + k)
      /\ indices 0 (trace s) = wrap <$> seqZ (min t0) k
      /\ NoDup (indices 0 (trace s))
      /\ (min t0 + k - 1 <= INT_MAX -> indices 0 (trace s) = seqZ (min t0) k)
      /\ completed_iters 0 (trace s) + active_workers job
         + extent (task job) = extent t0)
  /\ (serial t0 = true ->
      completed_iters 0 (trace s) + extent (task job) = extent t0).
Proof.
  cbv zeta.
  apply (iterations_accounted
           (after working_run) O).
  - exists two_cores, (fun _ => 0), working_run.
    vm_compute. reflexivity.
  - vm_compute. reflexivity.
  - left. exists 10, 2. split; [|reflexivity].
    apply list_elem_of_In. vm_compute. auto.
  - unfold is_int, INT_MIN, INT_MAX. cbn. lia.
  - unfold is_int, INT_MIN, INT_MAX. cbn. lia.
Defined.

(** ** The books of the worker threads *)

Lemma total_app f fs fs' : total f (fs ++ fs') = total f fs + total f fs'.
Proof.
  unfold total. induction fs as [|fr fs IH]; cbn; [done|]. rewrite IH. lia.
Qed.

Lemma total_perm f fs fs' : fs ≡ₚ fs' -> total f fs = total f fs'.
Proof. unfold total. induction 1; cbn; lia. Qed.

Lemma sleeps_bounds fr : 0 <= sleeps_b fr <= sleeps fr /\ sleeps fr <= lives fr.
Proof.
  unfold sleeps_b, sleeps, lives.
  destruct (who fr); destruct (doing fr) as [|[]| | | | |]; lia.
Qed.

Lemma total_bounds fs :
  0 <= total sleeps_b fs <= total sleeps fs /\ total sleeps fs <= total lives fs.
Proof.
  unfold total. induction fs as [|fr fs IH]; cbn; [lia|].
  pose proof (sleeps_bounds fr). lia.
Qed.

Lemma total_new_workers n :
  total sleeps (concat (replicate n new_worker)) = 0
  /\ total sleeps_b (concat (replicate n new_worker)) = 0
  /\ total lives (concat (replicate n new_worker)) = Z.of_nat n.
Proof.
  induction n as [|n IH]; [done|].
  cbn [replicate concat]. rewrite !total_app.
  destruct IH as (-> & -> & ->). cbn. lia.
Qed.

Lemma workers_ok_perm q fs fs' : fs ≡ₚ fs' -> workers_ok q fs -> workers_ok q fs'.
Proof.
  intros Hp [H1 H2 H3 H4 H5].
  split; rewrite <- ?(total_perm _ _ _ Hp); done.
Qed.

(** One frame is replaced by the frames [added], and the books follow. *)
Lemma workers_ok_replace q q' fr0 added rest :
  workers_ok q (fr0 :: rest) ->
  workers_sleeping q' = workers_sleeping q - sleeps fr0 + total sleeps added ->
  a_team_size q' = a_team_size q + sleeps_b fr0 - total sleeps_b added ->
  threads_created q' = threads_created q ->
  initialized q' = initialized q ->
  0 <= total lives added <= lives fr0 ->
  workers_ok q' (added ++ rest).
Proof.
  intros [H1 H2 H3 H4 H5] Hw Ha Ht Hi Hl. cbn [total foldr] in *.
  fold (total sleeps rest) in *. fold (total sleeps_b rest) in *.
  fold (total lives rest) in *.
  pose proof (total_bounds rest).
  split; rewrite ?total_app, ?Ht, ?Hi; try lia.
  intros Hinit. specialize (H5 Hinit). pose proof (sleeps_bounds fr0). lia.
Qed.

(** A pass of the dispatch loop. *)
Lemma pass_books c p :
  let r := worker_thread_already_locked (owned_job c) p in
  let fr := {| who := c;
               doing := match snd r with Some a => a | None => Exited end |} in
  let q := work_queue p in
  let q' := work_queue (fst r) in
  workers_sleeping q' = workers_sleeping q + sleeps fr
  /\ a_team_size q' = a_team_size q - sleeps_b fr
  /\ threads_created q' = threads_created q
  /\ initialized q' = initialized q
  /\ 0 <= lives fr <= match c with Worker_thread => 1 | _ => 0 end.
Proof.
  cbv zeta. unfold worker_thread_already_locked.
  destruct (loop_condition (owned_job c) p).
  2:{ cbn. unfold sleeps, sleeps_b, lives. cbn. destruct c; repeat split; lia. }
  cbv zeta. destruct (snd (find_job _ _ _ _ _ _)) as [[k j]|].
  - cbn [memory set_semaphore_values set_memory].
    destruct (_ !! j) as [job|].
    + unfold claim. cbn -[Z.eqb]. destruct (serial (task job)).
      * cbn. unfold sleeps, sleeps_b, lives. cbn. destruct c; repeat split; lia.
      * cbn -[Z.eqb]. unfold sleeps, sleeps_b, lives. cbn -[Z.eqb].
        destruct (_ =? 0); destruct c; cbn; repeat split; lia.
    + cbn. unfold sleeps, sleeps_b, lives. cbn. destruct c; repeat split; lia.
  - unfold go_to_sleep. destruct c as [|o|jobs_ n i acc]; cbn [owned_job].
    + cbn -[Z.gtb]. destruct (_ >? _); cbn; unfold sleeps, sleeps_b, lives;
        cbn; repeat split; lia.
    + cbn. unfold sleeps, sleeps_b, lives. cbn. repeat split; lia.
    + cbn. unfold sleeps, sleeps_b, lives. cbn. repeat split; lia.
Qed.

Lemma pass_none_books o p :
  snd (worker_thread_already_locked o p) = None ->
  books (work_queue (fst (worker_thread_already_locked o p)))
  = books (work_queue p).
Proof.
  unfold worker_thread_already_locked.
  destruct (loop_condition o p); [|done]. cbv zeta.
  destruct (snd (find_job _ _ _ _ _ _)) as [[k j]|]; [|done].
  cbn [memory set_semaphore_values set_memory].
  by destruct (_ !! j) as [job|].
Qed.

Lemma join_books jobs_ n : forall todo i acc p,
  let r := join_tasks jobs_ n todo i acc p in
  match snd r with
  | inl fr => exists i' acc' a, fr = {| who := Parallel_tasks jobs_ n i' acc';
                                        doing := a |}
  | inr _ => True
  end
  /\ books (work_queue (fst r)) = books (work_queue p).
Proof.
  induction todo as [|todo IH]; intros i acc p; cbn zeta; [done|].
  cbn [join_tasks]. cbv zeta.
  pose proof (pass_books (Parallel_tasks jobs_ n i acc) p) as Hp.
  pose proof (pass_none_books (Some (jobs_ + i)%nat) p) as Hn.
  cbv zeta in Hp. cbn [owned_job] in Hp.
  destruct (snd (worker_thread_already_locked _ p)) as [a|].
  - cbn [fst snd]. split; [eauto|].
    destruct Hp as (H1 & H2 & H3 & H4 & _). unfold books.
    unfold sleeps, sleeps_b in *. cbn in *. f_equal; [f_equal; [f_equal|]|]; lia || done.
  - specialize (IH (S i) (if negb (exit_status_at (jobs_ + i)%nat
                                     (fst (worker_thread_already_locked
                                             (Some (jobs_ + i)%nat) p)) =? 0)
                          then exit_status_at (jobs_ + i)%nat
                                 (fst (worker_thread_already_locked
                                         (Some (jobs_ + i)%nat) p))
                          else acc)
                  (fst (worker_thread_already_locked (Some (jobs_ + i)%nat) p))).
    cbv zeta in IH. destruct IH as [IH1 IH2]. split; [done|].
    rewrite IH2. by apply Hn.
Qed.

(** The books after the thread has run on from the top of the dispatch
    loop that [c] called. *)
Lemma resume_books c p :
  let r := resume c p in
  let added := match snd r with inl fr => [fr] | inr _ => [] end in
  let q := work_queue p in
  let q' := work_queue (fst r) in
  workers_sleeping q' = workers_sleeping q + total sleeps added
  /\ a_team_size q' = a_team_size q - total sleeps_b added
  /\ threads_created q' = threads_created q
  /\ initialized q' = initialized q
  /\ 0 <= total lives added <= match c with Worker_thread => 1 | _ => 0 end.
Proof.
  cbv zeta. destruct c as [|j|jobs_ n i acc]; cbn [resume]; cbv zeta.
  - pose proof (pass_books Worker_thread p) as Hp. cbv zeta in Hp.
    cbn [owned_job] in Hp. destruct Hp as (H1 & H2 & H3 & H4 & H5).
    unfold total. cbn [fst snd foldr]. repeat split; try done; lia.
  - pose proof (pass_books (Par_for j) p) as Hp. cbv zeta in Hp.
    cbn [owned_job] in Hp. destruct Hp as (H1 & H2 & H3 & H4 & H5).
    pose proof (pass_none_books (Some j) p) as Hn.
    destruct (snd (worker_thread_already_locked (Some j) p)) as [a|].
    + unfold total. cbn [fst snd foldr]. repeat split; try done; lia.
    + unfold total. cbn [fst snd foldr]. specialize (Hn eq_refl).
      unfold books in Hn. injection Hn as -> -> -> ->.
      repeat split; try done; lia.
  - destruct (join_books jobs_ n (n - i) i acc p) as [Hfr Hb].
    unfold books in Hb. injection Hb as -> -> -> ->.
    destruct (snd (join_tasks jobs_ n (n - i) i acc p)) as [fr|v].
    + destruct Hfr as (i' & acc' & a & ->). unfold total, sleeps, sleeps_b, lives.
      cbn. repeat split; try done; lia.
    + unfold total. cbn. repeat split; try done; lia.
Qed.

(** The enqueue protocol. *)
Lemma spawn_threads_books fuel m : forall nt q q' k,
  spawn_threads fuel m nt q = Ok (q', k) ->
  workers_sleeping q' = workers_sleeping q
  /\ a_team_size q' = a_team_size q + Z.of_nat k
  /\ threads_created q' = threads_created q + Z.of_nat k
  /\ initialized q' = initialized q.
Proof.
  induction fuel as [|fuel IH]; intros nt q q' k; cbn [spawn_threads].
  - destruct (spawn_more m q); intros [= <- <-]; repeat split; lia.
  - destruct (spawn_more m q); [|intros [= <- <-]; repeat split; lia].
    unfold spawn_thread.
    destruct (Z.leb_spec 0 (threads_created q)); [|done].
    destruct (Z.ltb_spec (threads_created q) MAX_THREADS); [|done]. cbn [andb].
    set (q1 := Build_work_queue_t _ _ _ _ _ _ _ _ _ _).
    destruct (spawn_threads fuel m (S nt) q1) as [[q2 k2]|] eqn:Hrec; [|done].
    intros [= <- <-]. destruct (IH _ _ _ _ Hrec) as (-> & -> & -> & ->).
    cbn. repeat split; lia.
Qed.

Lemma enqueue_books env nt pid n jobs_ p p' sp fs :
  enqueue_work_already_locked env nt pid n jobs_ p = Ok (p', sp) ->
  workers_ok (work_queue p) fs ->
  workers_ok (work_queue p') (fs ++ concat (replicate sp new_worker))
  /\ initialized (work_queue p') = true.
Proof.
  unfold enqueue_work_already_locked. cbv zeta.
  set (q0 := lazy_initialize env (work_queue p)).
  set (b := gather _).
  destruct (spawn_threads _ _ nt q0) as [[q1 k]|] eqn:Hsp; [|done].
  intros [= <- <-] Hok.
  destruct (spawn_threads_books _ _ _ _ _ _ Hsp) as (Hw & Ha & Ht & Hi).
  assert (Hq0 : workers_ok q0 fs /\ initialized q0 = true).
  { unfold q0, lazy_initialize.
    destruct (initialized (work_queue p)) eqn:Hinit; [done|].
    destruct Hok as [H1 H2 H3 H4 H5]. specialize (H5 Hinit).
    pose proof (total_bounds fs). split; [|done].
    split; cbn; unfold MAX_THREADS; try lia. }
  destruct Hq0 as [[H1 H2 H3 H4 H5] Hinit0].
  set (p1 := set_memory _ _).
  assert (Hwake : books (work_queue (wake_up_threads b p1)) = books q1).
  { unfold wake_up_threads. cbv zeta. set (q' := if _ || _ then _ else _).
    assert (Hq' : books q' = books q1) by (unfold q'; by destruct (_ || _)).
    rewrite <- Hq'.
    destruct (target_a_team_size q' >? a_team_size q');
      [destruct (stealable_jobs b)|]; done. }
  unfold books in Hwake. injection Hwake as E1 E2 E3 E4.
  destruct (total_new_workers k) as (N1 & N2 & N3).
  split; [|congruence].
  split; rewrite ?total_app, ?N1, ?N2, ?N3, ?E1, ?E2, ?E3, ?E4; try lia.
  intros Hf. congruence.
Qed.

Lemma settle_books s t below c p sp r evs others :
  (forall st' extra,
     concat (<[t := st']> (stacks s) ++ extra) ≡ₚ st' ++ others ++ concat extra) ->
  workers_ok (work_queue p)
    ((match r with inl fr => [fr] | inr _ => [] end)
     ++ below ++ others ++ concat (replicate sp new_worker)) ->
  workers_state (settle t below c p sp r evs s).
Proof.
  intros Hsplit Hok. unfold workers_state, settle. cbn [shared stacks].
  eapply workers_ok_perm; [symmetry; apply Hsplit|].
  by destruct r.
Qed.

Lemma lives_working fr :
  doing fr <> Exited ->
  lives fr = match who fr with Worker_thread => 1 | _ => 0 end.
Proof. unfold lives. destruct (who fr), (doing fr); done. Qed.

Lemma go_on_books s t fr below others p evs q0 :
  (forall st' extra,
     concat (<[t := st']> (stacks s) ++ extra) ≡ₚ st' ++ others ++ concat extra) ->
  workers_ok q0 (fr :: below ++ others) ->
  doing fr <> Exited ->
  workers_sleeping (work_queue p) = workers_sleeping q0 - sleeps fr ->
  a_team_size (work_queue p) = a_team_size q0 + sleeps_b fr ->
  threads_created (work_queue p) = threads_created q0 ->
  initialized (work_queue p) = initialized q0 ->
  workers_state (go_on t fr below p evs s).
Proof.
  intros Hsplit Hok Hfr Hw Ha Ht Hi. unfold go_on.
  apply (settle_books _ _ _ _ _ _ _ _ others); [done|].
  cbn [replicate concat]. rewrite app_nil_r.
  destruct (resume_books (who fr) p) as (R1 & R2 & R3 & R4 & R5).
  apply (workers_ok_replace q0 _ fr); [done|lia|lia|congruence|congruence|].
  by rewrite lives_working.
Qed.

Lemma stay_books s t fr below others r evs :
  (forall st' extra,
     concat (<[t := st']> (stacks s) ++ extra) ≡ₚ st' ++ others ++ concat extra) ->
  workers_ok (work_queue (shared s)) (fr :: below ++ others) ->
  books (work_queue (fst r)) = books (work_queue (shared s)) ->
  sleeps fr = 0 ->
  sleeps {| who := who fr; doing := snd r |} = 0 ->
  doing fr <> Exited ->
  workers_state (stay t fr below r evs s).
Proof.
  intros Hsplit Hok Hb Hs Hs' Hfr. unfold workers_state, stay.
  cbn [shared stacks].
  rewrite <- (app_nil_r (<[t := _]> (stacks s))).
  eapply workers_ok_perm; [symmetry; apply Hsplit|].
  cbn [concat]. rewrite app_nil_r.
  unfold books in Hb. injection Hb as E1 E2 E3 E4.
  pose proof (sleeps_bounds fr). pose proof (sleeps_bounds {| who := who fr; doing := snd r |}).
  apply (workers_ok_replace (work_queue (shared s)) _ fr [_]);
    [done| | |done|done|]; unfold total; cbn [foldr]; try lia.
  rewrite (lives_working fr Hfr). unfold lives. cbn.
  destruct (who fr), (snd r); lia.
Qed.

Lemma enter_books s t stack others called r s' :
  workers_state s ->
  concat (stacks s) ≡ₚ stack ++ others ->
  (forall st' extra,
     concat (<[t := st']> (stacks s) ++ extra) ≡ₚ st' ++ others ++ concat extra) ->
  (forall p sp c js x, r = Ok (p, sp, Submitted c js x) ->
     c <> Worker_thread
     /\ exists p2,
          x = snd (resume c p2) /\ p = fst (resume c p2)
          /\ workers_ok (work_queue p2)
               (concat (stacks s) ++ concat (replicate sp new_worker))) ->
  (forall p sp v, r = Ok (p, sp, Nothing_to_do v) -> p = shared s) ->
  enter t stack called r s = Some s' ->
  workers_state s'.
Proof.
  intros Hok Hperm Hsplit Hsub Hnone. unfold enter.
  destruct r as [[[p sp] [v|c js x]]|u]; [| |done].
  - intros [= <-]. by rewrite (Hnone p sp v eq_refl).
  - destruct (forallb _ js); [|done]. intros [= <-].
    destruct (Hsub p sp c js x eq_refl) as (Hc & p2 & -> & -> & Hok2).
    apply (settle_books _ _ _ _ _ _ _ _ others); [done|].
    destruct (resume_books c p2) as (R1 & R2 & R3 & R4 & R5).
    set (added := match snd (resume c p2) with inl fr => [fr] | inr _ => [] end) in *.
    assert (Hzero : total lives added = 0) by (destruct c; [done|lia..]).
    pose proof (total_bounds added) as Hb.
    apply (workers_ok_perm _ _ (stack ++ others ++ concat (replicate sp new_worker)))
      in Hok2; [|by rewrite Hperm, <- app_assoc].
    destruct Hok2 as [H1 H2 H3 H4 H5].
    split; rewrite ?total_app in *; rewrite ?R3, ?R4; try lia.
    intros Hi. specialize (H5 Hi). lia.
Qed.

Lemma all_workers_exited_lives stacks_ :
  all_workers_exited stacks_ = true -> total lives (concat stacks_) = 0.
Proof.
  induction stacks_ as [|st stacks_ IH]; [done|].
  cbn [all_workers_exited forallb concat]. intros [Hst Hrest]%andb_prop.
  rewrite total_app, (IH Hrest), Z.add_0_r. clear -Hst.
  induction st as [|fr st IH]; [done|].
  cbn [forallb] in Hst. apply andb_prop in Hst as [Hfr Hst].
  unfold total in *. cbn [foldr]. rewrite (IH Hst). unfold lives.
  destruct (who fr), (doing fr); done.
Qed.

Lemma books_ok q q' fs :
  books q' = books q -> workers_ok q fs -> workers_ok q' fs.
Proof.
  unfold books. intros [= E1 E2 E3 E4] [H1 H2 H3 H4 H5].
  split; rewrite ?E1, ?E2, ?E3, ?E4; done.
Qed.

(** Every step of the system keeps the books right. *)
Lemma exec_workers a s s' :
  workers_state s -> exec a s = Some s' -> workers_state s'.
Proof.
  intros Hok. destruct a; cbn [exec].
  - (* New_thread *)
    intros [= <-]. unfold workers_state. cbn.
    rewrite concat_app. cbn. by rewrite app_nil_r.
  - (* Call_par_for *)
    destruct (stacks s !! t) as [stack|] eqn:Ht; [|done].
    destruct (in_user_code stack); [|done].
    destruct (frames_split _ _ _ Ht) as (others & Hperm & Hsplit).
    apply (enter_books s t stack others); try done.
    + intros p sp c js x. unfold halide_default_do_par_for.
      destruct (Z.leb_spec size 0) as [|Hsize]; [done|]. cbv zeta.
      destruct (enqueue_work_already_locked _ _ _ _ _ _) as [[p2 sp2]|] eqn:Henq;
        [|done].
      intros Heq. assert (Hc : c = Par_for (length (memory (shared s))))
        by (by injection Heq).
      subst c. split; [done|]. exists p2.
      assert (Hx : snd (resume (Par_for (length (memory (shared s)))) p2) = x)
        by (by injection Heq).
      assert (Hp : fst (resume (Par_for (length (memory (shared s)))) p2) = p)
        by (by injection Heq).
      assert (sp2 = sp) as -> by (by injection Heq).
      split; [done|]. split; [done|].
      by destruct (enqueue_books _ _ _ _ _ _ _ _ (concat (stacks s)) Henq Hok).
    + intros p sp v. unfold halide_default_do_par_for.
      destruct (size <=? 0); [by intros [= <- _ _]|]. cbv zeta.
      by destruct (enqueue_work_already_locked _ _ _ _ _ _) as [[p2 sp2]|].
  - (* Call_parallel_tasks *)
    destruct (stacks s !! t) as [stack|] eqn:Ht; [|done].
    destruct (in_user_code stack); [|done].
    destruct (frames_split _ _ _ Ht) as (others & Hperm & Hsplit).
    apply (enter_books s t stack others); try done.
    + intros p sp c js x. unfold halide_default_do_parallel_tasks. cbv zeta.
      destruct (_ =? 0); [done|].
      destruct (read_jobs _ _) as [js'|]; [|done].
      destruct (enqueue_work_already_locked _ _ _ _ _ _) as [[p2 sp2]|] eqn:Henq;
        [|done].
      intros Heq.
      assert (Hc : c = Parallel_tasks (length (memory (shared s))) (length js')
                         0 0) by (by injection Heq).
      subst c. split; [done|]. exists p2.
      assert (Hx : snd (join_tasks (length (memory (shared s))) (length js')
                          (length js') 0 0 p2) = x) by (by injection Heq).
      assert (Hp : fst (join_tasks (length (memory (shared s))) (length js')
                          (length js') 0 0 p2) = p) by (by injection Heq).
      assert (sp2 = sp) as -> by (by injection Heq).
      cbn [resume]. rewrite Nat.sub_0_r.
      split; [done|]. split; [done|].
      by destruct (enqueue_books _ _ _ _ _ _ _ _ (concat (stacks s)) Henq Hok).
    + intros p sp v. unfold halide_default_do_parallel_tasks. cbv zeta.
      destruct (_ =? 0); [by intros [= <- _ _]|].
      destruct (read_jobs _ _) as [js'|]; [|done].
      by destruct (enqueue_work_already_locked _ _ _ _ _ _) as [[p2 sp2]|].
  - (* Start *)
    destruct (stacks s !! t) as [[|fr below]|] eqn:Ht; try done.
    destruct (doing fr) eqn:Ha; try done. intros [= <-].
    destruct (frames_split _ _ _ Ht) as (others & Hperm & Hsplit).
    apply (workers_ok_perm _ _ _ Hperm) in Hok. cbn [app] in Hok.
    apply (go_on_books _ _ _ _ others _ _ (work_queue (shared s)));
      try done; try (by rewrite Ha).
    + unfold sleeps. rewrite Ha. destruct (who fr); lia.
    + unfold sleeps_b. rewrite Ha. destruct (who fr); lia.
  - (* Wake_up *)
    destruct (stacks s !! t) as [[|fr below]|] eqn:Ht; try done.
    destruct (doing fr) eqn:Ha; try done. intros [= <-].
    destruct (frames_split _ _ _ Ht) as (others & Hperm & Hsplit).
    apply (workers_ok_perm _ _ _ Hperm) in Hok. cbn [app] in Hok.
    apply (go_on_books _ _ _ _ others _ _ (work_queue (shared s)));
      try done; try (by rewrite Ha);
      unfold after_wait, sleeps, sleeps_b; rewrite ?Ha;
      destruct (who fr); cbn; try done; try lia; destruct c; cbn; lia || done.
  - (* Task_returns *)
    destruct (stacks s !! t) as [[|fr below]|] eqn:Ht; try done.
    destruct (frames_split _ _ _ Ht) as (others & Hperm & Hsplit).
    apply (workers_ok_perm _ _ _ Hperm) in Hok. cbn [app] in Hok.
    destruct (doing fr) eqn:Ha; try done; intros [= <-].
    + assert (Hq : work_queue (finish_task job result (shared s))
                   = work_queue (shared s)).
      { unfold finish_task. destruct (_ !! job); [|done]. by destruct (_ && _). }
      apply (go_on_books _ _ _ _ others _ _ (work_queue (shared s)));
        try done; try (by rewrite Ha); rewrite Hq;
        unfold sleeps, sleeps_b; rewrite ?Ha; destruct (who fr); lia || done.
    + apply (stay_books _ _ _ _ others); try done; try (by rewrite Ha).
      * unfold serial_body_return. by destruct (_ !! job).
      * unfold sleeps. rewrite Ha. by destruct (who fr).
      * unfold sleeps, serial_body_return. cbn.
        destruct (_ !! job); cbn; destruct (who fr); try done;
          by destruct (result =? 0).
  - (* Serial_step *)
    destruct (stacks s !! t) as [[|fr below]|] eqn:Ht; try done.
    destruct (frames_split _ _ _ Ht) as (others & Hperm & Hsplit).
    apply (workers_ok_perm _ _ _ Hperm) in Hok. cbn [app] in Hok.
    destruct (doing fr) eqn:Ha; try done; intros [= <-].
    + destruct (serial_claim_step_shape job iters (shared s))
        as (_ & Hq & Hx).
      apply (stay_books _ _ _ _ others); try done; try (by rewrite Ha).
      * by rewrite Hq.
      * unfold sleeps. rewrite Ha. by destruct (who fr).
      * unfold sleeps. cbn. destruct (who fr); try done.
        by destruct Hx as [(n' & [-> | ->]) | ->].
    + assert (Hq : books (work_queue (finish_task job result
                                        (serial_put_back job (shared s))))
                   = books (work_queue (shared s))).
      { unfold finish_task, serial_put_back.
        destruct (memory (shared s) !! job) as [w|] eqn:Hw; [|by rewrite Hw].
        destruct (_ >? 0); cbn; rewrite Hw; by destruct (_ && _). }
      unfold books in Hq. injection Hq as E1 E2 E3 E4.
      apply (go_on_books _ _ _ _ others _ _ (work_queue (shared s)));
        try done; try (by rewrite Ha); rewrite ?E1, ?E2;
        unfold sleeps, sleeps_b; rewrite ?Ha; destruct (who fr); lia || done.
  - (* Set_num_threads *) intros [= <-]. by apply (books_ok (work_queue (shared s))).
  - (* Semaphore_init *) intros [= <-]. done.
  - (* Semaphore_release *)
    cbv zeta. intros [= <-]. apply (books_ok (work_queue (shared s))); [|done].
    cbn. by destruct (_ =? n).
  - (* Semaphore_try_acquire *) intros [= <-]. done.
  - (* Shutdown_begin *)
    destruct (initialized _) eqn:Hi; [|done]. intros [= <-].
    destruct Hok as [H1 H2 H3 H4 H5]. split; cbn; done.
  - (* Shutdown_join *)
    destruct (initialized _) eqn:Hi; [|done]. cbn [andb].
    destruct (shutdown _); [|done]. cbn [andb].
    destruct (all_workers_exited (stacks s)) eqn:Hex; [|done]. intros [= <-].
    destruct Hok as [H1 H2 H3 H4 H5]. split; cbn; try done.
    intros _. by apply all_workers_exited_lives.
Qed.

Lemma reachable_workers s : reachable s -> workers_state s.
Proof.
  intros (env & σ & acts & H).
  assert (Hinit : workers_state (initial env σ)).
  { split; cbn; unfold MAX_THREADS; done || lia. }
  revert H. generalize (initial env σ) Hinit. clear Hinit.
  induction acts as [|a acts IH]; intros s0 H0; cbn.
  - by intros [= <-].
  - destruct (exec a s0) as [s1|] eqn:He; [|done].
    apply IH. by eapply exec_workers.
Qed.

(** X16. The books of the queue about its worker threads are right in
    every state of a run. [workers_sleeping] is the number of threads of
    the pool that are blocked in the dispatch loop that [worker_thread]
    called, that is, in the [halide_cond_wait] of line 160 or 164 (a
    thread of the pool that waits as the owner of a Job it submitted from
    inside a task body is not among them: it counts in [owners_sleeping]);
    [a_team_size] is [threads_created] less those of them that are blocked
    on the B team; the threads of the pool that have not returned from
    that loop are at most [threads_created]. While the queue is not
    initialised (before the first submission, and from the end of a
    shutdown to the next one) no thread of the pool is left. *)
Theorem workers_accounted (s : state) :
  reachable s ->
  let q := work_queue (shared s) in
  let fs := concat (stacks s) in
  workers_sleeping q = total sleeps fs
  /\ a_team_size q = threads_created q - total sleeps_b fs
  /\ 0 <= total sleeps_b fs <= total sleeps fs
  /\ total sleeps fs <= total lives fs
  /\ total lives fs <= threads_created q
  /\ (initialized q = false -> total lives fs = 0).
Proof.
  intros Hreach. destruct (reachable_workers s Hreach) as [H1 H2 H3 H4 H5].
  cbv zeta. pose proof (total_bounds (concat (stacks s))).
  repeat split; try lia. done.
Qed.

Lemma workers_accounted_witness :
  let s := after sleeping_run in
  let q := work_queue (shared s) in
  let fs := concat (stacks s) in
  workers_sleeping q = total sleeps fs
  /\ a_team_size q = threads_created q - total sleeps_b fs
  /\ 0 <= total sleeps_b fs <= total sleeps fs
  /\ total sleeps fs <= total lives fs
  /\ total lives fs <= threads_created q
  /\ (initialized q = false -> total lives fs = 0).
Proof.
  apply (workers_accounted (after sleeping_run)).
  exists two_cores, (fun _ => 0), sleeping_run.
  vm_compute. reflexivity.
Defined.

(** ** A finished Job is final *)

Lemma kept_refl cs : kept cs cs.
Proof. by intros j c. Qed.

Lemma kept_eq cs cs' : cs' = cs -> kept cs cs'.
Proof. intros ->. apply kept_refl. Qed.

Lemma kept_trans cs1 cs2 cs3 : kept cs1 cs2 -> kept cs2 cs3 -> kept cs1 cs3.
Proof. intros H1 H2 j c Hj Hf. apply H2; [|done]. by apply H1. Qed.

Lemma kept_app cs l : kept cs (cs ++ l).
Proof. intros j c Hj _. by apply lookup_app_l_Some. Qed.

Lemma kept_insert cs j c c' :
  cs !! j = Some c -> ~ finished c -> kept cs (<[j := c']> cs).
Proof.
  intros Hj Hnf k d Hk Hf. destruct (decide (k = j)) as [->|Hne].
  - congruence.
  - by rewrite list_lookup_insert_ne.
Qed.

Lemma PI_stack_live cs qs fs tr : PI cs qs fs tr -> stack_live cs qs.
Proof.
  intros [_ _ _ _ _ Hq _ _] j Hj. destruct (Hq j Hj) as (c & Hc & Hpos & _).
  eauto.
Qed.

Lemma live_not_finished c : 0 < c_extent c -> ~ finished c.
Proof. intros H [H0 _]. lia. Qed.

(** A pass of the dispatch loop. *)
Lemma pass_kept o p :
  stack_live (cores p) (jobs (work_queue p)) ->
  kept (cores p) (cores (fst (worker_thread_already_locked o p))).
Proof.
  intros Hlive. unfold worker_thread_already_locked.
  destruct (loop_condition o p); [|apply kept_refl].
  pose proof (find_job_spec o (work_queue p) (jobs (work_queue p))
                O (memory p) (semaphore_values p)) as [Hmem Hfound].
  cbv zeta in *. set (r := find_job _ _ _ _ _ _) in *.
  apply cores_but_next_semaphore in Hmem.
  destruct (snd r) as [[k j]|] eqn:Hr.
  - destruct (Hfound k j eq_refl) as (i & job & -> & Hi & Hj & _).
    cbn [memory set_semaphore_values set_memory].
    destruct (fst (fst r) !! j) as [job'|] eqn:Hjob';
      [|cbn; unfold cores; cbn; by rewrite Hmem; apply kept_refl].
    destruct (Hlive j) as (c & Hc & Hpos);
      [by eapply list_elem_of_lookup_2|].
    unfold claim. cbn [set_active_workers task].
    destruct (serial (task job')); cbn -[Z.eqb]; unfold cores; cbn -[Z.eqb];
      rewrite list_fmap_insert, Hmem;
      apply (kept_insert _ _ c); try done; by apply live_not_finished.
  - unfold go_to_sleep. destruct o as [o|].
    + cbn. unfold cores. cbn. rewrite cores_alter by done. rewrite Hmem.
      apply kept_refl.
    + cbn -[Z.gtb]. destruct (_ >? _); cbn; unfold cores; cbn; rewrite Hmem;
        apply kept_refl.
Qed.

Lemma pass_none_same o p :
  snd (worker_thread_already_locked o p) = None ->
  cores (fst (worker_thread_already_locked o p)) = cores p
  /\ work_queue (fst (worker_thread_already_locked o p)) = work_queue p.
Proof.
  unfold worker_thread_already_locked.
  destruct (loop_condition o p); [|done].
  pose proof (find_job_spec o (work_queue p) (jobs (work_queue p))
                O (memory p) (semaphore_values p)) as [Hmem _].
  cbv zeta in *. set (r := find_job _ _ _ _ _ _) in *.
  apply cores_but_next_semaphore in Hmem.
  destruct (snd r) as [[k j]|]; [|done].
  cbn [memory set_semaphore_values set_memory].
  destruct (fst (fst r) !! j) as [job'|]; [done|]. intros _.
  unfold cores. cbn. by rewrite Hmem.
Qed.

Lemma join_kept jobs_ n : forall todo i acc p,
  stack_live (cores p) (jobs (work_queue p)) ->
  kept (cores p) (cores (fst (join_tasks jobs_ n todo i acc p))).
Proof.
  induction todo as [|todo IH]; intros i acc p Hlive; [apply kept_refl|].
  cbn [join_tasks]. cbv zeta.
  pose proof (pass_kept (Some (jobs_ + i)%nat) p Hlive) as Hk.
  pose proof (pass_none_same (Some (jobs_ + i)%nat) p) as Hn.
  destruct (snd (worker_thread_already_locked _ p)) as [a|]; [done|].
  destruct (Hn eq_refl) as [Hc Hq].
  eapply kept_trans; [exact Hk|]. apply IH. by rewrite Hc, Hq.
Qed.

Lemma resume_kept c p :
  stack_live (cores p) (jobs (work_queue p)) ->
  kept (cores p) (cores (fst (resume c p))).
Proof.
  intros Hlive. destruct c as [|j|jobs_ n i acc]; cbn [resume]; cbv zeta.
  - by apply pass_kept.
  - pose proof (pass_kept (Some j) p Hlive). by destruct (snd _).
  - by apply join_kept.
Qed.

Lemma submit_kept env nt pid js p p2 sp fs tr e c :
  PI (cores p) (jobs (work_queue p)) fs tr ->
  Forall2 fresh_job (core_of <$> js) (born [e]) ->
  match e with
  | Par_for_called j _ _ | Tasks_called j _ => j = length (memory p)
  | _ => False
  end ->
  enqueue_work_already_locked env nt pid (length js) (length (memory p))
    (set_memory (memory p ++ js) p) = Ok (p2, sp) ->
  kept (cores p) (cores (fst (resume c p2))).
Proof.
  intros HPI Hnew He Henq.
  destruct (submit_PI _ _ _ _ _ _ _ _ _ _ HPI Hnew He Henq) as [HPI2 _].
  destruct (enqueue_shape _ _ _ _ _ _ _ _ Henq) as (Hc & _).
  eapply kept_trans; [|apply resume_kept; by eapply PI_stack_live].
  rewrite Hc. unfold cores. cbn. rewrite fmap_app. apply kept_app.
Qed.

(** No step of the system touches a finished Job. *)
Lemma exec_kept a s s' :
  PI_state s -> exec a s = Some s' ->
  kept (cores (shared s)) (cores (shared s')).
Proof.
  intros HPI. pose proof (PI_stack_live _ _ _ _ HPI) as Hlive.
  destruct a; cbn [exec].
  - intros [= <-]. apply kept_refl.
  - (* Call_par_for *)
    destruct (stacks s !! t) as [stack|] eqn:Ht; [|done].
    destruct (in_user_code stack); [|done].
    unfold enter, halide_default_do_par_for.
    destruct (Z.leb_spec size 0) as [|Hsize];
      [intros [= <-]; apply kept_refl|]. cbv zeta.
    destruct (enqueue_work_already_locked _ _ _ _ _ _) as [[p2 sp2]|] eqn:Henq;
      [|done].
    destruct (forallb _ _) eqn:Hg; [|done]. apply forallb_Forall in Hg.
    assert (Hm : is_int min_).
    { apply list.Forall_cons in Hg as [Hg _].
      by apply int_task_spec in Hg as (? & _). }
    intros [= <-]. cbn [shared settle].
    exact (submit_kept _ _ _ [_] _ _ _ _ _
             (Par_for_called (length (memory (shared s))) min_ size)
             (Par_for (length (memory (shared s))))
             HPI (par_for_job_fresh _ _ _ _ _ Hsize Hm) eq_refl Henq).
  - (* Call_parallel_tasks *)
    destruct (stacks s !! t) as [stack|] eqn:Ht; [|done].
    destruct (in_user_code stack); [|done].
    unfold enter, halide_default_do_parallel_tasks. cbv zeta.
    set (copied := copy_tasks _ _ _ _ _ _).
    destruct (fst copied =? 0); [intros [= <-]; apply kept_refl|].
    destruct (read_jobs _ _) as [js'|] eqn:Hread; [|done].
    destruct (enqueue_work_already_locked _ _ _ _ _ _) as [[p2 sp2]|] eqn:Henq;
      [|done].
    destruct (forallb _ _) eqn:Hg; [|done]. apply forallb_Forall in Hg.
    intros [= <-]. cbn [shared settle].
    assert (Hbuilt : Forall (built user_context_) js').
    { eapply read_jobs_built; [|exact Hread]. apply Forall_take.
      apply copy_tasks_built. apply Forall_replicate. done. }
    assert (Hfresh : Forall2 fresh_job (core_of <$> js')
              (born [Tasks_called (length (memory (shared s))) (task <$> js')])).
    { cbn. rewrite app_nil_r. by eapply built_fresh. }
    pose proof (submit_kept _ _ _ js' _ _ _ _ _
                  (Tasks_called (length (memory (shared s))) (task <$> js'))
                  (Parallel_tasks (length (memory (shared s))) (length js') 0 0)
                  HPI Hfresh eq_refl Henq) as H.
    cbn [resume] in H. by rewrite Nat.sub_0_r in H.
  - (* Start *)
    destruct (stacks s !! t) as [[|fr below]|] eqn:Ht; try done.
    destruct (doing fr) eqn:Ha; try done. intros [= <-].
    unfold go_on. cbn [shared settle]. by apply resume_kept.
  - (* Wake_up *)
    destruct (stacks s !! t) as [[|fr below]|] eqn:Ht; try done.
    destruct (doing fr) eqn:Ha; try done. intros [= <-].
    unfold go_on. cbn [shared settle].
    destruct (after_wait_shape (owned_job (who fr)) c (shared s))
      as (Hc & Hq & _).
    rewrite <- Hc at 1. apply resume_kept. by rewrite Hc, Hq.
  - (* Task_returns *)
    destruct (stacks s !! t) as [[|fr below]|] eqn:Ht; try done.
    destruct (frames_split _ _ _ Ht) as (others & Hperm & Hsplit).
    apply (PI_perm _ _ _ _ _ Hperm) in HPI. cbn [app] in HPI.
    destruct (doing fr) eqn:Ha; try done; intros [= <-].
    + destruct (PI_finish_parallel _ _ _ _ _ _ _ result HPI Ha)
        as (c & Hj & H1 & _).
      assert (Hnf : ~ finished c).
      { eapply working_not_finished; [exact HPI|exact Hj|].
        rewrite cnt_cons, (cnt1_same job) by (by rewrite Ha). lia. }
      pose proof Hj as Hj'.
      unfold cores in Hj. rewrite list_lookup_fmap in Hj.
      destruct (memory (shared s) !! job) as [w|] eqn:Hw; [|done].
      assert (c = core_of w) as -> by (cbn in Hj; congruence).
      destruct (finish_task_shape job result _ w Hw) as [Hc Hq].
      unfold go_on. cbn [shared settle].
      eapply kept_trans; [|apply resume_kept].
      * rewrite Hc. by apply (kept_insert _ _ (core_of w)).
      * rewrite Hc, Hq. by eapply PI_stack_live.
    + destruct (PI_serial_return _ _ _ _ _ _ _ result HPI Ha)
        as (c & Hj & _).
      assert (Hnf : ~ finished c).
      { eapply working_not_finished; [exact HPI|exact Hj|].
        rewrite cnt_cons, (cnt1_same job) by (by rewrite Ha). lia. }
      pose proof Hj as Hj'.
      unfold cores in Hj. rewrite list_lookup_fmap in Hj.
      destruct (memory (shared s) !! job) as [w|] eqn:Hw; [|done].
      assert (c = core_of w) as -> by (cbn in Hj; congruence).
      destruct (serial_body_return_cores job iters result _ w Hw)
        as (c' & Hc).
      unfold stay. cbn [shared]. rewrite Hc.
      by apply (kept_insert _ _ (core_of w)).
  - (* Serial_step *)
    destruct (stacks s !! t) as [[|fr below]|] eqn:Ht; try done.
    destruct (frames_split _ _ _ Ht) as (others & Hperm & Hsplit).
    apply (PI_perm _ _ _ _ _ Hperm) in HPI. cbn [app] in HPI.
    destruct (doing fr) eqn:Ha; try done; intros [= <-].
    + destruct (serial_claim_step_shape job iters (shared s)) as (Hc & _).
      unfold stay. cbn [shared]. rewrite Hc. apply kept_refl.
    + destruct (PI_serial_finish _ _ _ _ _ _ _ HPI Ha) as (c & Hj & H1 & _).
      assert (Hnf : ~ finished c).
      { eapply working_not_finished; [exact HPI|exact Hj|].
        rewrite cnt_cons, (cnt1_same job) by (by rewrite Ha). lia. }
      pose proof Hj as Hj'.
      unfold cores in Hj. rewrite list_lookup_fmap in Hj.
      destruct (memory (shared s) !! job) as [w|] eqn:Hw; [|done].
      assert (c = core_of w) as -> by (cbn in Hj; congruence).
      destruct (serial_put_back_shape job _ w Hw) as (Hc1 & Hm & Hq1 & _).
      rewrite <- Hm in Hw.
      destruct (finish_task_shape job result _ w Hw) as [Hc Hq].
      unfold go_on. cbn [shared settle].
      eapply kept_trans; [|apply resume_kept].
      * rewrite Hc, Hc1. by apply (kept_insert _ _ (core_of w)).
      * rewrite Hc, Hq, Hc1, Hq1. by eapply PI_stack_live.
  - intros [= <-]. apply kept_refl.
  - intros [= <-]. apply kept_refl.
  - cbv zeta. intros [= <-]. apply kept_eq. cbn. by destruct (_ =? n).
  - intros [= <-]. apply kept_refl.
  - destruct (initialized _); [|done]. intros [= <-]. apply kept_refl.
  - destruct (_ && _); [|done]. intros [= <-]. apply kept_refl.
Qed.

Lemma run_kept acts : forall s s',
  Inv s -> run acts s = Some s' ->
  kept (cores (shared s)) (cores (shared s')).
Proof.
  induction acts as [|a acts IH]; intros s s' HI; cbn.
  - intros [= <-]. apply kept_refl.
  - destruct (exec a s) as [s1|] eqn:He; [|done]. intros Hr.
    eapply kept_trans; [eapply exec_kept; [apply HI|exact He]|].
    apply IH; [by eapply exec_Inv|done].
Qed.

(** X17. A finished Job is final. Once a Job of a run has no iteration
    left and no active worker, nothing the system does later changes its
    [min], its [extent], its number of active workers or its exit status:
    the exit status that the owner reads after it has given up the mutex
    is the one the Job keeps. *)
Theorem finished_is_final (s s' : state) (acts : list action) (j : ptr)
    (job : work) :
  reachable s -> run acts s = Some s' ->
  memory (shared s) !! j = Some job -> running job = false ->
  exists job',
    memory (shared s') !! j = Some job'
    /\ running job' = false
    /\ min (task job') = min (task job)
    /\ extent (task job') = extent (task job)
    /\ active_workers job' = active_workers job
    /\ exit_status job' = exit_status job.
Proof.
  intros Hreach Hrun Hj Hfin.
  pose proof (run_kept acts s s' (reachable_Inv s Hreach) Hrun j (core_of job)
                (cores_lookup _ _ _ Hj) (proj1 (running_finished job) Hfin))
    as Hk.
  destruct (cores_lookup_inv _ _ _ Hk) as (job' & Hj' & Hcore).
  exists job'. split; [done|]. split.
  - apply running_finished. rewrite Hcore. by apply running_finished.
  - injection Hcore as E1 E2 E3 E4 E5. done.
Qed.

Lemma finished_is_final_witness :
  exists job',
    memory (shared (after (par_for_run ++ [Call_par_for 0 7 (Some O) 0 3 3])))
      !! O = Some job'
    /\ running job' = false
    /\ min (task job') = min (task example_finished_job)
    /\ extent (task job') = extent (task example_finished_job)
    /\ active_workers job' = active_workers example_finished_job
    /\ exit_status job' = exit_status example_finished_job.
Proof.
  apply (finished_is_final (after par_for_run)
           (after (par_for_run ++ [Call_par_for 0 7 (Some O) 0 3 3]))
           [Call_par_for 0 7 (Some O) 0 3 3] O example_finished_job).
  - exists two_cores, (fun _ => 0), par_for_run. vm_compute. reflexivity.
  - vm_compute. reflexivity.
  - vm_compute. reflexivity.
  - vm_compute. reflexivity.
Defined.

(** ** Shutdown *)

Lemma find_job_shutdown owned q b stack : forall pos mem σ,
  find_job owned (set_shutdown b q) stack pos mem σ
  = find_job owned q stack pos mem σ.
Proof.
  induction stack as [|j rest IH]; intros pos mem σ; [done|].
  cbn [find_job]. destruct (mem !! j) as [job|]; [|done].
  change (enough_threads (set_shutdown b q) job) with (enough_threads q job).
  destruct (may_try owned mem job && enough_threads q job); [|apply IH].
  destruct (snd (make_runnable σ job)); [done|apply IH].
Qed.

(** X18. The [shutdown] flag stops the workers and nobody else. With the
    flag set, a worker thread that comes to the top of its loop returns
    from it at once: it takes no Job and changes nothing. A pass of an
    owner does not look at the flag: it does what it does without it, so
    an owner goes on until its Job is finished. *)
Theorem shutdown_stops_workers_only (p : pool) (b : bool) (o : ptr) :
  (shutdown (work_queue p) = true ->
   worker_thread_already_locked None p = (p, None)
   /\ resume Worker_thread p
      = (p, inl {| who := Worker_thread; doing := Exited |}))
  /\ worker_thread_already_locked (Some o) (with_shutdown b p)
     = (with_shutdown b (fst (worker_thread_already_locked (Some o) p)),
        snd (worker_thread_already_locked (Some o) p)).
Proof.
  split.
  - intros Hs. unfold resume, worker_thread_already_locked, loop_condition.
    by rewrite Hs.
  - unfold worker_thread_already_locked, loop_condition, with_shutdown.
    cbn [memory set_work_queue work_queue].
    destruct (memory p !! o) as [owned_job|]; [|done].
    destruct (running owned_job); [|done]. cbv zeta.
    cbn [jobs set_shutdown semaphore_values].
    rewrite find_job_shutdown.
    set (r := find_job _ _ _ _ _ _).
    destruct (snd r) as [[k j]|].
    + cbn [memory set_semaphore_values set_memory set_work_queue].
      destruct (fst (fst r) !! j) as [job|]; [|done].
      unfold claim. cbn -[Z.eqb]. destruct (serial (task job)); [done|].
      cbn -[Z.eqb]. by destruct (_ =? 0).
    + done.
Qed.

Lemma shutdown_stops_workers_only_witness :
  worker_thread_already_locked None (shutdown_begin example_pool)
  = (shutdown_begin example_pool, None)
  /\ resume Worker_thread (shutdown_begin example_pool)
     = (shutdown_begin example_pool,
        inl {| who := Worker_thread; doing := Exited |}).
Proof.
  apply (proj1 (shutdown_stops_workers_only (shutdown_begin example_pool)
                  true O)).
  vm_compute. reflexivity.
Defined.

(** X19. A shutdown and the next submission. When the workers have been
    joined the queue is no longer initialised, so the next call of the
    enqueue protocol sets it up again: the job stack is empty (Jobs that
    were still on it are dropped), no thread counts as created, asleep or
    on the A team, the [shutdown] flag is off, and the number of threads
    wanted is the one that was set, which survives the shutdown when it is
    in [1, 256]. *)
Theorem shutdown_then_initialize (env : environment) (p : pool) :
  let q := lazy_initialize env (work_queue (shutdown_end (shutdown_begin p))) in
  initialized q = true /\ shutdown q = false /\ jobs q = []
  /\ threads_created q = 0 /\ a_team_size q = 0
  /\ workers_sleeping q = 0 /\ owners_sleeping q = 0
  /\ threads q = threads (work_queue p)
  /\ desired_threads_working q
     = clamp_num_threads
         (if desired_threads_working (work_queue p) =? 0
          then default_desired_num_threads env
          else desired_threads_working (work_queue p))
  /\ (1 <= desired_threads_working (work_queue p) <= MAX_THREADS ->
      desired_threads_working q = desired_threads_working (work_queue p)).
Proof.
  cbv zeta. unfold lazy_initialize, shutdown_end, shutdown_begin. cbn.
  repeat split. intros Hr.
  destruct (Z.eqb_spec (desired_threads_working (work_queue p)) 0); [lia|].
  unfold clamp_num_threads, MAX_THREADS in *.
  destruct (Z.gtb_spec (desired_threads_working (work_queue p)) 256); [lia|].
  destruct (Z.ltb_spec (desired_threads_working (work_queue p)) 1); [lia|done].
Qed.

Lemma shutdown_then_initialize_witness :
  desired_threads_working
    (lazy_initialize two_cores
       (work_queue (shutdown_end (shutdown_begin example_pool))))
  = desired_threads_working (work_queue example_pool).
Proof.
  apply (proj2 (proj2 (proj2 (proj2 (proj2 (proj2 (proj2 (proj2 (proj2
           (shutdown_then_initialize two_cores example_pool)))))))))).
  vm_compute. split; congruence.
Defined.

(** ** The status of a parallel for *)

(** X20. A call of the parallel for that has returned has returned 0 if
    and only if every call of its task body returned 0. *)
Theorem par_for_zero_iff (s : state) (j : ptr) (m n v : Z) :
  reachable s ->
  Par_for_called j m n ∈ trace s ->
  Par_for_returned j v ∈ trace s ->
  v = 0 <-> Forall (fun r => r = 0) (results j (trace s)).
Proof.
  intros Hreach Hcall Hret.
  pose proof (reachable_Inv s Hreach) as HI.
  pose proof HI as [[_ Hnum _ _ _ _ _ Hrets] _].
  destruct (numbered_par_for _ _ _ _ _ Hnum Hcall) as (i & -> & Ht).
  cbn [Nat.add] in *.
  rewrite list.Forall_forall in Hrets.
  destruct (Hrets _ Hret) as (c & Hc & Hfin & <-).
  destruct (cores_lookup_inv _ _ _ Hc) as (w & Hw & <-).
  destruct (finished_job s i w _ HI Hw Hfin Ht) as (_ & _ & H3 & _).
  cbn. rewrite H3. apply last_nonzero_zero.
Qed.

Lemma par_for_zero_iff_witness :
  5 = 0 <-> Forall (fun r => r = 0) (results 0 (trace (after par_for_run))).
Proof.
  apply (par_for_zero_iff (after par_for_run) O 10 2 5).
  - exists two_cores, (fun _ => 0), par_for_run. vm_compute. reflexivity.
  - apply list_elem_of_In. vm_compute. auto.
  - apply list_elem_of_In. vm_compute. auto 10.
Defined.

(** ** A parallel for on one thread *)







